(** * A shallow embedding of [src/compiler.js]

    The template renderer of the repository: context construction, the
    directive tokenizer, the conditional-block interpreter and the entry
    points [render] and [renderTemplate].

    Conventions of the embedding.
    - A JavaScript string is a [string]; each character stands for one
      code unit in the range 0..255.
    - A JavaScript number is an IEEE-754 binary64 value, represented by
      [spec_float] at precision 53 and maximal exponent 1024.
    - An object used as a mapping is a [gmap string value] living in a
      heap indexed by locations, so that writes through one reference are
      seen through every alias of it.
    - A function that can throw returns a [result]; a function that also
      reads or writes objects runs in the monad [M].
    - The facilities of the JavaScript runtime that the source calls but
      does not define ([vm.Script] with [runInNewContext], the conversions
      between numbers and decimal strings, the optional [velocityjs]
      module) are variables of the section [Compiler].

    The source is read twice.  The section [Compiler] reads it with
    contexts that hold primitive values and the builtin helper, and with
    a script engine that returns a value or throws and does nothing else:
    the tokenizer, the patterns, the frame stack and the values are
    studied there.  The module [Effects] reads it with values that can be
    references to objects and with foreign code that reads and writes the
    heap: what depends on aliasing, or on what an evaluation changes, is
    stated there. *)

From Stdlib Require Import String Ascii ZArith Lia.
From Stdlib Require Import Floats.SpecFloat.
From stdpp Require Import gmap strings list fin_maps pretty.

Local Open Scope string_scope.
Local Open Scope list_scope.
Local Open Scope nat_scope.
Local Open Scope stdpp_scope.

(** ** Characters and strings *)

Module Chars.

Definition code (c : ascii) : nat := nat_of_ascii c.

Definition between (lo hi : nat) (c : ascii) : bool :=
  (lo <=? code c) && (code c <=? hi).

(** [\d] *)
Definition isDigit (c : ascii) : bool := between 48 57 c.

(** [[A-Za-z_]] *)
Definition isIdentStart (c : ascii) : bool :=
  between 65 90 c || between 97 122 c || (code c =? 95).

(** [\w], that is [[A-Za-z0-9_]] *)
Definition isWord (c : ascii) : bool := isIdentStart c || isDigit c.

(** The line terminators that [.] does not match. *)
Definition isLineTerminator (c : ascii) : bool :=
  (code c =? 10) || (code c =? 13).

(** [\s] restricted to the code units 0..255: tab, line feed, vertical
    tab, form feed, carriage return, space and no-break space. *)
Definition isSpace (c : ascii) : bool :=
  between 9 13 c || (code c =? 32) || (code c =? 160).

End Chars.

Module Str.

Fixpoint takeWhile (p : ascii -> bool) (s : string) : string :=
  match s with
  | String c s' => if p c then String c (takeWhile p s') else EmptyString
  | EmptyString => EmptyString
  end.

Fixpoint dropWhile (p : ascii -> bool) (s : string) : string :=
  match s with
  | String c s' => if p c then dropWhile p s' else s
  | EmptyString => EmptyString
  end.

Fixpoint forall_ (p : ascii -> bool) (s : string) : bool :=
  match s with
  | String c s' => p c && forall_ p s'
  | EmptyString => true
  end.

Fixpoint drop (n : nat) (s : string) : string :=
  match n, s with
  | S n', String _ s' => drop n' s'
  | _, _ => s
  end.

Fixpoint lastChar (s : string) : option ascii :=
  match s with
  | EmptyString => None
  | String c EmptyString => Some c
  | String _ s' => lastChar s'
  end.

Definition isEmpty (s : string) : bool :=
  match s with EmptyString => true | _ => false end.

Definition eqb (a b : string) : bool := bool_decide (a = b).

(** [s.slice(start, end_)] for [start <= end_ <= s.length]. *)
Definition slice (s : string) (start end_ : nat) : string :=
  substring start (end_ - start) s.

(** [s.startsWith(p, pos)] *)
Definition startsWith (s p : string) (pos : nat) : bool :=
  String.prefix p (drop pos s).

Fixpoint indexOf_scan (c : ascii) (s : string) (i : nat) : option nat :=
  match s with
  | EmptyString => None
  | String a s' => if Ascii.eqb a c then Some i else indexOf_scan c s' (S i)
  end.

(** [s.indexOf(c, from)]; [None] stands for [-1]. *)
Definition indexOf (s : string) (c : ascii) (from : nat) : option nat :=
  indexOf_scan c (drop from s) from.

(** [s.trim()] *)
Definition trim (s : string) : string :=
  String.rev (dropWhile Chars.isSpace (String.rev (dropWhile Chars.isSpace s))).

(** [s.replace(re, (_, name) => f(name))] where the global pattern [re]
    is a dollar sign, one character of [[A-Za-z_]] and then as many
    word characters as follow.  The scan goes left to right; at a match
    the replacement is emitted and the [skip] characters of the matched
    name are passed over. *)
Fixpoint replaceVariables_from (f : string -> string) (s : string) (skip : nat) : string :=
  match s with
  | EmptyString => EmptyString
  | String c rest =>
      match skip with
      | S k => replaceVariables_from f rest k
      | O =>
          if Ascii.eqb c "$" then
            match rest with
            | String c1 _ =>
                if Chars.isIdentStart c1 then
                  let name := takeWhile Chars.isWord rest in
                  f name +:+ replaceVariables_from f rest (String.length name)
                else String c (replaceVariables_from f rest 0)
            | EmptyString => String c EmptyString
            end
          else String c (replaceVariables_from f rest 0)
      end
  end.

Definition replaceVariables (f : string -> string) (s : string) : string :=
  replaceVariables_from f s 0.

End Str.

(** ** Numbers *)

Definition number : Type := spec_float.

Module Num.

Definition prec : Z := 53.
Definition emax : Z := 1024.

Definition NaN : number := S754_nan.
Definition Infinity : number := S754_infinity false.

(** The binary64 value of an integer literal. *)
Definition ofZ (z : Z) : number := binary_normalize prec emax z 0 false.

(** The operator [/] on numbers. *)
Definition div (x y : number) : number := SFdiv prec emax x y.

Definition neg (x : number) : number := SFopp x.

(** [Number.isNaN] *)
Definition isNaN (x : number) : bool :=
  match x with S754_nan => true | _ => false end.

Definition isFinite (x : number) : bool :=
  match x with S754_zero _ | S754_finite _ _ _ => true | _ => false end.

(** [Number.isInteger]: finite, and no bit of the mantissa lies below
    the binary point. *)
Definition isInteger (x : number) : bool :=
  match x with
  | S754_zero _ => true
  | S754_finite _ m e =>
      if (0 <=? e)%Z then true else (Z.pos m mod 2 ^ (- e) =? 0)%Z
  | _ => false
  end.

(** [Math.trunc]: the bits below the binary point are dropped and the
    sign is kept; NaN, the infinities and the zeros are returned as they
    are.  The remaining integer is shifted back to a 53-bit mantissa. *)
Definition trunc (x : number) : number :=
  match x with
  | S754_finite s m e =>
      if (0 <=? e)%Z then x
      else
        let q := (Z.pos m / 2 ^ (- e))%Z in
        if (q =? 0)%Z then S754_zero s
        else
          let d := Z.max 0 (prec - (Z.log2 q + 1)) in
          S754_finite s (Z.to_pos (q * 2 ^ d)) (- d)
  | _ => x
  end.

(** The integer a number denotes, when it denotes one. *)
Definition toZ (x : number) : option Z :=
  match x with
  | S754_zero _ => Some 0%Z
  | S754_finite s m e =>
      if (0 <=? e)%Z then Some (cond_Zopp s (Z.pos m * 2 ^ e))
      else if (Z.pos m mod 2 ^ (- e) =? 0)%Z
           then Some (cond_Zopp s (Z.pos m / 2 ^ (- e)))
           else None
  | _ => None
  end.

End Num.

(** ** Values, errors and results *)

(** The values a context holds in the section [Compiler]: the primitive
    values and [VInteger], the frozen helper object [BUILT_INS.Integer],
    the one that carries [parseInt].  References to other objects are
    values of the module [Effects]. *)
Inductive value : Type :=
  | VUndefined
  | VNull
  | VBoolean (b : bool)
  | VNumber (n : number)
  | VString (s : string)
  | VInteger.

(** What a piece of JavaScript outside the repository throws. *)
Definition exn : Type := string.

(** One constructor for each [throw] of the source; [EvaluationError] and
    [VelocityError] carry what the script, respectively the external
    renderer, threw. *)
Inductive error : Type :=
  | UnterminatedDirective (startIndex : nat)
  | UnableToParseSet (content : string)
  | ElseifWithoutIf
  | ElseWithoutIf
  | EndWithoutIf
  | UnclosedIf
  | EvaluationError (e : exn)
  | VelocityError (e : exn).

Inductive result (A : Type) : Type :=
  | Ok (a : A)
  | Throw (e : error).
Arguments Ok {A} a.
Arguments Throw {A} e.

Definition isStructural (e : error) : bool :=
  match e with
  | ElseifWithoutIf | ElseWithoutIf | EndWithoutIf | UnclosedIf => true
  | _ => false
  end.

(** ** Tokens *)

Inductive token : Type :=
  | TText (value : string)
  | TSet (content : string)
  | TIf (content : string)
  | TElseif (content : string)
  | TElse
  | TEnd.

(** ** The tokenizer *)

(** The loop of [readParenthesized]: [suffix] holds the characters of the
    template from index [i] on, [depth] the running nesting depth. *)
Fixpoint readParenthesized_from (template : string) (startIndex : nat)
    (suffix : string) (i : nat) (depth : Z) : result (string * nat) :=
  match suffix with
  | EmptyString => Throw (UnterminatedDirective startIndex)
  | String char suffix' =>
      if Ascii.eqb char "(" then
        readParenthesized_from template startIndex suffix' (S i) (depth + 1)
      else if Ascii.eqb char ")" then
        let depth := (depth - 1)%Z in
        if (depth =? 0)%Z then
          Ok (Str.slice template (startIndex + 1) i, i + 1)
        else readParenthesized_from template startIndex suffix' (S i) depth
      else readParenthesized_from template startIndex suffix' (S i) depth
  end.

Definition readParenthesized (template : string) (startIndex : nat)
    : result (string * nat) :=
  readParenthesized_from template startIndex
    (Str.drop startIndex template) startIndex 0.

Definition pushText (template : string) (tokens : list token)
    (start end_ : nat) : list token :=
  if start <? end_ then tokens ++ [TText (Str.slice template start end_)]
  else tokens.

(** The [while] loop of [tokenize].  Every round moves [cursor] forward,
    so [fuel] bounds the number of rounds; [None] means the fuel ran out
    (see [tokenize_loop_terminates]). *)
Fixpoint tokenize_loop (fuel : nat) (template : string)
    (tokens : list token) (cursor : nat) : option (result (list token)) :=
  match fuel with
  | O => None
  | S fuel =>
      if cursor <? String.length template then
        match Str.indexOf template "#" cursor with
        | None => Some (Ok (pushText template tokens cursor (String.length template)))
        | Some hashIndex =>
            let tokens := pushText template tokens cursor hashIndex in
            if Str.startsWith template "#set(" hashIndex then
              match readParenthesized template (hashIndex + 4) with
              | Throw e => Some (Throw e)
              | Ok (content, endIndex) =>
                  tokenize_loop fuel template (tokens ++ [TSet content]) endIndex
              end
            else if Str.startsWith template "#if(" hashIndex then
              match readParenthesized template (hashIndex + 3) with
              | Throw e => Some (Throw e)
              | Ok (content, endIndex) =>
                  tokenize_loop fuel template (tokens ++ [TIf content]) endIndex
              end
            else if Str.startsWith template "#elseif(" hashIndex then
              match readParenthesized template (hashIndex + 7) with
              | Throw e => Some (Throw e)
              | Ok (content, endIndex) =>
                  tokenize_loop fuel template (tokens ++ [TElseif content]) endIndex
              end
            else if Str.startsWith template "#else" hashIndex then
              tokenize_loop fuel template (tokens ++ [TElse]) (hashIndex + 5)
            else if Str.startsWith template "#end" hashIndex then
              tokenize_loop fuel template (tokens ++ [TEnd]) (hashIndex + 4)
            else
              tokenize_loop fuel template (tokens ++ [TText "#"]) (hashIndex + 1)
        end
      else Some (Ok tokens)
  end.

(** One round more than the template has characters is always enough. *)
Definition tokenize_run (template : string) : option (result (list token)) :=
  tokenize_loop (S (String.length template)) template [] 0.

Definition tokenize (template : string) : result (list token) :=
  match tokenize_run template with
  | Some r => r
  | None => Ok []
  end.

(** ** Objects, the heap and the monad of effects *)

Definition loc : Type := positive.

Abbreviation object := (gmap string value).
Abbreviation heap := (gmap loc object).

(** A computation reads and writes the heap and either returns or throws;
    the heap it leaves behind is kept in both cases. *)
Definition M (A : Type) : Type := heap -> result A * heap.

#[export] Instance M_ret : MRet M := fun A a h => (Ok a, h).

#[export] Instance M_bind : MBind M := fun A B f m h =>
  match m h with
  | (Ok a, h') => f a h'
  | (Throw e, h') => (Throw e, h')
  end.

Definition throw {A : Type} (e : error) : M A := fun h => (Throw e, h).

Definition lift {A : Type} (r : result A) : M A := fun h => (r, h).

(** A location that no object of the heap has. *)
Definition newLoc (h : heap) : loc := fresh (dom h).

(** A new object. *)
Definition alloc (o : object) : M loc :=
  fun h => (Ok (newLoc h), <[newLoc h := o]> h).

(** The own properties of the object at [l]. *)
Definition load (l : loc) : M object :=
  fun h => (Ok (default ∅ (h !! l)), h).

(** [l[key] = v] *)
Definition store (l : loc) (key : string) (v : value) : M unit :=
  fun h => (Ok tt, alter (insert key v) l h).

(** [Object.entries(l)] *)
Definition Object_entries (l : loc) : M (list (string * value)) :=
  o ← load l; mret (map_to_list o).

(** [for (const x of items) body(x)] *)
Fixpoint forEach {A : Type} (items : list A) (body : A -> M unit) : M unit :=
  match items with
  | [] => mret tt
  | x :: rest => body x ;; forEach rest body
  end.

(** [o[name]] on an object without a prototype, as the context that
    [createContext] builds is: an absent property reads as [undefined]. *)
Definition getProperty (o : object) (name : string) : value :=
  default VUndefined (o !! name).

(** [Object.prototype.hasOwnProperty.call(o, key)] *)
Definition hasOwnProperty (o : object) (key : string) : bool :=
  bool_decide (is_Some (o !! key)).

(** ** Frames *)

Record frame : Type := Frame {
  parentActive : bool;
  active : bool;
  branchSatisfied : bool
}.

Definition isFrameActive (frameStack : list frame) : bool :=
  forallb active frameStack.

(** What a call into JavaScript that is not part of the repository does:
    it returns a value or it throws. *)
Inductive completion : Type :=
  | Returns (v : value)
  | Raises (e : exn).

(** ** Patterns, script text and the frame stack

    The parts of the source that work on strings and on the array of
    frames alone. *)

(** The test of the anchored pattern of [coerceNumericLike]: an optional
    minus sign, one digit or more, and optionally a dot with one digit
    or more. *)
Definition isNumericLike (s : string) : bool :=
  let unsigned :=
    match s with
    | String c s' => if Ascii.eqb c "-" then s' else s
    | EmptyString => s
    end in
  let whole := Str.takeWhile Chars.isDigit unsigned in
  negb (Str.isEmpty whole) &&
  match Str.dropWhile Chars.isDigit unsigned with
  | EmptyString => true
  | String c fraction =>
      Ascii.eqb c "." && negb (Str.isEmpty fraction)
      && Str.forall_ Chars.isDigit fraction
  end.

Definition dquote : string := String "034"%char EmptyString.

(** The script text of [evaluateExpression]: every reference [$name]
    becomes a call of the resolver on the quoted name. *)
Definition replaced (rawExpression : string) : string :=
  Str.replaceVariables
    (fun name => "__resolve(" +:+ dquote +:+ name +:+ dquote +:+ ")")
    rawExpression.

(** The last group of the pattern of [#set], tried on what follows the
    equals sign: white space, then one character or more up to the end
    of the body, none of them a line terminator.  When the rest is white
    space only, backtracking leaves its last character to the group. *)
Definition matchSet_expression (rest : string) : option string :=
  let tail := Str.dropWhile Chars.isSpace rest in
  if Str.isEmpty tail then
    match Str.lastChar rest with
    | Some c =>
        if Chars.isLineTerminator c then None else Some (String c EmptyString)
    | None => None
    end
  else if Str.forall_ (fun c => negb (Chars.isLineTerminator c)) tail
       then Some tail
       else None.

(** [content.match(re)] for the anchored pattern of [#set]: white space,
    a dollar sign, a name, white space, an equals sign, white space and
    the expression.  The result is the name and the expression. *)
Definition matchSet (content : string) : option (string * string) :=
  match Str.dropWhile Chars.isSpace content with
  | String c afterDollar =>
      if Ascii.eqb c "$" then
        match afterDollar with
        | String c1 _ =>
            if Chars.isIdentStart c1 then
              let variableName := Str.takeWhile Chars.isWord afterDollar in
              let afterName := Str.dropWhile Chars.isWord afterDollar in
              match Str.dropWhile Chars.isSpace afterName with
              | String c2 rest =>
                  if Ascii.eqb c2 "=" then
                    expression ← matchSet_expression rest;
                    Some (variableName, expression)
                  else None
              | EmptyString => None
              end
            else None
        | EmptyString => None
        end
      else None
  | EmptyString => None
  end.

(** The top frame with its fields replaced: the source mutates the
    object [frameStack[frameStack.length - 1]] in place. *)
Definition setTop (frameStack : list frame) (f : frame) : list frame :=
  <[length frameStack - 1 := f]> frameStack.

(** ** A runtime for the examples

    The statements below hold for every runtime.  To run the model on
    concrete templates the examples use this one: its script engine is a
    table of the scripts that the examples evaluate, each with the value
    that JavaScript gives it, and its conversions cover the integers. *)

Module Sample.

Definition num (z : Z) : completion := Returns (VNumber (Num.ofZ z)).

Definition runInNewContext (code : string) (resolve : string -> value)
    : completion :=
  if Str.eqb code "0" then num 0
  else if Str.eqb code "1" then num 1
  else if Str.eqb code "10 / 3" then
    Returns (VNumber (Num.div (Num.ofZ 10) (Num.ofZ 3)))
  else if Str.eqb code "-7 / 2" then
    Returns (VNumber (Num.div (Num.neg (Num.ofZ 7)) (Num.ofZ 2)))
  else if Str.eqb code "1 / 0" then
    Returns (VNumber (Num.div (Num.ofZ 1) (Num.ofZ 0)))
  else if Str.eqb code "0 / 0" then
    Returns (VNumber (Num.div (Num.ofZ 0) (Num.ofZ 0)))
  else Raises ("SyntaxError: " +:+ code).

Fixpoint digitsToZ (acc : Z) (s : string) : Z :=
  match s with
  | EmptyString => acc
  | String c s' => digitsToZ (10 * acc + Z.of_nat (Chars.code c - 48)) s'
  end.

Definition isDigits (s : string) : bool :=
  negb (Str.isEmpty s) && Str.forall_ Chars.isDigit s.

(** [Number(s)] for the decimal integers; [NaN] for any other text. *)
Definition Number_ofString (s : string) : number :=
  match s with
  | String c s' =>
      if Ascii.eqb c "-" then
        if isDigits s' then Num.neg (Num.ofZ (digitsToZ 0 s')) else Num.NaN
      else if isDigits s then Num.ofZ (digitsToZ 0 s) else Num.NaN
  | EmptyString => Num.NaN
  end.

(** [String(n)] for NaN, the infinities and the integers below [2 ^ 53]
    in magnitude; the empty string for any other number. *)
Definition Number_toString (n : number) : string :=
  match n with
  | S754_nan => "NaN"
  | S754_infinity false => "Infinity"
  | S754_infinity true => "-Infinity"
  | _ =>
      match Num.toZ n with
      | Some z => if (Z.abs z <? 2 ^ 53)%Z then pretty z else ""
      | None => ""
      end
  end.

(** A heap for the examples: one object, the mapping of a caller. *)
Definition caller : loc := 1%positive.

Definition callerMapping : object :=
  <[ "x" := VNumber (Num.ofZ 2) ]>
    {[ "Integer" := VString "should be ignored" ]}.

Definition callerHeap : heap := {[ caller := callerMapping ]}.

End Sample.

(** ** The source read with references and effects

    The section [Compiler] further down reads the source with contexts
    that hold primitive values and with a script engine that returns a
    value and does nothing else.  The module [Effects] reads the same
    functions without these two restrictions.
    - A value can be a reference to an object of the heap, so that the
      context can hold an alias of an object of the caller.
    - Foreign code (a script that [vm] runs, the [toString] of an object
      that is converted to a string) reads and writes the heap.  All that
      it can observe or change is in the heap: the objects of the caller
      and the objects of the host realm, [Math] and [Number] among them,
      with the state behind [Math.random] and [Date].
    - An object is passed by reference: [evaluateExpression] and
      [interpolate] take the location of the context and read it when
      the source does.
    Two conventions remain.  The properties of an object are data
    properties, and the functions of the standard library that the
    renderer itself calls have their standard meaning. *)

Module Effects.

(** The values a context holds: the primitive values, the frozen helper
    [BUILT_INS.Integer], and the references to objects. *)
Inductive value : Type :=
  | VUndefined
  | VNull
  | VBoolean (b : bool)
  | VNumber (n : number)
  | VString (s : string)
  | VInteger
  | VObject (l : loc).

Abbreviation object := (gmap string value).
Abbreviation heap := (gmap loc object).

Definition M (A : Type) : Type := heap -> result A * heap.

#[export] Instance M_ret : MRet M := fun A a h => (Ok a, h).

#[export] Instance M_bind : MBind M := fun A B f m h =>
  match m h with
  | (Ok a, h') => f a h'
  | (Throw e, h') => (Throw e, h')
  end.

Definition throw {A : Type} (e : error) : M A := fun h => (Throw e, h).

Definition lift {A : Type} (r : result A) : M A := fun h => (r, h).

Definition newLoc (h : heap) : loc := fresh (dom h).

Definition alloc (o : object) : M loc :=
  fun h => (Ok (newLoc h), <[newLoc h := o]> h).

Definition load (l : loc) : M object :=
  fun h => (Ok (default ∅ (h !! l)), h).

(** [l[key] = v] *)
Definition store (l : loc) (key : string) (v : value) : M unit :=
  fun h => (Ok tt, alter (insert key v) l h).

(** [Object.entries(l)] *)
Definition Object_entries (l : loc) : M (list (string * value)) :=
  o ← load l; mret (map_to_list o).

Fixpoint forEach {A : Type} (items : list A) (body : A -> M unit) : M unit :=
  match items with
  | [] => mret tt
  | x :: rest => body x ;; forEach rest body
  end.

(** [o[name]] on an object without a prototype, as the context is: an
    absent property reads as [undefined]. *)
Definition getProperty (o : object) (name : string) : value :=
  default VUndefined (o !! name).

Definition hasOwnProperty (o : object) (key : string) : bool :=
  bool_decide (is_Some (o !! key)).

(** What a call of foreign code does: it returns or it throws, and it
    leaves a heap. *)
Inductive completion (A : Type) : Type :=
  | Returns (a : A)
  | Raises (e : exn).
Arguments Returns {A} a.
Arguments Raises {A} e.

(** A call of foreign code from the renderer.  What the foreign code
    throws leaves the renderer as it is, carried here by
    [EvaluationError]. *)
Definition foreign {A : Type} (call : heap -> completion A * heap) : M A :=
  fun h =>
    match call h with
    | (Returns a, h') => (Ok a, h')
    | (Raises e, h') => (Throw (EvaluationError e), h')
    end.

(** [s.replace(re, (_, name) => f(name))] for the pattern of the
    references, with a callback that has effects: the callbacks run in
    the order of the matches, from left to right. *)
Fixpoint replaceVariables_from (f : string -> M string) (s : string)
    (skip : nat) : M string :=
  match s with
  | EmptyString => mret EmptyString
  | String c rest =>
      match skip with
      | S k => replaceVariables_from f rest k
      | O =>
          if Ascii.eqb c "$" then
            match rest with
            | String c1 _ =>
                if Chars.isIdentStart c1 then
                  let name := Str.takeWhile Chars.isWord rest in
                  replacement ← f name;
                  tail ← replaceVariables_from f rest (String.length name);
                  mret (replacement +:+ tail)
                else
                  tail ← replaceVariables_from f rest 0;
                  mret (String c tail)
            | EmptyString => mret (String c EmptyString)
            end
          else
            tail ← replaceVariables_from f rest 0;
            mret (String c tail)
      end
  end.

Definition replaceVariables (f : string -> M string) (s : string) : M string :=
  replaceVariables_from f s 0.

Section Compiler.

(** [new vm.Script(code).runInNewContext({ __resolve, Math, Number,
    parseInt })]: the script text, the resolver that the script may
    call, which reads the context in the heap of the moment, and the
    heap in which the script starts. *)
Variable runInNewContext :
  string -> (heap -> string -> value) -> heap -> completion value * heap.

(** [String(o)] on an object: the conversion calls the [toString] and
    [valueOf] of the object. *)
Variable Object_toString : loc -> heap -> completion string * heap.

(** [Number(s)] on a string and [String(n)] on a number. *)
Variable Number_ofString : string -> number.
Variable Number_toString : number -> string.

Definition BUILT_INS : object := {[ "Integer" := VInteger ]}.

Definition normalizeValue (v : value) : value :=
  match v with
  | VNumber n => if Num.isInteger n then v else VNumber (Num.trunc n)
  | _ => v
  end.

Definition coerceNumericLike (v : value) : value :=
  match v with
  | VNumber _ => v
  | VString s =>
      let trimmed := Str.trim s in
      if negb (Str.isEmpty trimmed) && isNumericLike trimmed then
        let numeric := Number_ofString trimmed in
        if Num.isNaN numeric then v else VNumber numeric
      else v
  | _ => v
  end.

Definition createContext (userContext : option loc) : M loc :=
  userContext ← match userContext with
                | Some l => mret l
                | None => alloc ∅
                end;
  context ← alloc ∅;
  forEach (map_to_list BUILT_INS)
    (fun '(key, helper) => store context key helper) ;;
  entries ← Object_entries userContext;
  forEach entries
    (fun '(key, v) =>
       if hasOwnProperty BUILT_INS key then mret tt
       else store context key v) ;;
  mret context.

(** The resolver of [evaluateExpression]: it reads the property of
    the context at the time of the call. *)
Definition resolve (context : loc) (h : heap) (name : string) : value :=
  coerceNumericLike (getProperty (default ∅ (h !! context)) name).

Definition evaluateExpression (rawExpression : string) (context : loc)
    : M value :=
  foreign (runInNewContext (replaced rawExpression) (resolve context)).

(** [String(v)] *)
Definition String_ (v : value) : M string :=
  match v with
  | VUndefined => mret "undefined"
  | VNull => mret "null"
  | VBoolean true => mret "true"
  | VBoolean false => mret "false"
  | VNumber n => mret (Number_toString n)
  | VString s => mret s
  | VInteger => mret "[object Object]"
  | VObject l => foreign (Object_toString l)
  end.

(** [Boolean(v)] *)
Definition Boolean_ (v : value) : bool :=
  match v with
  | VUndefined | VNull => false
  | VBoolean b => b
  | VNumber (S754_zero _) | VNumber S754_nan => false
  | VNumber _ => true
  | VString s => negb (Str.isEmpty s)
  | VInteger | VObject _ => true
  end.

Definition interpolate (text : string) (context : loc) : M string :=
  replaceVariables
    (fun name =>
       ctx ← load context;
       match getProperty ctx name with
       | VUndefined | VNull => mret ""
       | v => String_ v
       end)
    text.

(** One round of the [for] loop of [render]. *)
Definition renderToken (context : loc) (t : token)
    (frameStack : list frame) (output : list string)
    : M (list frame * list string) :=
  match t with
  | TText value =>
      if isFrameActive frameStack then
        text ← interpolate value context;
        mret (frameStack, output ++ [text])
      else mret (frameStack, output)
  | TSet content =>
      if negb (isFrameActive frameStack) then mret (frameStack, output)
      else
        match matchSet content with
        | None => throw (UnableToParseSet content)
        | Some (variableName, expression) =>
            if negb (hasOwnProperty BUILT_INS variableName) then
              v ← evaluateExpression expression context;
              store context variableName (normalizeValue v) ;;
              mret (frameStack, output)
            else mret (frameStack, output)
        end
  | TIf content =>
      let parentActive := isFrameActive frameStack in
      conditionMet ←
        (if parentActive then
           v ← evaluateExpression content context;
           mret (Boolean_ v)
         else mret false);
      mret (frameStack ++ [Frame parentActive
                             (conditionMet && parentActive)
                             (conditionMet && parentActive)],
            output)
  | TElseif content =>
      match last frameStack with
      | None => throw ElseifWithoutIf
      | Some frame =>
          if negb (parentActive frame) then
            mret (setTop frameStack
                    (Frame (parentActive frame) false (branchSatisfied frame)),
                  output)
          else if branchSatisfied frame then
            mret (setTop frameStack
                    (Frame (parentActive frame) false (branchSatisfied frame)),
                  output)
          else
            v ← evaluateExpression content context;
            let conditionMet := Boolean_ v in
            mret (setTop frameStack
                    (Frame (parentActive frame) conditionMet conditionMet),
                  output)
      end
  | TElse =>
      match last frameStack with
      | None => throw ElseWithoutIf
      | Some frame =>
          let shouldActivate :=
            parentActive frame && negb (branchSatisfied frame) in
          mret (setTop frameStack
                  (Frame (parentActive frame) shouldActivate
                     (branchSatisfied frame || shouldActivate)),
                output)
      end
  | TEnd =>
      match last frameStack with
      | None => throw EndWithoutIf
      | Some _ => mret (removelast frameStack, output)
      end
  end.

(** [for (const token of tokens) ...] *)
Fixpoint renderTokens (context : loc) (tokens : list token)
    (frameStack : list frame) (output : list string)
    : M (list frame * list string) :=
  match tokens with
  | [] => mret (frameStack, output)
  | t :: rest =>
      '(frameStack, output) ← renderToken context t frameStack output;
      renderTokens context rest frameStack output
  end.

Definition render (template : string) (userContext : option loc) : M string :=
  context ← createContext userContext;
  tokens ← lift (tokenize template);
  '(frameStack, output) ← renderTokens context tokens [] [];
  if 0 <? length frameStack then throw UnclosedIf
  else mret (String.concat "" output).

(** *** Notions used in the statements *)

(** The value is a reference to an object of [P]. *)
Definition refersInto (P : gset loc) (v : value) : Prop :=
  match v with
  | VObject l => l ∈ P
  | _ => False
  end.

(** No object outside [P] holds a reference to an object of [P]. *)
Definition outOfReach (P : gset loc) (h : heap) : Prop :=
  forall (l : loc) (o : object) (key : string) (v : value),
    h !! l = Some o -> l ∉ P -> o !! key = Some v -> ~ refersInto P v.

(** The objects of [P] exist and are out of reach. *)
Definition sealed (P : gset loc) (h : heap) : Prop :=
  (forall l : loc, l ∈ P -> is_Some (h !! l)) /\ outOfReach P h.

(** The objects of [P] are in [h'] what they are in [h]. *)
Definition unchanged (P : gset loc) (h h' : heap) : Prop :=
  forall l : loc, l ∈ P -> h' !! l = h !! l.

(** The object holds no reference to an object of [P]. *)
Definition holdsNoneOf (P : gset loc) (o : object) : Prop :=
  forall (key : string) (v : value), o !! key = Some v -> ~ refersInto P v.

(** The objects of [P] are sealed in [h], and they are what they were
    in [h0]. *)
Definition intact (P : gset loc) (h0 h : heap) : Prop :=
  sealed P h /\ unchanged P h0 h.

(** Foreign code is confined to what it can reach.  [hostRoots] are
    the objects of the host realm that every script can name.  When
    the objects of [P] are none of these, no object outside [P] refers
    to one of them, and the renderer hands over no reference to one of
    them, then foreign code leaves the objects of [P] as they are,
    stores no reference to them and returns none. *)
Definition confined (hostRoots : gset loc) : Prop :=
  forall (P : gset loc) (h : heap),
    P ## hostRoots -> sealed P h ->
    (forall (code : string) (resolver : heap -> string -> value),
        (forall (h1 : heap) (name : string),
            sealed P h1 -> ~ refersInto P (resolver h1 name)) ->
        sealed P (runInNewContext code resolver h).2
        /\ unchanged P h (runInNewContext code resolver h).2
        /\ forall v : value,
             (runInNewContext code resolver h).1 = Returns v ->
             ~ refersInto P v)
    /\ (forall l : loc,
          l ∉ P ->
          sealed P (Object_toString l h).2
          /\ unchanged P h (Object_toString l h).2).

(** A computation that keeps the property [I] of the heap and returns
    only values with the property [Q]. *)
Definition keeps {A : Type} (I : heap -> Prop) (m : M A) (Q : A -> Prop)
    : Prop :=
  forall h : heap,
    I h -> I (m h).2 /\ forall a : A, (m h).1 = Ok a -> Q a.

(** The outcome of a run, with the frames [under] put back below the
    frames that the run left. *)
Definition onTopOf (under : list frame)
    (outcome : result (list frame * list string) * heap)
    : result (list frame * list string) * heap :=
  match outcome with
  | (Ok (frameStack, output), h) => (Ok (under ++ frameStack, output), h)
  | (Throw e, h) => (Throw e, h)
  end.

End Compiler.

(** *** A runtime for the examples

    The host realm is one object, [Math].  The script engine is a table
    of the scripts that the examples evaluate, each with what JavaScript
    does for it: two of them write to [Math], one writes to the object
    that the resolver returns for [self]. *)

Module Sample.

Definition Math : loc := 1%positive.

Definition hostRoots : gset loc := {[ Math ]}.

Definition num (z : Z) : value := VNumber (Num.ofZ z).

Definition runInNewContext (code : string)
    (resolver : heap -> string -> value) (h : heap)
    : completion value * heap :=
  if Str.eqb code "0" then (Returns (num 0), h)
  else if Str.eqb code "1" then (Returns (num 1), h)
  else if Str.eqb code "Math.n" then
    (Returns (getProperty (default ∅ (h !! Math)) "n"), h)
  else if Str.eqb code "Math.n = 0" then
    (Returns (num 0), alter (insert "n" (num 0)) Math h)
  else if Str.eqb code "Math.n = 1" then
    (Returns (num 1), alter (insert "n" (num 1)) Math h)
  else if Str.eqb code
            ("__resolve(" +:+ dquote +:+ "self" +:+ dquote +:+ ").x = 99")
  then
    match resolver h "self" with
    | VObject l => (Returns (num 99), alter (insert "x" (num 99)) l h)
    | VUndefined =>
        (Raises "TypeError: Cannot set properties of undefined", h)
    | VNull => (Raises "TypeError: Cannot set properties of null", h)
    | _ => (Returns (num 99), h)
    end
  else (Raises ("SyntaxError: " +:+ code), h).

Definition Object_toString (l : loc) (h : heap) : completion string * heap :=
  (Returns "[object Object]", h).

(** The conversions of the numbers are those of the first runtime. *)
Definition Number_ofString : string -> number := Sample.Number_ofString.
Definition Number_toString : number -> string := Sample.Number_toString.

(** Two heaps: in each the host object and the mapping of a caller.
    The first mapping holds a number, the second a reference to
    itself. *)
Definition caller : loc := 2%positive.

Definition callerMapping : object := {[ "x" := num 2 ]}.

Definition callerHeap : heap := <[ caller := callerMapping ]> {[ Math := ∅ ]}.

Definition selfMapping : object := {[ "self" := VObject caller ]}.

Definition selfHeap : heap := <[ caller := selfMapping ]> {[ Math := ∅ ]}.

End Sample.

End Effects.

(** ** The compiler *)

Section Compiler.

(** [new vm.Script(code).runInNewContext({ __resolve, Math, Number,
    parseInt })]: the script text and the resolver it may call.  In
    this section a script returns a value or throws, and changes
    nothing; the module [Effects] has the scripts that write. *)
Variable runInNewContext : string -> (string -> value) -> completion.

(** [Number(s)] on a string and [String(n)] on a number. *)
Variable Number_ofString : string -> number.
Variable Number_toString : number -> string.

(** The module-level constant [velocityEngine]: [None] when [velocityjs]
    is not installed, otherwise its [render] method. *)
Variable velocityEngine : option (string -> object -> completion).

Definition BUILT_INS : object := {[ "Integer" := VInteger ]}.

Definition normalizeValue (v : value) : value :=
  match v with
  | VNumber n => if Num.isInteger n then v else VNumber (Num.trunc n)
  | _ => v
  end.

Definition coerceNumericLike (v : value) : value :=
  match v with
  | VNumber _ => v
  | VString s =>
      let trimmed := Str.trim s in
      if negb (Str.isEmpty trimmed) && isNumericLike trimmed then
        let numeric := Number_ofString trimmed in
        if Num.isNaN numeric then v else VNumber numeric
      else v
  | _ => v
  end.

Definition createContext (userContext : option loc) : M loc :=
  userContext ← match userContext with
                | Some l => mret l
                | None => alloc ∅
                end;
  context ← alloc ∅;
  forEach (map_to_list BUILT_INS)
    (fun '(key, helper) => store context key helper) ;;
  entries ← Object_entries userContext;
  forEach entries
    (fun '(key, v) =>
       if hasOwnProperty BUILT_INS key then mret tt
       else store context key v) ;;
  mret context.

(** The resolver of [evaluateExpression]. *)
Definition resolve (context : object) (name : string) : value :=
  coerceNumericLike (getProperty context name).

Definition evaluateExpression (rawExpression : string) (context : object)
    : result value :=
  match runInNewContext (replaced rawExpression) (resolve context) with
  | Returns v => Ok v
  | Raises e => Throw (EvaluationError e)
  end.

(** [String(v)] *)
Definition String_ (v : value) : string :=
  match v with
  | VUndefined => "undefined"
  | VNull => "null"
  | VBoolean true => "true"
  | VBoolean false => "false"
  | VNumber n => Number_toString n
  | VString s => s
  | VInteger => "[object Object]"
  end.

(** [Boolean(v)] *)
Definition Boolean_ (v : value) : bool :=
  match v with
  | VUndefined | VNull => false
  | VBoolean b => b
  | VNumber (S754_zero _) | VNumber S754_nan => false
  | VNumber _ => true
  | VString s => negb (Str.isEmpty s)
  | VInteger => true
  end.

Definition interpolate (text : string) (context : object) : string :=
  Str.replaceVariables
    (fun name =>
       match getProperty context name with
       | VUndefined | VNull => ""
       | v => String_ v
       end)
    text.

(** One round of the [for] loop of [render]: the [switch] on the type
    of the token.  [frameStack] and [output] are the two local arrays. *)
Definition renderToken (context : loc) (t : token)
    (frameStack : list frame) (output : list string)
    : M (list frame * list string) :=
  match t with
  | TText value =>
      if isFrameActive frameStack then
        ctx ← load context;
        mret (frameStack, output ++ [interpolate value ctx])
      else mret (frameStack, output)
  | TSet content =>
      if negb (isFrameActive frameStack) then mret (frameStack, output)
      else
        match matchSet content with
        | None => throw (UnableToParseSet content)
        | Some (variableName, expression) =>
            if negb (hasOwnProperty BUILT_INS variableName) then
              ctx ← load context;
              v ← lift (evaluateExpression expression ctx);
              store context variableName (normalizeValue v) ;;
              mret (frameStack, output)
            else mret (frameStack, output)
        end
  | TIf content =>
      let parentActive := isFrameActive frameStack in
      conditionMet ←
        (if parentActive then
           ctx ← load context;
           v ← lift (evaluateExpression content ctx);
           mret (Boolean_ v)
         else mret false);
      mret (frameStack ++ [Frame parentActive
                             (conditionMet && parentActive)
                             (conditionMet && parentActive)],
            output)
  | TElseif content =>
      match last frameStack with
      | None => throw ElseifWithoutIf
      | Some frame =>
          if negb (parentActive frame) then
            mret (setTop frameStack
                    (Frame (parentActive frame) false (branchSatisfied frame)),
                  output)
          else if branchSatisfied frame then
            mret (setTop frameStack
                    (Frame (parentActive frame) false (branchSatisfied frame)),
                  output)
          else
            ctx ← load context;
            v ← lift (evaluateExpression content ctx);
            let conditionMet := Boolean_ v in
            mret (setTop frameStack
                    (Frame (parentActive frame) conditionMet conditionMet),
                  output)
      end
  | TElse =>
      match last frameStack with
      | None => throw ElseWithoutIf
      | Some frame =>
          let shouldActivate :=
            parentActive frame && negb (branchSatisfied frame) in
          mret (setTop frameStack
                  (Frame (parentActive frame) shouldActivate
                     (branchSatisfied frame || shouldActivate)),
                output)
      end
  | TEnd =>
      match last frameStack with
      | None => throw EndWithoutIf
      | Some _ => mret (removelast frameStack, output)
      end
  end.

(** [for (const token of tokens) ...] *)
Fixpoint renderTokens (context : loc) (tokens : list token)
    (frameStack : list frame) (output : list string)
    : M (list frame * list string) :=
  match tokens with
  | [] => mret (frameStack, output)
  | t :: rest =>
      '(frameStack, output) ← renderToken context t frameStack output;
      renderTokens context rest frameStack output
  end.

Definition render (template : string) (userContext : option loc) : M string :=
  context ← createContext userContext;
  tokens ← lift (tokenize template);
  '(frameStack, output) ← renderTokens context tokens [] [];
  if 0 <? length frameStack then throw UnclosedIf
  else mret (String.concat "" output).

Definition renderWithVelocity (template : string) (userContext : option loc)
    : M value :=
  match velocityEngine with
  | None => mret VNull
  | Some velocityRender =>
      context ← createContext userContext;
      ctx ← load context;
      match velocityRender template ctx with
      | Returns v => mret v
      | Raises e => throw (VelocityError e)
      end
  end.

Definition renderTemplate (template : string) (userContext : option loc)
    (preferVelocity : bool) : M value :=
  let builtin := s ← render template userContext; mret (VString s) in
  if preferVelocity then
    rendered ← renderWithVelocity template userContext;
    match rendered with
    | VNull | VUndefined => builtin
    | _ => mret rendered
    end
  else builtin.

(** ** Notions used in the statements *)

(** What the second loop of [createContext] makes of the object [o]. *)
Definition mergeEntries (entries : list (string * value)) (o : object) : object :=
  foldl (fun o '(key, v) =>
           if hasOwnProperty BUILT_INS key then o else <[key := v]> o)
        o entries.

(** The mapping the caller passed, or the empty object that the default
    parameter [userContext = {}] creates. *)
Definition defaultUser (userContext : option loc) (h : heap) : loc * heap :=
  match userContext with
  | Some l => (l, h)
  | None => (newLoc h, <[newLoc h := ∅]> h)
  end.

(** The context built from the own properties [user] of the caller's
    mapping. *)
Definition contextOf (user : object) : object :=
  mergeEntries (map_to_list user) BUILT_INS.

(** The object at [c] binds [Integer] to the builtin helper. *)
Definition holdsInteger (c : loc) (h : heap) : Prop :=
  exists o : object, h !! c = Some o /\ o !! "Integer" = Some VInteger.

(** A computation that keeps the property [P] of the heap. *)
Definition preserves {A : Type} (P : heap -> Prop) (m : M A) : Prop :=
  forall h : heap, P h -> P (m h).2.

(** The structural error a token raises when the frame stack is empty. *)
Definition underflow (t : token) : option error :=
  match t with
  | TElseif _ => Some ElseifWithoutIf
  | TElse => Some ElseWithoutIf
  | TEnd => Some EndWithoutIf
  | _ => None
  end.

(** The tokens [#if], [#elseif] and [#else] open a branch; the last two
    are the later branches of a chain. *)
Definition isBranch (t : token) : bool :=
  match t with
  | TIf _ | TElseif _ | TElse => true
  | _ => false
  end.

Definition isLaterBranch (t : token) : bool :=
  match t with
  | TElseif _ | TElse => true
  | _ => false
  end.

(** The tokens that may lie between two branches of one chain: every
    [#if] among them is closed by its [#end], and none of them closes
    the chain.  [depth] counts the blocks that are open inside. *)
Fixpoint insideChain (depth : nat) (tokens : list token) : bool :=
  match tokens with
  | [] => depth =? 0
  | TIf _ :: rest => insideChain (S depth) rest
  | TEnd :: rest =>
      match depth with
      | O => false
      | S d => insideChain d rest
      end
  | _ :: rest => insideChain depth rest
  end.

(** How one step can change the frame stack. *)
Definition stepShape (t : token) (before after : list frame) : Prop :=
  match t with
  | TText _ | TSet _ => after = before
  | TIf _ =>
      exists pushed : frame,
        after = before ++ [pushed]
        /\ (active pushed = true -> branchSatisfied pushed = true)
  | TElseif _ | TElse =>
      exists (below : list frame) (top top' : frame),
        before = below ++ [top] /\ after = below ++ [top']
        /\ parentActive top' = parentActive top
        /\ (active top' = true -> branchSatisfied top' = true)
        /\ (branchSatisfied top = true ->
            active top' = false /\ branchSatisfied top' = true)
  | TEnd => exists top : frame, before = after ++ [top]
  end.

(** [stored] is [n] with its fractional part dropped: [n] is finite, its
    value is the mantissa over a power of two, and [stored] denotes the
    quotient of that division rounded toward zero. *)
Definition truncatedTowardZero (n stored : number) : Prop :=
  match n with
  | S754_finite s m e =>
      Num.toZ stored = Some (Z.quot (cond_Zopp s (Z.pos m)) (2 ^ (- e)))
  | _ => False
  end.

(** Tokens that stay inside the blocks they open: an [#end], [#elseif]
    or [#else] among them belongs to an [#if] among them.  [depth]
    counts the blocks opened so far and not yet closed. *)
Fixpoint staysInside (depth : nat) (tokens : list token) : bool :=
  match tokens with
  | [] => true
  | TIf _ :: rest => staysInside (S depth) rest
  | TEnd :: rest =>
      match depth with
      | O => false
      | S d => staysInside d rest
      end
  | TElseif _ :: rest | TElse :: rest =>
      match depth with
      | O => false
      | S _ => staysInside depth rest
      end
  | _ :: rest => staysInside depth rest
  end.

(** The frame of a block that was opened in an inactive scope. *)
Definition skippedFrame : frame := Frame false false false.

(** The blocks that the tokens open minus the blocks they close. *)
Fixpoint depthChange (tokens : list token) : Z :=
  match tokens with
  | [] => 0
  | TIf _ :: rest => depthChange rest + 1
  | TEnd :: rest => depthChange rest - 1
  | _ :: rest => depthChange rest
  end.

(** One character or more, all of them decimal digits. *)
Definition digits1 (s : string) : Prop :=
  s <> EmptyString /\ Str.forall_ Chars.isDigit s = true.

(** The texts of the pattern of [coerceNumericLike]: an optional minus
    sign, digits, and optionally a dot followed by digits. *)
Definition decimalText (s : string) : Prop :=
  exists sign whole fraction : string,
    s = sign +:+ whole +:+ fraction
    /\ (sign = "" \/ sign = "-")
    /\ digits1 whole
    /\ (fraction = ""
        \/ exists ds : string, fraction = "." +:+ ds /\ digits1 ds).

(** The head of a string fails [p], or the string is empty. *)
Definition stopsAt (p : ascii -> bool) (s : string) : Prop :=
  match s with
  | EmptyString => True
  | String c _ => p c = false
  end.

(** A name: a letter or an underscore, then word characters. *)
Definition identifier (name : string) : Prop :=
  exists (c : ascii) (rest : string),
    name = String c rest
    /\ Chars.isIdentStart c = true
    /\ Str.forall_ Chars.isWord rest = true.

(** White space only. *)
Definition blank (s : string) : Prop :=
  Str.forall_ Chars.isSpace s = true.

(** One character or more, none of them a line terminator. *)
Definition singleLine (s : string) : Prop :=
  s <> EmptyString
  /\ Str.forall_ (fun c => negb (Chars.isLineTerminator c)) s = true.

(** The text that [interpolate] puts in the place of a reference to a
    property whose value is [v]. *)
Definition shown (v : value) : string :=
  match v with
  | VUndefined | VNull => ""
  | _ => String_ v
  end.

(** The text a token was read from. *)
Definition tokenText (t : token) : string :=
  match t with
  | TText value => value
  | TSet content => "#set(" +:+ content +:+ ")"
  | TIf content => "#if(" +:+ content +:+ ")"
  | TElseif content => "#elseif(" +:+ content +:+ ")"
  | TElse => "#else"
  | TEnd => "#end"
  end.

Fixpoint sourceOf (tokens : list token) : string :=
  match tokens with
  | [] => ""
  | t :: rest => tokenText t +:+ sourceOf rest
  end.

(** A text token holds one character at least. *)
Definition fullText (t : token) : Prop :=
  match t with
  | TText value => value <> ""
  | _ => True
  end.

(** Parentheses that are well nested: read from the left, [depth] of
    them are open at the start, none is closed that is not open, and
    none is open at the end. *)
Fixpoint balancedFrom (depth : nat) (s : string) : bool :=
  match s with
  | EmptyString => depth =? 0
  | String c rest =>
      if Ascii.eqb c "(" then balancedFrom (S depth) rest
      else if Ascii.eqb c ")" then
        match depth with
        | O => false
        | S d => balancedFrom d rest
        end
      else balancedFrom depth rest
  end.

Definition wellNested (s : string) : Prop := balancedFrom 0 s = true.

(** The own properties of the mapping that a caller passes: those of
    the object it refers to, or none when it passes nothing. *)
Definition mappingOf (userContext : option loc) (h : heap) : option object :=
  match userContext with
  | Some l => h !! l
  | None => Some ∅
  end.

(** The result of [renderTemplate] that stands for the string [r] of the
    builtin renderer. *)
Definition asValue (r : result string) : result value :=
  match r with
  | Ok s => Ok (VString s)
  | Throw e => Throw e
  end.

(** The outcome of a run, with the frames [under] put back below the
    frames that the run left. *)
Definition onTopOf (under : list frame)
    (outcome : result (list frame * list string) * heap)
    : result (list frame * list string) * heap :=
  match outcome with
  | (Ok (frameStack, output), h) => (Ok (under ++ frameStack, output), h)
  | (Throw e, h) => (Throw e, h)
  end.

(** A value that is not a number with a fractional part: any value that
    is not a number, an integer, NaN or an infinity. *)
Definition integral (v : value) : Prop :=
  match v with
  | VNumber n => Num.isInteger n = true \/ Num.isFinite n = false
  | _ => True
  end.

Definition integralObject (o : object) : Prop :=
  forall (key : string) (v : value), o !! key = Some v -> integral v.

(** The object at [c] holds no number with a fractional part. *)
Definition holdsIntegral (c : loc) (h : heap) : Prop :=
  exists o : object, h !! c = Some o /\ integralObject o.

(** ** The tokenizer always terminates *)

Lemma indexOf_scan_ge (c : ascii) (s : string) (i j : nat) :
  Str.indexOf_scan c s i = Some j -> i <= j.
Proof.
  revert i. induction s as [|a s IH]; intros i Hs; simpl in Hs; [discriminate|].
  destruct (Ascii.eqb a c).
  - injection Hs as <-. lia.
  - apply IH in Hs. lia.
Qed.

Lemma indexOf_ge (s : string) (c : ascii) (from j : nat) :
  Str.indexOf s c from = Some j -> from <= j.
Proof. apply indexOf_scan_ge. Qed.

Lemma readParenthesized_from_gt (template : string) (startIndex : nat)
    (suffix : string) (i : nat) (depth : Z) (content : string) (endIndex : nat) :
  readParenthesized_from template startIndex suffix i depth = Ok (content, endIndex) ->
  i < endIndex.
Proof.
  revert i depth. induction suffix as [|ch suffix IH]; intros i depth Hr;
    simpl in Hr; [discriminate|].
  destruct (Ascii.eqb ch "(").
  - apply IH in Hr. lia.
  - destruct (Ascii.eqb ch ")").
    + destruct (depth - 1 =? 0)%Z.
      * injection Hr as _ <-. lia.
      * apply IH in Hr. lia.
    + apply IH in Hr. lia.
Qed.

Lemma readParenthesized_gt (template : string) (startIndex : nat)
    (content : string) (endIndex : nat) :
  readParenthesized template startIndex = Ok (content, endIndex) ->
  startIndex < endIndex.
Proof. apply readParenthesized_from_gt. Qed.

Lemma tokenize_loop_terminates (template : string) (fuel : nat) :
  forall (tokens : list token) (cursor : nat),
    String.length template - cursor < fuel ->
    is_Some (tokenize_loop fuel template tokens cursor).
Proof.
  induction fuel as [|fuel IH]; intros tokens cursor Hfuel; [lia|].
  simpl. destruct (cursor <? String.length template) eqn:Hlt; [|eauto].
  apply Nat.ltb_lt in Hlt.
  destruct (Str.indexOf template "#" cursor) as [hashIndex|] eqn:Hidx; [|eauto].
  apply indexOf_ge in Hidx.
  repeat match goal with
  | |- is_Some (if ?b then _ else _) => destruct b
  | |- is_Some (match readParenthesized ?t ?i with _ => _ end) =>
      let H := fresh "Hread" in
      destruct (readParenthesized t i) as [[? ?]|] eqn:H;
      [apply readParenthesized_gt in H|eauto]
  end; apply IH; lia.
Qed.

Lemma tokenize_run_total (template : string) :
  tokenize_run template = Some (tokenize template).
Proof.
  unfold tokenize.
  destruct (tokenize_loop_terminates template (S (String.length template)) [] 0)
    as [r Hr]; [lia|].
  unfold tokenize_run. now rewrite Hr.
Qed.

(** ** Reasoning in the monad *)

Lemma bind_Ok {A B : Type} (m : M A) (f : A -> M B) (h h' : heap) (a : A) :
  m h = (Ok a, h') -> (m ≫= f) h = f a h'.
Proof. intros Hm. unfold mbind, M_bind. now rewrite Hm. Qed.

Lemma bind_Throw {A B : Type} (m : M A) (f : A -> M B) (h h' : heap) (e : error) :
  m h = (Throw e, h') -> (m ≫= f) h = (Throw e, h').
Proof. intros Hm. unfold mbind, M_bind. now rewrite Hm. Qed.

(** ** The context builder *)

Lemma forEach_merge (context : loc) (entries : list (string * value)) (h : heap) :
  forEach entries
    (fun '(key, v) =>
       if hasOwnProperty BUILT_INS key then mret tt
       else store context key v) h
  = (Ok tt, alter (mergeEntries entries) context h).
Proof.
  revert h. induction entries as [|[key v] entries IH]; intros h; simpl.
  - f_equal. apply map_eq. intros l. rewrite lookup_alter.
    case_decide; [subst|done]. now destruct (h !! l).
  - destruct (hasOwnProperty BUILT_INS key) eqn:Hown.
    + erewrite bind_Ok by reflexivity. rewrite IH.
      unfold mergeEntries. simpl. now rewrite Hown.
    + erewrite bind_Ok by reflexivity. rewrite IH. f_equal.
      unfold mergeEntries. simpl. rewrite Hown.
      apply map_eq. intros l. rewrite !lookup_alter.
      case_decide; [subst|done]. rewrite decide_True by done.
      now destruct (h !! l).
Qed.

Lemma newLoc_fresh (h : heap) : h !! newLoc h = None.
Proof. unfold newLoc. apply not_elem_of_dom. apply is_fresh. Qed.

#[local] Opaque newLoc.

Lemma seedBuiltins (c : loc) (h : heap) :
  alter (insert "Integer" VInteger) c (<[c := ∅]> h) = <[c := BUILT_INS]> h.
Proof.
  apply map_eq. intros l. rewrite lookup_alter.
  destruct (decide (c = l)) as [->|Hne].
  - now rewrite !lookup_insert_eq.
  - now rewrite !lookup_insert_ne by done.
Qed.

Lemma createContext_body (u c : loc) (h : heap) :
  (forEach (map_to_list BUILT_INS)
     (fun '(key, helper) => store c key helper) ;;
   entries ← Object_entries u;
   forEach entries
     (fun '(key, v) =>
        if hasOwnProperty BUILT_INS key then mret tt
        else store c key v) ;;
   mret c) (<[c := ∅]> h)
  = (Ok c,
     <[c := mergeEntries
              (map_to_list (default ∅ (<[c := BUILT_INS]> h !! u)))
              BUILT_INS]> h).
Proof.
  assert (Hb : map_to_list BUILT_INS = [("Integer", VInteger)])
    by apply map_to_list_singleton.
  rewrite Hb. cbn [forEach].
  erewrite bind_Ok by (erewrite bind_Ok by reflexivity; reflexivity).
  unfold Object_entries.
  erewrite bind_Ok by (erewrite bind_Ok by reflexivity; reflexivity).
  erewrite bind_Ok by apply forEach_merge.
  unfold mret, M_ret. f_equal.
  rewrite seedBuiltins. apply map_eq. intros l. rewrite lookup_alter.
  destruct (decide (c = l)) as [->|Hne].
  - now rewrite !lookup_insert_eq.
  - now rewrite !lookup_insert_ne by done.
Qed.

Lemma createContext_eq (userContext : option loc) (h : heap) :
  createContext userContext h
  = (Ok (newLoc (defaultUser userContext h).2),
     <[newLoc (defaultUser userContext h).2
       := mergeEntries
            (map_to_list
               (default ∅
                  (<[newLoc (defaultUser userContext h).2 := BUILT_INS]>
                     (defaultUser userContext h).2
                   !! (defaultUser userContext h).1)))
            BUILT_INS]> (defaultUser userContext h).2).
Proof.
  unfold createContext.
  erewrite bind_Ok with (a := (defaultUser userContext h).1)
                        (h' := (defaultUser userContext h).2)
    by now destruct userContext.
  erewrite bind_Ok by reflexivity.
  apply createContext_body.
Qed.
Lemma hasOwnProperty_BUILT_INS (key : string) :
  hasOwnProperty BUILT_INS key = bool_decide (key = "Integer").
Proof.
  unfold hasOwnProperty, BUILT_INS. apply bool_decide_ext.
  rewrite lookup_singleton_is_Some. split; congruence.
Qed.

(** The loop never writes to the name of a builtin. *)
Lemma mergeEntries_builtin (entries : list (string * value)) (o : object)
    (key : string) :
  hasOwnProperty BUILT_INS key = true ->
  mergeEntries entries o !! key = o !! key.
Proof.
  intros Hkey. revert o. induction entries as [|[k v] entries IH]; intros o;
    [done|].
  unfold mergeEntries in *. simpl.
  destruct (hasOwnProperty BUILT_INS k) eqn:Hk; rewrite IH; [done|].
  apply lookup_insert_ne. congruence.
Qed.

(** Every other entry of the caller is copied. *)
Lemma mergeEntries_other (entries : list (string * value)) (o : object)
    (key : string) :
  NoDup entries.*1 ->
  hasOwnProperty BUILT_INS key = false ->
  mergeEntries entries o !! key
  = match (list_to_map entries : object) !! key with
    | Some v => Some v
    | None => o !! key
    end.
Proof.
  intros Hnodup Hkey. revert o.
  induction entries as [|[k v] entries IH]; intros o; [done|].
  rewrite fmap_cons in Hnodup. apply NoDup_cons in Hnodup as [Hk Hnodup].
  cbn [fst] in Hk.
  change (mergeEntries ((k, v) :: entries) o)
    with (mergeEntries entries
            (if hasOwnProperty BUILT_INS k then o else <[k := v]> o)).
  rewrite IH by done. cbn [list_to_map foldr uncurry fst snd].
  change (foldr (fun '(k0, v0) => <[k0 := v0]>) ∅ entries)
    with (list_to_map entries : object).
  destruct (decide (k = key)) as [->|Hne].
  - rewrite Hkey, !lookup_insert_eq.
    now rewrite (not_elem_of_list_to_map_1 entries key) by done.
  - rewrite (lookup_insert_ne _ k key) by done.
    destruct (list_to_map entries !! key); [done|].
    destruct (hasOwnProperty BUILT_INS k); [done|].
    now apply lookup_insert_ne.
Qed.

Lemma contextOf_Integer (user : object) :
  contextOf user !! "Integer" = Some VInteger.
Proof.
  unfold contextOf. rewrite mergeEntries_builtin.
  - apply lookup_singleton_eq.
  - now rewrite hasOwnProperty_BUILT_INS.
Qed.

Lemma contextOf_other (user : object) (key : string) :
  key <> "Integer" -> contextOf user !! key = user !! key.
Proof.
  intros Hkey. unfold contextOf. rewrite mergeEntries_other.
  - rewrite list_to_map_to_list. destruct (user !! key); [done|].
    now apply lookup_singleton_ne.
  - apply NoDup_fst_map_to_list.
  - rewrite hasOwnProperty_BUILT_INS. now apply bool_decide_eq_false.
Qed.

(** [createContext] returns a reference to a new object; the objects
    that were there before are as they were. *)
Lemma createContext_spec (userContext : option loc) (h : heap) :
  exists (context : loc) (h' : heap) (user : object),
    createContext userContext h = (Ok context, h')
    /\ h !! context = None
    /\ h' !! context = Some (contextOf user)
    /\ (forall l : loc, is_Some (h !! l) -> h' !! l = h !! l)
    /\ (forall (u : loc) (o : object),
          userContext = Some u -> h !! u = Some o -> user = o)
    /\ (userContext = None -> user = ∅).
Proof.
  pose proof (createContext_eq userContext h) as Heq.
  destruct userContext as [u|]; cbn [defaultUser fst snd] in Heq.
  - pose proof (newLoc_fresh h) as Hfresh.
    eexists _, _, (default ∅ (<[newLoc h := BUILT_INS]> h !! u)).
    split; [exact Heq|].
    split; [exact Hfresh|].
    split; [apply lookup_insert_eq|].
    split; [|split; [|done]].
    + intros l [o Hl]. apply lookup_insert_ne. congruence.
    + intros u' o [= <-] Hu.
      rewrite lookup_insert_ne by congruence. now rewrite Hu.
  - remember (newLoc h) as u eqn:Eu.
    remember (<[u := (∅ : object)]> h) as hu eqn:Ehu.
    pose proof (newLoc_fresh h) as Hu. rewrite <- Eu in Hu.
    pose proof (newLoc_fresh hu) as Hc.
    assert (Hne : newLoc hu <> u).
    { intros Heq'. rewrite Heq', Ehu, lookup_insert_eq in Hc. discriminate. }
    assert (Hc' : h !! newLoc hu = None).
    { clear Heq. subst hu. rewrite lookup_insert_ne in Hc by congruence.
      exact Hc. }
    assert (Huser : <[newLoc hu := BUILT_INS]> hu !! u = Some ∅).
    { rewrite lookup_insert_ne by exact Hne.
      rewrite Ehu. apply lookup_insert_eq. }
    rewrite Huser in Heq.
    eexists _, _, ∅.
    split; [exact Heq|].
    split; [exact Hc'|].
    split; [apply lookup_insert_eq|].
    split; [|split; [discriminate|reflexivity]].
    intros l [o Hl]. rewrite lookup_insert_ne by congruence.
    rewrite Ehu at 1. apply lookup_insert_ne. congruence.
Qed.

(** ** The builtin is never overwritten *)

Lemma preserves_pure {A : Type} (P : heap -> Prop) (m : M A) :
  (forall h, (m h).2 = h) -> preserves P m.
Proof. intros Hm h HP. now rewrite Hm. Qed.

Lemma preserves_bind {A B : Type} (P : heap -> Prop) (m : M A) (f : A -> M B) :
  preserves P m -> (forall a, preserves P (f a)) -> preserves P (m ≫= f).
Proof.
  intros Hm Hf h HP. unfold mbind, M_bind.
  specialize (Hm h HP). destruct (m h) as [[a|e] h1]; cbn [snd] in *.
  - now apply Hf.
  - exact Hm.
Qed.

Lemma preserves_store_other (c : loc) (key : string) (v : value) :
  hasOwnProperty BUILT_INS key = false ->
  preserves (holdsInteger c) (store c key v).
Proof.
  intros Hkey h (o & Ho & HI). exists (<[key := v]> o). split.
  - cbn [store snd]. now rewrite lookup_alter_eq, Ho.
  - rewrite lookup_insert_ne; [exact HI|].
    rewrite hasOwnProperty_BUILT_INS in Hkey.
    now apply bool_decide_eq_false in Hkey.
Qed.

Lemma renderToken_holdsInteger (context : loc) (t : token)
    (frameStack : list frame) (output : list string) :
  preserves (holdsInteger context) (renderToken context t frameStack output).
Proof.
  destruct t; cbn [renderToken];
    repeat first
      [ apply preserves_pure; reflexivity
      | apply preserves_store_other;
        match goal with
        | H : negb _ = true |- _ => now apply negb_true_iff in H
        end
      | apply preserves_bind; [|intros ?]
      | match goal with
        | |- preserves _ (if ?b then _ else _) =>
            let H := fresh "Hb" in destruct b eqn:H
        | |- preserves _ (match ?x with _ => _ end) => destruct x
        end ].
Qed.

Lemma renderTokens_holdsInteger (context : loc) (tokens : list token) :
  forall (frameStack : list frame) (output : list string),
    preserves (holdsInteger context)
      (renderTokens context tokens frameStack output).
Proof.
  induction tokens as [|t tokens IH]; intros frameStack output;
    cbn [renderTokens].
  - now apply preserves_pure.
  - apply preserves_bind; [apply renderToken_holdsInteger|].
    intros [fs out]. apply IH.
Qed.

(** ** Directives in an inactive scope *)

Ltac run_M :=
  unfold mbind, M_bind, mret, M_ret, throw, lift, load, store;
  cbn beta iota.

(** C10.  A [#set] met while the active predicate is false is a no-op:
    the step returns the frame stack, the output and the heap as they
    were, whatever the body is.  The body is not parsed: a body that
    does not have the shape of an assignment, and that raises the parse
    error when the directive is active, raises nothing here. *)
Theorem inactive_set_is_noop (context : loc) (content : string)
    (frameStack : list frame) (output : list string) (h : heap) :
  isFrameActive frameStack = false ->
  renderToken context (TSet content) frameStack output h
  = (Ok (frameStack, output), h)
  /\ (matchSet content = None ->
      forall activeStack : list frame,
        isFrameActive activeStack = true ->
        renderToken context (TSet content) activeStack output h
        = (Throw (UnableToParseSet content), h)).
Proof.
  intros Hinactive. split.
  - cbn [renderToken]. now rewrite Hinactive.
  - intros Hshape activeStack Hactive.
    cbn [renderToken]. now rewrite Hactive, Hshape.
Qed.


(** ** The builtin binding *)


(** ** Structural errors *)

Lemma setTop_snoc (below : list frame) (top f : frame) :
  setTop (below ++ [top]) f = below ++ [f].
Proof.
  unfold setTop. rewrite length_app. cbn [length].
  replace (length below + 1 - 1) with (length below + 0) by lia.
  now rewrite insert_app_r.
Qed.

Lemma renderTokens_app (context : loc) (pre post : list token) :
  forall (frameStack : list frame) (output : list string) (h : heap),
    renderTokens context (pre ++ post) frameStack output h
    = match renderTokens context pre frameStack output h with
      | (Ok (frameStack', output'), h') =>
          renderTokens context post frameStack' output' h'
      | (Throw e, h') => (Throw e, h')
      end.
Proof.
  induction pre as [|t pre IH]; intros frameStack output h; [reflexivity|].
  cbn [app renderTokens]. unfold mbind, M_bind.
  destruct (renderToken context t frameStack output h) as [[[fs out]|e] h1];
    [apply IH|reflexivity].
Qed.

(** With an empty stack, [#elseif], [#else] and [#end] throw. *)
Lemma renderToken_underflow (context : loc) (t : token) (e : error)
    (output : list string) (h : heap) :
  underflow t = Some e ->
  renderToken context t [] output h = (Throw e, h).
Proof. destruct t; intros [= <-]; reflexivity. Qed.

(** A single step throws a structural error in that case only. *)
Lemma renderToken_structural (context : loc) (t : token)
    (frameStack : list frame) (output : list string) (h h' : heap) (e : error) :
  renderToken context t frameStack output h = (Throw e, h') ->
  isStructural e = true ->
  frameStack = [] /\ underflow t = Some e.
Proof.
  intros Hstep He.
  assert (Heval : forall (c : string) (x : object) (e' : error),
             evaluateExpression c x = Throw e' -> isStructural e' = false).
  { intros c x e' Hev. unfold evaluateExpression in Hev.
    destruct (runInNewContext _ _); [discriminate|]. now injection Hev as <-. }
  destruct t; cbn [renderToken] in Hstep; revert Hstep; run_M.
  - destruct (isFrameActive frameStack); intros [=].
  - destruct (negb (isFrameActive frameStack)); [intros [=]|].
    destruct (matchSet content) as [[variableName expression]|].
    + destruct (negb (hasOwnProperty BUILT_INS variableName)); [|intros [=]].
      destruct (evaluateExpression _ _) eqn:Hev; intros [= <- <-].
      apply Heval in Hev. congruence.
    + intros [= <- <-]. discriminate.
  - destruct (isFrameActive frameStack); [|intros [=]].
    destruct (evaluateExpression _ _) eqn:Hev; intros [= <- <-].
    apply Heval in Hev. congruence.
  - destruct (last frameStack) as [top|] eqn:Hlast.
    + destruct (negb (parentActive top)); [intros [=]|].
      destruct (branchSatisfied top); [intros [=]|].
      destruct (evaluateExpression _ _) eqn:Hev; intros [= <- <-].
      apply Heval in Hev. congruence.
    + intros [= <- <-]. apply last_None in Hlast. now subst.
  - destruct (last frameStack) as [top|] eqn:Hlast; intros [= <- <-].
    apply last_None in Hlast. now subst.
  - destruct (last frameStack) as [top|] eqn:Hlast; intros [= <- <-].
    apply last_None in Hlast. now subst.
Qed.

(** The tokenizer throws nothing but the error of an unterminated
    directive. *)
Lemma readParenthesized_from_error (template : string) (startIndex : nat)
    (suffix : string) (i : nat) (depth : Z) (e : error) :
  readParenthesized_from template startIndex suffix i depth = Throw e ->
  e = UnterminatedDirective startIndex.
Proof.
  revert i depth. induction suffix as [|ch suffix IH]; intros i depth Hr;
    cbn [readParenthesized_from] in Hr; [now injection Hr|].
  destruct (Ascii.eqb ch "("); [now apply IH in Hr|].
  destruct (Ascii.eqb ch ")"); [|now apply IH in Hr].
  destruct (depth - 1 =? 0)%Z; [discriminate|now apply IH in Hr].
Qed.

Lemma tokenize_loop_error (template : string) (fuel : nat) (e : error) :
  forall (tokens : list token) (cursor : nat),
    tokenize_loop fuel template tokens cursor = Some (Throw e) ->
    exists i : nat, e = UnterminatedDirective i.
Proof.
  induction fuel as [|fuel IH]; intros tokens cursor Hloop; [discriminate|].
  cbn [tokenize_loop] in Hloop.
  destruct (cursor <? String.length template); [|discriminate].
  destruct (Str.indexOf template "#" cursor) as [hashIndex|]; [|discriminate].
  repeat match type of Hloop with
  | (if ?b then _ else _) = _ => destruct b
  | match readParenthesized ?t ?i with _ => _ end = _ =>
      let H := fresh "Hread" in
      destruct (readParenthesized t i) as [[? ?]|] eqn:H;
      [|injection Hloop as <-;
        apply readParenthesized_from_error in H; eauto]
  end; try (now apply IH in Hloop).
Qed.

Lemma tokenize_error (template : string) (e : error) :
  tokenize template = Throw e -> exists i : nat, e = UnterminatedDirective i.
Proof.
  intros Htok. pose proof (tokenize_run_total template) as Hrun.
  rewrite Htok in Hrun. now apply tokenize_loop_error in Hrun.
Qed.

(** The loop throws the structural error [e] exactly when it reaches,
    with an empty stack, a token that raises [e] there. *)
Lemma renderTokens_structural (context : loc) (tokens : list token) (e : error) :
  isStructural e = true ->
  forall (frameStack : list frame) (output : list string) (h : heap),
    (renderTokens context tokens frameStack output h).1 = Throw e
    <-> exists (pre : list token) (t : token) (post : list token)
               (output' : list string) (h' : heap),
          tokens = pre ++ t :: post
          /\ renderTokens context pre frameStack output h
             = (Ok ([], output'), h')
          /\ underflow t = Some e.
Proof.
  intros He frameStack output h. split.
  - revert frameStack output h.
    induction tokens as [|t tokens IH]; intros frameStack output h Hthrow;
      [discriminate|].
    cbn [renderTokens] in Hthrow. unfold mbind, M_bind in Hthrow.
    destruct (renderToken context t frameStack output h)
      as [[[fs1 out1]|e1] h1] eqn:Hstep.
    + destruct (IH _ _ _ Hthrow) as (pre & t' & post & out' & h' & -> & Hpre & Ht').
      exists (t :: pre), t', post, out', h'. split; [reflexivity|].
      split; [|exact Ht'].
      cbn [renderTokens]. unfold mbind, M_bind. now rewrite Hstep.
    + cbn [fst] in Hthrow. injection Hthrow as ->.
      destruct (renderToken_structural _ _ _ _ _ _ _ Hstep He) as [-> Ht].
      exists [], t, tokens, output, h.
      split; [reflexivity|]. split; [reflexivity|exact Ht].
  - intros (pre & t & post & out' & h' & -> & Hpre & Ht).
    rewrite renderTokens_app, Hpre. cbn [renderTokens].
    unfold mbind, M_bind. now rewrite (renderToken_underflow _ _ _ _ _ Ht).
Qed.

(** C7.  [render] fails with a structural error exactly when the frame
    stack is misused.  It throws the error of an [#elseif], [#else] or
    [#end] exactly when the loop reaches such a token with an empty
    stack, and it throws the error of an unclosed block exactly when
    the loop consumes every token and leaves a stack that is not
    empty. *)
Theorem render_structural_error_iff (template : string)
    (userContext : option loc) (h : heap) (e : error) :
  isStructural e = true ->
  ((render template userContext h).1 = Throw e
   <-> exists (context : loc) (h1 : heap) (tokens : list token),
         createContext userContext h = (Ok context, h1)
         /\ tokenize template = Ok tokens
         /\ ((exists (pre : list token) (t : token) (post : list token)
                     (output : list string) (h2 : heap),
                 tokens = pre ++ t :: post
                 /\ renderTokens context pre [] [] h1 = (Ok ([], output), h2)
                 /\ underflow t = Some e)
             \/ (e = UnclosedIf
                 /\ exists (top : frame) (below : list frame)
                           (output : list string) (h2 : heap),
                      renderTokens context tokens [] [] h1
                      = (Ok (below ++ [top], output), h2)))).
Proof.
  intros He.
  destruct (createContext_spec userContext h)
    as (context & h1 & user & Hcreate & _).
  unfold render. erewrite bind_Ok by exact Hcreate.
  split.
  - intros Hthrow. exists context, h1.
    unfold mbind at 1, M_bind at 1, lift in Hthrow.
    destruct (tokenize template) as [tokens|e0] eqn:Htok.
    2:{ cbn [fst] in Hthrow. injection Hthrow as ->.
        apply tokenize_error in Htok as [i ->]. discriminate. }
    exists tokens. split; [exact Hcreate|]. split; [reflexivity|].
    unfold mbind, M_bind in Hthrow.
    destruct (renderTokens context tokens [] [] h1)
      as [[[frameStack output]|e1] h2] eqn:Hloop.
    + right.
      destruct (0 <? length frameStack) eqn:Hlen; [|discriminate].
      cbn [fst throw] in Hthrow. injection Hthrow as <-.
      split; [reflexivity|].
      destruct frameStack as [|f fs] using rev_ind; [discriminate|].
      now exists f, fs, output, h2.
    + left. cbn [fst] in Hthrow. injection Hthrow as ->.
      apply (renderTokens_structural context tokens e He [] [] h1).
      now rewrite Hloop.
  - intros (context' & h1' & tokens & Hcreate' & Htok & Hcase).
    rewrite Hcreate in Hcreate'. injection Hcreate' as <- <-.
    unfold mbind at 1, M_bind at 1, lift. rewrite Htok.
    unfold mbind, M_bind. destruct Hcase as [Hunder|[-> Hopen]].
    + apply (renderTokens_structural context tokens e He [] [] h1) in Hunder.
      destruct (renderTokens context tokens [] [] h1) as [[[fs out]|e1] h2];
        [discriminate|].
      cbn [fst] in *. now injection Hunder as ->.
    + destruct Hopen as (top & below & output & h2 & ->).
      rewrite length_app. cbn [length].
      now replace (0 <? length below + 1) with true
        by (symmetry; apply Nat.ltb_lt; lia).
Qed.

(** ** Exclusive branches *)

Lemma renderToken_shape (context : loc) (t : token)
    (frameStack frameStack' : list frame) (output output' : list string)
    (h h' : heap) :
  renderToken context t frameStack output h = (Ok (frameStack', output'), h') ->
  stepShape t frameStack frameStack'.
Proof.
  intros Hstep. destruct t; cbn [renderToken] in Hstep; revert Hstep; run_M;
    cbn [stepShape].
  - destruct (isFrameActive frameStack); now intros [= <- _ _].
  - destruct (negb (isFrameActive frameStack)); [now intros [= <- _ _]|].
    destruct (matchSet content) as [[variableName expression]|]; [|intros [=]].
    destruct (negb (hasOwnProperty BUILT_INS variableName));
      [|now intros [= <- _ _]].
    destruct (evaluateExpression _ _); now intros [= <- _ _].
  - destruct (isFrameActive frameStack).
    + destruct (evaluateExpression _ _) as [v|]; [|intros [=]].
      intros [= <- _ _]. eexists. split; [reflexivity|].
      cbn [active branchSatisfied]. tauto.
    + intros [= <- _ _]. eexists. split; [reflexivity|].
      cbn [active branchSatisfied]. tauto.
  - destruct (last frameStack) as [top|] eqn:Hlast; [|intros [=]].
    apply last_Some in Hlast as [below ->].
    destruct top as [pa a bs]. cbn [parentActive branchSatisfied].
    destruct pa; cbn [negb].
    + destruct bs.
      * intros [= <- _ _]. rewrite setTop_snoc.
        now exists below, (Frame true a true), (Frame true false true).
      * destruct (evaluateExpression _ _) as [v|]; [|intros [=]].
        intros [= <- _ _]. rewrite setTop_snoc.
        exists below, (Frame true a false), (Frame true (Boolean_ v) (Boolean_ v)).
        cbn [parentActive active branchSatisfied]. repeat split; try done.
    + intros [= <- _ _]. rewrite setTop_snoc.
      exists below, (Frame false a bs), (Frame false false bs).
      cbn [parentActive active branchSatisfied]. repeat split; try done.
  - destruct (last frameStack) as [top|] eqn:Hlast; [|intros [=]].
    apply last_Some in Hlast as [below ->].
    intros [= <- _ _]. rewrite setTop_snoc.
    destruct top as [pa a bs]. cbn [parentActive branchSatisfied].
    eexists below, (Frame pa a bs), _. split; [reflexivity|].
    split; [reflexivity|]. cbn [parentActive active branchSatisfied].
    destruct pa, bs; cbn; repeat split; try done.
  - destruct (last frameStack) as [top|] eqn:Hlast; [|intros [=]].
    apply last_Some in Hlast as [below ->].
    intros [= <- _ _]. exists top. now rewrite removelast_last.
Qed.

(** Between two branches of a chain the frame of the chain stays where
    it is, and once satisfied it stays satisfied. *)
Lemma insideChain_keeps (context : loc) (mid : list token) :
  forall (depth : nat) (below : list frame) (f : frame) (inner : list frame)
         (output : list string) (h : heap)
         (frameStack' : list frame) (output' : list string) (h' : heap),
    length inner = depth ->
    branchSatisfied f = true ->
    insideChain depth mid = true ->
    renderTokens context mid (below ++ f :: inner) output h
    = (Ok (frameStack', output'), h') ->
    exists f' : frame,
      frameStack' = below ++ [f']
      /\ branchSatisfied f' = true
      /\ parentActive f' = parentActive f.
Proof.
  induction mid as [|t mid IH];
    intros depth below f inner output h fs' out' h' Hlen Hsat Hin Hrun.
  - cbn [insideChain] in Hin. apply Nat.eqb_eq in Hin. subst depth.
    destruct inner; [|discriminate]. injection Hrun as <- _ _. now exists f.
  - cbn [renderTokens] in Hrun. unfold mbind, M_bind in Hrun.
    destruct (renderToken context t (below ++ f :: inner) output h)
      as [[[fs1 out1]|e1] h1] eqn:Hstep; [|discriminate].
    apply renderToken_shape in Hstep.
    destruct t; cbn [stepShape insideChain] in Hstep, Hin.
    + subst fs1. eapply IH; eauto.
    + subst fs1. eapply IH; eauto.
    + destruct Hstep as (pushed & -> & _).
      rewrite <- List.app_assoc in Hrun. cbn [app] in Hrun.
      eapply (IH (S depth)); [|exact Hsat|exact Hin|exact Hrun].
      rewrite length_app. cbn [length]. lia.
    + destruct Hstep as (below0 & top & top' & Hbefore & -> & Hpa & _ & Hkeep).
      destruct inner as [|g inner _] using rev_ind.
      * apply app_inj_tail in Hbefore as [<- <-].
        destruct (Hkeep Hsat) as [_ Hsat'].
        destruct (IH depth below top' [] out1 h1 fs' out' h' Hlen Hsat' Hin Hrun)
          as (f' & -> & Hf' & Hpa').
        exists f'. repeat split; congruence.
      * change (below ++ f :: inner ++ [g])
          with (below ++ (f :: inner) ++ [g]) in Hbefore.
        rewrite List.app_assoc in Hbefore.
        apply app_inj_tail in Hbefore as [<- <-].
        rewrite <- List.app_assoc in Hrun. cbn [app] in Hrun.
        eapply (IH depth below f (inner ++ [top']));
          [|exact Hsat|exact Hin|exact Hrun].
        rewrite length_app in *. cbn [length] in *. lia.
    + destruct Hstep as (below0 & top & top' & Hbefore & -> & Hpa & _ & Hkeep).
      destruct inner as [|g inner _] using rev_ind.
      * apply app_inj_tail in Hbefore as [<- <-].
        destruct (Hkeep Hsat) as [_ Hsat'].
        destruct (IH depth below top' [] out1 h1 fs' out' h' Hlen Hsat' Hin Hrun)
          as (f' & -> & Hf' & Hpa').
        exists f'. repeat split; congruence.
      * change (below ++ f :: inner ++ [g])
          with (below ++ (f :: inner) ++ [g]) in Hbefore.
        rewrite List.app_assoc in Hbefore.
        apply app_inj_tail in Hbefore as [<- <-].
        rewrite <- List.app_assoc in Hrun. cbn [app] in Hrun.
        eapply (IH depth below f (inner ++ [top']));
          [|exact Hsat|exact Hin|exact Hrun].
        rewrite length_app in *. cbn [length] in *. lia.
    + destruct Hstep as [top Hbefore].
      destruct depth as [|depth]; [discriminate|].
      destruct inner as [|g inner _] using rev_ind; [discriminate|].
      change (below ++ f :: inner ++ [g])
        with (below ++ (f :: inner) ++ [g]) in Hbefore.
      rewrite List.app_assoc in Hbefore.
      apply app_inj_tail in Hbefore as [<- <-].
      eapply (IH depth below f inner); [|exact Hsat|exact Hin|exact Hrun].
      rewrite length_app in Hlen. cbn [length] in Hlen. lia.
Qed.

(** C5.  Within one chain at most one branch is active.  Let the branch
    token [b] leave [f1] on top of the stack, let [mid] be tokens inside
    the chain and [t] a later [#elseif] or [#else] of the chain.  If
    the branch of [b] is active then [f1] is marked satisfied, and once
    [f1] is marked satisfied, by this branch or by an earlier one, the
    step of [t] leaves the frame inactive and still satisfied, whatever
    the conditions evaluate to. *)
Theorem chain_exclusive (context : loc) (b t : token) (mid : list token)
    (frameStack0 below frameStack2 : list frame) (f1 : frame)
    (output0 output1 output2 : list string) (h0 h1 h2 : heap) :
  isBranch b = true ->
  renderToken context b frameStack0 output0 h0
  = (Ok (below ++ [f1], output1), h1) ->
  insideChain 0 mid = true ->
  isLaterBranch t = true ->
  renderTokens context (mid ++ [t]) (below ++ [f1]) output1 h1
  = (Ok (frameStack2, output2), h2) ->
  (active f1 = true -> branchSatisfied f1 = true)
  /\ (branchSatisfied f1 = true ->
      exists f2 : frame,
        frameStack2 = below ++ [f2]
        /\ active f2 = false /\ branchSatisfied f2 = true).
Proof.
  intros Hb Hstep Hmid Ht Hrun. split.
  - apply renderToken_shape in Hstep.
    destruct b; try discriminate; cbn [stepShape] in Hstep.
    + destruct Hstep as (pushed & Heq & Hact).
      now apply app_inj_tail in Heq as [_ <-].
    + destruct Hstep as (below0 & top & top' & _ & Heq & _ & Hact & _).
      now apply app_inj_tail in Heq as [_ <-].
    + destruct Hstep as (below0 & top & top' & _ & Heq & _ & Hact & _).
      now apply app_inj_tail in Heq as [_ <-].
  - intros Hsat. rewrite renderTokens_app in Hrun.
    destruct (renderTokens context mid (below ++ [f1]) output1 h1)
      as [[[fs out]|e] hm] eqn:Hmidrun; [|discriminate].
    destruct (insideChain_keeps context mid 0 below f1 [] _ _ _ _ _
                eq_refl Hsat Hmid Hmidrun) as (f' & -> & Hsat' & _).
    cbn [renderTokens] in Hrun. unfold mbind, M_bind in Hrun.
    destruct (renderToken context t (below ++ [f']) out hm)
      as [[[fs2 out2]|e] h2'] eqn:Hlast; [|discriminate].
    injection Hrun as <- _ _.
    apply renderToken_shape in Hlast.
    destruct t; try discriminate; cbn [stepShape] in Hlast;
      destruct Hlast as (below0 & top & top' & Heq & -> & _ & _ & Hkeep);
      apply app_inj_tail in Heq as [<- <-];
      destruct (Hkeep Hsat') as [Hina Hsat2]; now exists top'.
Qed.

(** ** Truncation at assignment *)

Lemma quot_cond_Zopp (s : bool) (m p : Z) :
  (0 <= m)%Z -> (0 < p)%Z ->
  Z.quot (cond_Zopp s m) p = cond_Zopp s (m / p).
Proof.
  intros Hm Hp. destruct s; cbn [cond_Zopp].
  - rewrite Z.quot_opp_l by lia. now rewrite Z.quot_div_nonneg by lia.
  - now rewrite Z.quot_div_nonneg by lia.
Qed.

Lemma trunc_toward_zero (s : bool) (m : positive) (e : Z) :
  (e < 0)%Z ->
  Num.toZ (Num.trunc (S754_finite s m e))
  = Some (Z.quot (cond_Zopp s (Z.pos m)) (2 ^ (- e))).
Proof.
  intros He. assert (Hp : (0 < 2 ^ (- e))%Z) by (apply Z.pow_pos_nonneg; lia).
  rewrite quot_cond_Zopp by lia.
  unfold Num.trunc. replace (0 <=? e)%Z with false by (symmetry; lia).
  cbv zeta. remember (Z.pos m / 2 ^ (- e))%Z as q eqn:Hq.
  assert (Hq0 : (0 <= q)%Z) by (subst q; apply Z.div_pos; lia).
  destruct (q =? 0)%Z eqn:Hz.
  - apply Z.eqb_eq in Hz. rewrite Hz. cbn [Num.toZ]. now destruct s.
  - apply Z.eqb_neq in Hz.
    remember (Z.max 0 (Num.prec - (Z.log2 q + 1))) as d eqn:Hd.
    assert (Hd0 : (0 <= d)%Z) by lia.
    assert (Hpd : (0 < 2 ^ d)%Z) by (apply Z.pow_pos_nonneg; lia).
    assert (Hpos : Z.pos (Z.to_pos (q * 2 ^ d)) = (q * 2 ^ d)%Z)
      by (apply Z2Pos.id; nia).
    cbn [Num.toZ]. rewrite Hpos.
    destruct (0 <=? - d)%Z eqn:Hneg.
    + assert (d = 0%Z) by lia. subst d.
      rewrite H. cbn [Z.opp Z.pow]. f_equal. f_equal. lia.
    + replace (- - d)%Z with d by lia.
      rewrite Z.mod_mul by lia. cbn [Z.eqb].
      now rewrite Z.div_mul by lia.
Qed.

Lemma trunc_isInteger (n : number) :
  Num.isFinite n = true -> Num.isInteger (Num.trunc n) = true.
Proof.
  destruct n as [s|s| |s m e]; try discriminate; intros _; [reflexivity|].
  unfold Num.trunc. destruct (0 <=? e)%Z eqn:He.
  - cbn [Num.isInteger]. now rewrite He.
  - cbv zeta. destruct (Z.pos m / 2 ^ (- e) =? 0)%Z eqn:Hz; [reflexivity|].
    apply Z.eqb_neq in Hz.
    remember (Z.pos m / 2 ^ (- e))%Z as q eqn:Hq.
    assert (Hq0 : (0 <= q)%Z).
    { subst q. apply Z.div_pos; [lia|]. apply Z.pow_pos_nonneg; lia. }
    remember (Z.max 0 (Num.prec - (Z.log2 q + 1))) as d eqn:Hd.
    assert (Hpd : (0 < 2 ^ d)%Z) by (apply Z.pow_pos_nonneg; lia).
    cbn [Num.isInteger]. destruct (0 <=? - d)%Z; [reflexivity|].
    rewrite Z2Pos.id by nia. replace (- - d)%Z with d by lia.
    rewrite Z.mod_mul by lia. reflexivity.
Qed.

(** What [normalizeValue] makes of each kind of value. *)
Lemma normalizeValue_cases (v : value) :
  match v with
  | VNumber n =>
      if Num.isInteger n then normalizeValue v = v
      else if Num.isFinite n then
        exists stored : number,
          normalizeValue v = VNumber stored
          /\ Num.isInteger stored = true
          /\ truncatedTowardZero n stored
      else normalizeValue v = v
  | _ => normalizeValue v = v
  end.
Proof.
  destruct v as [| |b|n|s|]; try reflexivity.
  unfold normalizeValue. destruct (Num.isInteger n) eqn:Hint; [reflexivity|].
  destruct (Num.isFinite n) eqn:Hfin.
  - exists (Num.trunc n). split; [reflexivity|].
    split; [now apply trunc_isInteger|].
    destruct n as [s|s| |s m e]; try discriminate.
    cbn [truncatedTowardZero]. apply trunc_toward_zero.
    cbn [Num.isInteger] in Hint. destruct (0 <=? e)%Z eqn:He; [discriminate|lia].
  - destruct n as [s|s| |s m e]; try discriminate; reflexivity.
Qed.

Lemma alter_insert_lookup (context : loc) (key : string) (v : value)
    (ctx : object) (h : heap) :
  h !! context = Some ctx ->
  alter (insert key v) context h = <[context := <[key := v]> ctx]> h.
Proof.
  intros Hctx. apply map_eq. intros l.
  rewrite lookup_alter. destruct (decide (context = l)) as [<-|Hne].
  - now rewrite lookup_insert_eq, Hctx.
  - now rewrite lookup_insert_ne.
Qed.

(** The step of an active [#set] on a target that is not a builtin. *)
Lemma renderToken_set_active (context : loc)
    (content variableName expression : string)
    (frameStack : list frame) (output : list string)
    (h : heap) (ctx : object) (v : value) :
  isFrameActive frameStack = true ->
  matchSet content = Some (variableName, expression) ->
  hasOwnProperty BUILT_INS variableName = false ->
  h !! context = Some ctx ->
  evaluateExpression expression ctx = Ok v ->
  renderToken context (TSet content) frameStack output h
  = (Ok (frameStack, output),
     <[context := <[variableName := normalizeValue v]> ctx]> h).
Proof.
  intros Hactive Hmatch Hown Hctx Heval.
  cbn [renderToken]. rewrite Hactive, Hmatch, Hown. cbn [negb].
  run_M. rewrite Hctx. change (default ∅ (Some ctx)) with ctx. rewrite Heval.
  now rewrite (alter_insert_lookup _ _ _ _ _ Hctx).
Qed.


(** The same on a whole template: with a script engine that divides as
    JavaScript does, rendering [#set($v = 10 / 3)] leaves 3 under [v]. *)
Lemma render_set_division (h : heap) :
  (forall r : string -> value,
      runInNewContext "10 / 3" r
      = Returns (VNumber (Num.div (Num.ofZ 10) (Num.ofZ 3)))) ->
  exists (context : loc) (h' : heap) (ctx : object),
    render "#set($v = 10 / 3)" None h = (Ok "", h')
    /\ h' !! context = Some ctx
    /\ ctx !! "v" = Some (VNumber (Num.ofZ 3)).
Proof.
  intros Hscript.
  destruct (createContext_spec None h)
    as (context & h1 & user & Hcreate & _ & Hctx & _).
  unfold render. erewrite bind_Ok by exact Hcreate.
  assert (Htok : tokenize "#set($v = 10 / 3)" = Ok [TSet "$v = 10 / 3"])
    by (vm_compute; reflexivity).
  rewrite Htok. erewrite bind_Ok by reflexivity.
  cbn [renderTokens].
  assert (Hmatch : matchSet "$v = 10 / 3" = Some ("v", "10 / 3"))
    by (vm_compute; reflexivity).
  assert (Hown : hasOwnProperty BUILT_INS "v" = false)
    by (rewrite hasOwnProperty_BUILT_INS; reflexivity).
  assert (Heval : evaluateExpression "10 / 3" (contextOf user)
                  = Ok (VNumber (Num.div (Num.ofZ 10) (Num.ofZ 3)))).
  { unfold evaluateExpression.
    change (replaced "10 / 3") with "10 / 3". now rewrite Hscript. }
  pose proof (renderToken_set_active context "$v = 10 / 3" "v" "10 / 3" [] []
                h1 (contextOf user) _ eq_refl Hmatch Hown Hctx Heval)
    as Hstep.
  erewrite bind_Ok by (erewrite bind_Ok by exact Hstep; reflexivity).
  eexists context, _, _. split; [reflexivity|].
  split; [apply lookup_insert_eq|].
  rewrite lookup_insert_eq. f_equal.
Qed.

(** ** A space after the keyword, and a failing external renderer *)

(** With a space before the parenthesis the [#if] is not recognised: its
    text is copied and the [#end] finds the stack empty. *)
Lemma render_spaced_if_throws (userContext : option loc) (h : heap) :
  (render "#if (1)x#end" userContext h).1 = Throw EndWithoutIf.
Proof.
  destruct (createContext_spec userContext h)
    as (context & h1 & user & Hcreate & _).
  unfold render. erewrite bind_Ok by exact Hcreate.
  assert (Htok : tokenize "#if (1)x#end"
                 = Ok [TText "#"; TText "if (1)x"; TEnd])
    by (vm_compute; reflexivity).
  rewrite Htok. erewrite bind_Ok by reflexivity.
  unfold mbind, M_bind.
  assert (Hloop : (renderTokens context [TText "#"; TText "if (1)x"; TEnd]
                     [] [] h1).1 = Throw EndWithoutIf).
  { apply renderTokens_structural; [reflexivity|].
    eexists [TText "#"; TText "if (1)x"], TEnd, [], _, _.
    split; [reflexivity|]. split; [|reflexivity].
    cbn [renderTokens renderToken isFrameActive forallb]. run_M.
    reflexivity. }
  destruct (renderTokens context [TText "#"; TText "if (1)x"; TEnd] [] [] h1)
    as [[[fs out]|e] h2]; [discriminate|].
  cbn [fst] in *. now injection Hloop as ->.
Qed.

(** What the external renderer throws, [renderTemplate] throws. *)
Lemma renderTemplate_velocity_raises
    (velocityRender : string -> object -> completion) (e : exn)
    (template : string) (userContext : option loc) (h : heap) :
  velocityEngine = Some velocityRender ->
  (forall (t : string) (ctx : object), velocityRender t ctx = Raises e) ->
  (renderTemplate template userContext true h).1 = Throw (VelocityError e).
Proof.
  intros Hengine Hraises.
  destruct (createContext_spec userContext h)
    as (context & h1 & user & Hcreate & _).
  unfold renderTemplate, renderWithVelocity. rewrite Hengine.
  erewrite bind_Throw; [reflexivity|].
  erewrite bind_Ok by exact Hcreate.
  erewrite bind_Ok by reflexivity.
  rewrite Hraises. reflexivity.
Qed.

(** Without the module, [renderTemplate] is the builtin [render]. *)
Lemma renderTemplate_velocity_absent (template : string)
    (userContext : option loc) (preferVelocity : bool) (h : heap) :
  velocityEngine = None ->
  renderTemplate template userContext preferVelocity h
  = (s ← render template userContext; mret (VString s)) h.
Proof.
  intros Hengine. unfold renderTemplate, renderWithVelocity. rewrite Hengine.
  destruct preferVelocity; reflexivity.
Qed.

(** ** Text without directives *)

Lemma substring_all (s : string) : substring 0 (String.length s) s = s.
Proof. induction s as [|c s IH]; [reflexivity|]. cbn. now rewrite IH. Qed.

Lemma indexOf_scan_absent (c : ascii) (s : string) (i : nat) :
  Str.forall_ (fun a => negb (Ascii.eqb a c)) s = true ->
  Str.indexOf_scan c s i = None.
Proof.
  revert i. induction s as [|a s IH]; intros i Hs; [reflexivity|].
  cbn in Hs |- *. apply andb_true_iff in Hs as [Ha Hs].
  apply negb_true_iff in Ha. rewrite Ha. now apply IH.
Qed.

Lemma replaceVariables_plain (f : string -> string) (s : string) :
  Str.forall_ (fun a => negb (Ascii.eqb a "$")) s = true ->
  Str.replaceVariables f s = s.
Proof.
  unfold Str.replaceVariables. induction s as [|a s IH]; intros Hs;
    [reflexivity|].
  cbn in Hs. apply andb_true_iff in Hs as [Ha Hs].
  apply negb_true_iff in Ha. cbn [Str.replaceVariables_from].
  rewrite Ha. now rewrite IH.
Qed.

Lemma tokenize_plain (template : string) :
  Str.forall_ (fun a => negb (Ascii.eqb a "#")) template = true ->
  tokenize template
  = Ok (if Str.isEmpty template then [] else [TText template]).
Proof.
  intros Hplain. unfold tokenize, tokenize_run. cbn [tokenize_loop].
  destruct template as [|c template]; [reflexivity|].
  change (0 <? String.length (String c template)) with true. cbv iota.
  unfold Str.indexOf. cbn [Str.drop].
  rewrite (indexOf_scan_absent _ _ _ Hplain).
  unfold pushText.
  change (0 <? String.length (String c template)) with true. cbv iota.
  unfold Str.slice. rewrite Nat.sub_0_r, substring_all. reflexivity.
Qed.


(** ** Skipped regions *)

Lemma skipped_region_from (context : loc) (below : list frame)
    (output : list string) (h : heap) (mid : list token) :
  isFrameActive below = false ->
  forall depth : nat,
    staysInside depth mid = true ->
    exists n : nat,
      renderTokens context mid (below ++ replicate depth skippedFrame) output h
      = (Ok (below ++ replicate n skippedFrame, output), h).
Proof.
  intros Hbelow.
  assert (Hinactive : forall d,
             isFrameActive (below ++ replicate d skippedFrame) = false).
  { intros d. unfold isFrameActive in *. now rewrite forallb_app, Hbelow. }
  induction mid as [|t mid IH]; intros depth Hin.
  - now exists depth.
  - cbn [renderTokens]. destruct t; cbn [staysInside] in Hin.
    + destruct (IH depth Hin) as [n Hn]. exists n.
      rewrite (bind_Ok _ _ h h (below ++ replicate depth skippedFrame, output));
        [exact Hn|].
      cbn [renderToken]. now rewrite Hinactive.
    + destruct (IH depth Hin) as [n Hn]. exists n.
      rewrite (bind_Ok _ _ h h (below ++ replicate depth skippedFrame, output));
        [exact Hn|].
      cbn [renderToken]. now rewrite Hinactive.
    + destruct (IH (S depth) Hin) as [n Hn]. exists n.
      rewrite (bind_Ok _ _ h h
                 (below ++ replicate (S depth) skippedFrame, output));
        [exact Hn|].
      cbn [renderToken]. rewrite Hinactive. run_M.
      now rewrite <- List.app_assoc, <- replicate_S_end.
    + destruct depth as [|depth]; [discriminate|].
      destruct (IH (S depth) Hin) as [n Hn]. exists n.
      rewrite (bind_Ok _ _ h h
                 (below ++ replicate (S depth) skippedFrame, output));
        [exact Hn|].
      cbn [renderToken]. rewrite replicate_S_end, List.app_assoc, last_snoc.
      cbn [skippedFrame parentActive negb]. run_M.
      now rewrite setTop_snoc.
    + destruct depth as [|depth]; [discriminate|].
      destruct (IH (S depth) Hin) as [n Hn]. exists n.
      rewrite (bind_Ok _ _ h h
                 (below ++ replicate (S depth) skippedFrame, output));
        [exact Hn|].
      cbn [renderToken]. rewrite replicate_S_end, List.app_assoc, last_snoc.
      cbn [skippedFrame parentActive branchSatisfied negb andb orb]. run_M.
      now rewrite setTop_snoc.
    + destruct depth as [|depth]; [discriminate|].
      destruct (IH depth Hin) as [n Hn]. exists n.
      rewrite (bind_Ok _ _ h h (below ++ replicate depth skippedFrame, output));
        [exact Hn|].
      cbn [renderToken]. rewrite replicate_S_end, List.app_assoc, last_snoc.
      run_M. now rewrite removelast_last.
Qed.

(** ** The output and the depth of the stack *)

Lemma renderToken_output (context : loc) (t : token)
    (frameStack frameStack' : list frame) (output output' : list string)
    (h h' : heap) :
  renderToken context t frameStack output h = (Ok (frameStack', output'), h') ->
  exists extra : list string, output' = output ++ extra.
Proof.
  intros Hstep.
  assert (Hsame : forall (fs : list frame) (hx : heap),
             (Ok (fs, output), hx) = (Ok (frameStack', output'), h') ->
             exists extra : list string, output' = output ++ extra).
  { intros fs hx [= _ <- _]. exists []. now rewrite app_nil_r. }
  destruct t; cbn [renderToken] in Hstep; revert Hstep; run_M.
  - destruct (isFrameActive frameStack); [|apply Hsame].
    intros [= _ <- _]. eauto.
  - destruct (negb (isFrameActive frameStack)); [apply Hsame|].
    destruct (matchSet content) as [[variableName expression]|]; [|intros [=]].
    destruct (negb (hasOwnProperty BUILT_INS variableName)); [|apply Hsame].
    destruct (evaluateExpression _ _); [apply Hsame|intros [=]].
  - destruct (isFrameActive frameStack); [|apply Hsame].
    destruct (evaluateExpression _ _); [apply Hsame|intros [=]].
  - destruct (last frameStack) as [top|]; [|intros [=]].
    destruct (negb (parentActive top)); [apply Hsame|].
    destruct (branchSatisfied top); [apply Hsame|].
    destruct (evaluateExpression _ _); [apply Hsame|intros [=]].
  - destruct (last frameStack) as [top|]; [apply Hsame|intros [=]].
  - destruct (last frameStack) as [top|]; [apply Hsame|intros [=]].
Qed.

Lemma renderToken_depth (context : loc) (t : token)
    (frameStack frameStack' : list frame) (output output' : list string)
    (h h' : heap) :
  renderToken context t frameStack output h = (Ok (frameStack', output'), h') ->
  Z.of_nat (length frameStack')
  = (Z.of_nat (length frameStack) + depthChange [t])%Z.
Proof.
  intros Hstep. apply renderToken_shape in Hstep.
  destruct t; cbn [stepShape depthChange] in *.
  - subst. lia.
  - subst. lia.
  - destruct Hstep as (pushed & -> & _). rewrite length_app. cbn [length]. lia.
  - destruct Hstep as (below & top & top' & -> & -> & _).
    rewrite !length_app. cbn [length]. lia.
  - destruct Hstep as (below & top & top' & -> & -> & _).
    rewrite !length_app. cbn [length]. lia.
  - destruct Hstep as (top & ->). rewrite length_app. cbn [length]. lia.
Qed.

Lemma depthChange_cons (t : token) (tokens : list token) :
  depthChange (t :: tokens) = (depthChange [t] + depthChange tokens)%Z.
Proof. destruct t; cbn [depthChange]; lia. Qed.

Lemma renderTokens_grow (context : loc) (tokens : list token) :
  forall (frameStack frameStack' : list frame) (output output' : list string)
         (h h' : heap),
    renderTokens context tokens frameStack output h
    = (Ok (frameStack', output'), h') ->
    Z.of_nat (length frameStack')
    = (Z.of_nat (length frameStack) + depthChange tokens)%Z
    /\ exists extra : list string, output' = output ++ extra.
Proof.
  induction tokens as [|t tokens IH];
    intros frameStack frameStack' output output' h h' Hrun.
  - injection Hrun as <- <- _. cbn [depthChange]. split; [lia|].
    exists []. now rewrite app_nil_r.
  - cbn [renderTokens] in Hrun. unfold mbind, M_bind in Hrun.
    destruct (renderToken context t frameStack output h)
      as [[[fs1 out1]|e1] h1] eqn:Hstep; [|discriminate].
    destruct (IH _ _ _ _ _ _ Hrun) as [Hdepth [extra ->]].
    destruct (renderToken_output _ _ _ _ _ _ _ _ Hstep) as [first ->].
    apply renderToken_depth in Hstep.
    rewrite depthChange_cons. split; [lia|].
    exists (first ++ extra). now rewrite List.app_assoc.
Qed.

(** X3.  The interpreter only appends to the output, and the depth of
    the frame stack follows the tokens alone: a run that completes
    leaves the old output as a prefix of the new one and a stack that
    is deeper by the number of [#if] tokens minus the number of [#end]
    tokens. *)
Theorem interpreter_output_and_depth (context : loc) (tokens : list token)
    (frameStack frameStack' : list frame) (output output' : list string)
    (h h' : heap) :
  renderTokens context tokens frameStack output h
  = (Ok (frameStack', output'), h') ->
  Z.of_nat (length frameStack')
  = (Z.of_nat (length frameStack) + depthChange tokens)%Z
  /\ exists extra : list string, output' = output ++ extra.
Proof. apply renderTokens_grow. Qed.


(** X2.  A region met in an inactive scope is skipped as a whole.  If
    some frame of the stack is inactive and the tokens stay inside the
    blocks they open, the interpreter runs through them without an
    error, whatever their conditions and bodies are: it appends nothing
    to the output, writes nothing to the heap, and leaves on the old
    stack one frame for each block that the tokens open and do not
    close, the number of [#if] tokens minus the number of [#end]
    tokens, each with its three flags false. *)
Theorem skipped_region_is_silent (context : loc) (below : list frame)
    (output : list string) (h : heap) (mid : list token) :
  isFrameActive below = false ->
  staysInside 0 mid = true ->
  (0 <= depthChange mid)%Z
  /\ renderTokens context mid below output h
     = (Ok (below ++ replicate (Z.to_nat (depthChange mid)) skippedFrame,
            output), h).
Proof.
  intros Hbelow Hin.
  destruct (skipped_region_from context below output h mid Hbelow 0 Hin)
    as [n Hn].
  cbn [replicate] in Hn. rewrite app_nil_r in Hn.
  destruct (renderTokens_grow _ _ _ _ _ _ _ _ Hn) as [Hdepth _].
  rewrite length_app, length_replicate in Hdepth.
  assert (Hcount : depthChange mid = Z.of_nat n) by lia.
  rewrite Hcount, Nat2Z.id. split; [lia|exact Hn].
Qed.
(** X4.  [render] returns a string only for a template whose [#if] and
    [#end] tokens are equal in number. *)
Theorem render_success_balanced (template : string)
    (userContext : option loc) (h h' : heap) (rendered : string) :
  render template userContext h = (Ok rendered, h') ->
  exists tokens : list token,
    tokenize template = Ok tokens /\ depthChange tokens = 0%Z.
Proof.
  intros Hrender.
  destruct (createContext_spec userContext h)
    as (context & h1 & user & Hcreate & _).
  unfold render in Hrender. erewrite bind_Ok in Hrender by exact Hcreate.
  unfold mbind at 1, M_bind at 1, lift in Hrender.
  destruct (tokenize template) as [tokens|e]; [|discriminate].
  exists tokens. split; [reflexivity|].
  unfold mbind, M_bind in Hrender.
  destruct (renderTokens context tokens [] [] h1)
    as [[[fs out]|e] h2] eqn:Hrun; [|discriminate].
  destruct (0 <? length fs) eqn:Hlen; [discriminate|].
  apply Nat.ltb_ge in Hlen.
  destruct (renderTokens_grow _ _ _ _ _ _ _ _ Hrun) as [Hdepth _].
  cbn [length] in Hdepth. lia.
Qed.

(** ** Values *)

(** X5.  [normalizeValue] is idempotent, and the number it returns is
    never a finite number with a fractional part: it is an integer, NaN
    or an infinity. *)
Theorem normalizeValue_idempotent (v : value) :
  normalizeValue (normalizeValue v) = normalizeValue v
  /\ forall n : number,
       normalizeValue v = VNumber n ->
       Num.isInteger n = true \/ Num.isFinite n = false.
Proof.
  destruct v as [| |b|n|s|]; try (split; [reflexivity|discriminate]).
  unfold normalizeValue. destruct (Num.isInteger n) eqn:Hint.
  - rewrite Hint. split; [reflexivity|]. intros n' [= <-]. now left.
  - destruct (Num.isFinite n) eqn:Hfin.
    + rewrite (trunc_isInteger n Hfin). split; [reflexivity|].
      intros n' [= <-]. left. now apply trunc_isInteger.
    + assert (Htrunc : Num.trunc n = n)
        by (destruct n; try discriminate; reflexivity).
      rewrite Htrunc, Hint, Htrunc. split; [reflexivity|].
      intros n' [= <-]. now right.
Qed.

Lemma takeWhile_forall (p : ascii -> bool) (s : string) :
  Str.forall_ p (Str.takeWhile p s) = true.
Proof.
  induction s as [|c s IH]; [reflexivity|]. cbn.
  destruct (p c) eqn:Hc; [|reflexivity]. cbn. now rewrite Hc.
Qed.

Lemma append_cons (c : ascii) (a b : string) :
  String c a +:+ b = String c (a +:+ b).
Proof. reflexivity. Qed.

Lemma append_empty (b : string) : "" +:+ b = b.
Proof. reflexivity. Qed.

Lemma takeWhile_dropWhile (p : ascii -> bool) (s : string) :
  Str.takeWhile p s +:+ Str.dropWhile p s = s.
Proof.
  induction s as [|c s IH]; [reflexivity|].
  cbn [Str.takeWhile Str.dropWhile].
  destruct (p c); [|reflexivity]. now rewrite append_cons, IH.
Qed.

Lemma dropWhile_stops (p : ascii -> bool) (s : string) :
  stopsAt p (Str.dropWhile p s).
Proof.
  induction s as [|c s IH]; [exact I|]. cbn.
  destruct (p c) eqn:Hc; [exact IH|exact Hc].
Qed.

Lemma takeWhile_app (p : ascii -> bool) (w r : string) :
  Str.forall_ p w = true -> stopsAt p r ->
  Str.takeWhile p (w +:+ r) = w.
Proof.
  intros Hw Hr. induction w as [|c w IH].
  - rewrite append_empty. destruct r as [|c r]; [reflexivity|].
    cbn in Hr |- *. now rewrite Hr.
  - cbn [Str.forall_] in Hw. apply andb_true_iff in Hw as [Hc Hw].
    rewrite append_cons. cbn [Str.takeWhile]. now rewrite Hc, IH.
Qed.

Lemma dropWhile_app (p : ascii -> bool) (w r : string) :
  Str.forall_ p w = true -> stopsAt p r ->
  Str.dropWhile p (w +:+ r) = r.
Proof.
  intros Hw Hr. induction w as [|c w IH].
  - rewrite append_empty. destruct r as [|c r]; [reflexivity|].
    cbn in Hr |- *. now rewrite Hr.
  - cbn [Str.forall_] in Hw. apply andb_true_iff in Hw as [Hc Hw].
    rewrite append_cons. cbn [Str.dropWhile]. rewrite Hc. now apply IH.
Qed.

Lemma isEmpty_false (s : string) : Str.isEmpty s = false <-> s <> "".
Proof. destruct s; cbn; split; congruence. Qed.

Lemma isNumericLike_decimalText (s : string) :
  isNumericLike s = true <-> decimalText s.
Proof.
  split.
  - intros Hs. unfold isNumericLike in Hs. cbv zeta in Hs.
    set (unsigned := match s with
                     | String c s' => if Ascii.eqb c "-" then s' else s
                     | EmptyString => s
                     end) in *.
    assert (Hsign : exists sign, s = sign +:+ unsigned
                                 /\ (sign = "" \/ sign = "-")).
    { subst unsigned. destruct s as [|c s']; [exists ""; auto|].
      destruct (Ascii.eqb c "-") eqn:Hc.
      - apply Ascii.eqb_eq in Hc as ->. exists "-". auto.
      - exists "". auto. }
    destruct Hsign as (sign & Hs_eq & Hsign).
    apply andb_true_iff in Hs as [Hwhole Hrest].
    apply negb_true_iff, isEmpty_false in Hwhole.
    exists sign, (Str.takeWhile Chars.isDigit unsigned),
      (Str.dropWhile Chars.isDigit unsigned).
    rewrite takeWhile_dropWhile.
    split; [exact Hs_eq|]. split; [exact Hsign|].
    split; [split; [exact Hwhole|apply takeWhile_forall]|].
    destruct (Str.dropWhile Chars.isDigit unsigned) as [|c fraction];
      [now left|right].
    apply andb_true_iff in Hrest as [Hrest Hdigits].
    apply andb_true_iff in Hrest as [Hdot Hne].
    apply Ascii.eqb_eq in Hdot as ->.
    apply negb_true_iff, isEmpty_false in Hne.
    exists fraction. now repeat split.
  - intros (sign & whole & fraction & -> & Hsign & [Hne Hwhole] & Hfraction).
    assert (Hstop : stopsAt Chars.isDigit fraction).
    { destruct Hfraction as [->|(ds & -> & _)]; [exact I|reflexivity]. }
    assert (Hunsigned :
              match sign +:+ whole +:+ fraction with
              | String c s' =>
                  if Ascii.eqb c "-" then s' else sign +:+ whole +:+ fraction
              | EmptyString => sign +:+ whole +:+ fraction
              end = whole +:+ fraction).
    { destruct Hsign as [->| ->].
      - rewrite append_empty.
        destruct whole as [|c whole]; [congruence|].
        rewrite append_cons.
        cbn [Str.forall_] in Hwhole. apply andb_true_iff in Hwhole as [Hc _].
        destruct (Ascii.eqb c "-") eqn:Hminus; [|reflexivity].
        apply Ascii.eqb_eq in Hminus as ->. discriminate.
      - rewrite append_cons, append_empty. reflexivity. }
    unfold isNumericLike. cbv zeta. rewrite Hunsigned.
    rewrite (takeWhile_app _ _ _ Hwhole Hstop),
      (dropWhile_app _ _ _ Hwhole Hstop).
    apply andb_true_iff. split.
    + now apply negb_true_iff, isEmpty_false.
    + destruct Hfraction as [->|(ds & -> & Hds & Hdigits)]; [reflexivity|].
      cbn. apply andb_true_iff. split; [|exact Hdigits].
      now apply negb_true_iff, isEmpty_false.
Qed.

(** X6.  [coerceNumericLike] turns a string into a number exactly when
    the trimmed string is decimal text (an optional minus sign, digits,
    optionally a dot and digits) that [Number] does not read as NaN;
    every other string, and every value that is not a string, is
    returned as it is.  It never returns NaN for a string, and applying
    it twice is the same as applying it once. *)
Theorem coerceNumericLike_decimal_only (v : value) :
  (forall s : string,
      v = VString s ->
      decimalText (Str.trim s) ->
      Num.isNaN (Number_ofString (Str.trim s)) = false ->
      coerceNumericLike v = VNumber (Number_ofString (Str.trim s)))
  /\ (forall s : string,
        v = VString s ->
        ~ decimalText (Str.trim s)
        \/ Num.isNaN (Number_ofString (Str.trim s)) = true ->
        coerceNumericLike v = v)
  /\ ((forall s : string, v <> VString s) -> coerceNumericLike v = v)
  /\ (forall (s : string) (n : number),
        v = VString s -> coerceNumericLike v = VNumber n ->
        Num.isNaN n = false)
  /\ coerceNumericLike (coerceNumericLike v) = coerceNumericLike v.
Proof.
  assert (Hnonempty : forall t, decimalText t -> Str.isEmpty t = false).
  { intros t (sign & whole & fraction & -> & Hsign & [Hne _] & _).
    apply isEmpty_false. intros Heq.
    destruct Hsign as [->| ->]; [|discriminate].
    rewrite append_empty in Heq. destruct whole; [congruence|discriminate]. }
  split; [|split; [|split; [|split]]].
  - intros s -> Hdec Hnan. cbn [coerceNumericLike]. cbv zeta.
    rewrite (Hnonempty _ Hdec).
    apply isNumericLike_decimalText in Hdec. rewrite Hdec. cbn [negb andb].
    now rewrite Hnan.
  - intros s -> Hcase. cbn [coerceNumericLike]. cbv zeta.
    destruct (isNumericLike (Str.trim s)) eqn:Hlike.
    + destruct Hcase as [Hnot|Hnan].
      * apply isNumericLike_decimalText in Hlike. contradiction.
      * rewrite Hnan. now destruct (negb _).
    + now rewrite andb_false_r.
  - intros Hnot. destruct v; try reflexivity. now destruct (Hnot s).
  - intros s n -> Hcoerce. cbn [coerceNumericLike] in Hcoerce.
    cbv zeta in Hcoerce.
    destruct (negb (Str.isEmpty (Str.trim s)) && isNumericLike (Str.trim s));
      [|discriminate].
    destruct (Num.isNaN (Number_ofString (Str.trim s))) eqn:Hnan;
      [discriminate|].
    now injection Hcoerce as <-.
  - destruct v; try reflexivity. cbn [coerceNumericLike]. cbv zeta.
    destruct (negb (Str.isEmpty (Str.trim s)) && isNumericLike (Str.trim s))
      eqn:Hlike; [|cbn [coerceNumericLike]; cbv zeta; now rewrite Hlike].
    destruct (Num.isNaN (Number_ofString (Str.trim s))) eqn:Hnan;
      [|reflexivity].
    cbn [coerceNumericLike]. cbv zeta. now rewrite Hlike, Hnan.
Qed.

(** ** The body of [#set] *)

Lemma append_assoc (a b c : string) : (a +:+ b) +:+ c = a +:+ (b +:+ c).
Proof.
  induction a as [|x a IH]; [reflexivity|]. now rewrite !append_cons, IH.
Qed.

Lemma dropWhile_empty_forall (p : ascii -> bool) (s : string) :
  Str.dropWhile p s = "" -> Str.forall_ p s = true.
Proof.
  induction s as [|c s IH]; [reflexivity|]. cbn.
  destruct (p c); [exact IH|discriminate].
Qed.

Lemma lastChar_split (p : ascii -> bool) (s : string) (c : ascii) :
  Str.lastChar s = Some c ->
  exists init : string,
    s = init +:+ String c ""
    /\ (Str.forall_ p s = true -> Str.forall_ p init = true).
Proof.
  induction s as [|a s IH]; [discriminate|]. intros Hlast.
  destruct s as [|b s].
  - injection Hlast as <-. exists "". split; [reflexivity|reflexivity].
  - destruct (IH Hlast) as (init & Heq & Hall).
    exists (String a init). rewrite append_cons, <- Heq.
    split; [reflexivity|]. intros Hp.
    change (Str.forall_ p (String a (String b s)))
      with (p a && Str.forall_ p (String b s)) in Hp.
    apply andb_true_iff in Hp as [Ha Hp].
    cbn [Str.forall_]. now rewrite Ha, (Hall Hp).
Qed.

Lemma identStart_word (c : ascii) :
  Chars.isIdentStart c = true -> Chars.isWord c = true.
Proof. intros Hc. unfold Chars.isWord. now rewrite Hc. Qed.

Lemma space_not_word (c : ascii) :
  Chars.isSpace c = true -> Chars.isWord c = false.
Proof.
  destruct c as [[] [] [] [] [] [] [] []]; vm_compute;
    intros H; try reflexivity; discriminate H.
Qed.

Lemma matchSet_parts (content variableName expression : string) :
  matchSet content = Some (variableName, expression) ->
  exists lead gap pad : string,
    content
    = lead +:+ "$" +:+ variableName +:+ gap +:+ "=" +:+ pad +:+ expression
    /\ blank lead /\ blank gap /\ blank pad
    /\ identifier variableName
    /\ singleLine expression.
Proof.
  unfold matchSet. intros Hmatch.
  pose proof (takeWhile_dropWhile Chars.isSpace content) as Hlead.
  destruct (Str.dropWhile Chars.isSpace content) as [|c afterDollar];
    [discriminate|].
  destruct (Ascii.eqb c "$") eqn:Hc; [|discriminate].
  apply Ascii.eqb_eq in Hc as ->.
  destruct afterDollar as [|c1 more] eqn:HafterDollar; [discriminate|].
  rewrite <- HafterDollar in Hmatch.
  destruct (Chars.isIdentStart c1) eqn:Hstart; [|discriminate].
  pose proof (takeWhile_dropWhile Chars.isWord afterDollar) as Hname.
  pose proof (takeWhile_dropWhile Chars.isSpace
                (Str.dropWhile Chars.isWord afterDollar)) as Hgap.
  destruct (Str.dropWhile Chars.isSpace (Str.dropWhile Chars.isWord afterDollar))
    as [|c2 rest]; [discriminate|].
  destruct (Ascii.eqb c2 "=") eqn:Hc2; [|discriminate].
  apply Ascii.eqb_eq in Hc2 as ->.
  destruct (matchSet_expression rest) as [expr|] eqn:Hexpr; [|discriminate].
  cbn in Hmatch. injection Hmatch as <- <-.
  assert (Hid : identifier (Str.takeWhile Chars.isWord afterDollar)).
  { exists c1, (Str.takeWhile Chars.isWord more). subst afterDollar.
    cbn [Str.takeWhile]. rewrite (identStart_word _ Hstart).
    split; [reflexivity|]. split; [exact Hstart|apply takeWhile_forall]. }
  assert (Hpad : exists pad, rest = pad +:+ expr /\ blank pad /\ singleLine expr).
  { unfold matchSet_expression in Hexpr. cbv zeta in Hexpr.
    pose proof (takeWhile_dropWhile Chars.isSpace rest) as Hrest.
    destruct (Str.dropWhile Chars.isSpace rest) as [|t tail] eqn:Htail.
    - cbn [Str.isEmpty] in Hexpr.
      destruct (Str.lastChar rest) as [l|] eqn:Hlast; [|discriminate].
      destruct (Chars.isLineTerminator l) eqn:Hl; [discriminate|].
      injection Hexpr as <-.
      destruct (lastChar_split Chars.isSpace rest l Hlast) as (init & -> & Hinit).
      exists init. split; [reflexivity|]. split.
      + apply Hinit. now apply dropWhile_empty_forall.
      + split; [discriminate|]. cbn. now rewrite Hl.
    - cbn [Str.isEmpty] in Hexpr.
      destruct (Str.forall_ _ (String t tail)) eqn:Hline; [|discriminate].
      injection Hexpr as <-.
      exists (Str.takeWhile Chars.isSpace rest).
      split; [now rewrite Hrest|]. split; [apply takeWhile_forall|].
      split; [discriminate|exact Hline]. }
  destruct Hpad as (pad & -> & Hpad & Hline).
  exists (Str.takeWhile Chars.isSpace content),
    (Str.takeWhile Chars.isSpace (Str.dropWhile Chars.isWord afterDollar)),
    pad.
  split.
  - etransitivity; [symmetry; exact Hlead|]. f_equal.
    rewrite <- HafterDollar.
    change (String "$" afterDollar) with ("$" +:+ afterDollar). f_equal.
    etransitivity; [symmetry; exact Hname|]. f_equal.
    etransitivity; [symmetry; exact Hgap|]. reflexivity.
  - split; [apply takeWhile_forall|]. split; [apply takeWhile_forall|].
    split; [exact Hpad|]. split; [exact Hid|exact Hline].
Qed.

(** X7.  What the pattern of [#set] accepts.  When [matchSet] succeeds
    the body is white space, a dollar sign, the name, white space, an
    equals sign, white space and the expression, in that order; the
    name is an identifier and the expression is not empty and holds no
    line terminator. *)
Theorem matchSet_shape (content variableName expression : string) :
  matchSet content = Some (variableName, expression) ->
  exists lead gap pad : string,
    content
    = lead +:+ "$" +:+ variableName +:+ gap +:+ "=" +:+ pad +:+ expression
    /\ blank lead /\ blank gap /\ blank pad
    /\ identifier variableName
    /\ singleLine expression.
Proof.
  apply matchSet_parts.
Qed.

Lemma stopsAt_blank_then (p : ascii -> bool) (w r : string) :
  (forall c, Chars.isSpace c = true -> p c = false) ->
  blank w -> stopsAt p r -> stopsAt p (w +:+ r).
Proof.
  intros Hp Hw Hr. destruct w as [|c w]; [exact Hr|].
  rewrite append_cons. cbn [stopsAt]. apply Hp.
  unfold blank in Hw. cbn [Str.forall_] in Hw.
  now apply andb_true_iff in Hw as [Hc _].
Qed.

(** X8.  The pattern of [#set] reads back what was written.  For an
    identifier [name] and an expression that is not empty, holds no line
    terminator and does not begin with white space, the body made of
    [$name], an equals sign and the expression, with any white space
    before the dollar sign and around the equals sign, is matched with
    that name and that expression. *)
Theorem matchSet_roundtrip (lead gap pad name expression : string) :
  blank lead -> blank gap -> blank pad ->
  identifier name ->
  singleLine expression ->
  stopsAt Chars.isSpace expression ->
  matchSet (lead +:+ "$" +:+ name +:+ gap +:+ "=" +:+ pad +:+ expression)
  = Some (name, expression).
Proof.
  intros Hlead Hgap Hpad (c1 & more & -> & Hstart & Hmore) [Hne Hline] Hdark.
  unfold matchSet.
  rewrite (dropWhile_app _ lead _ Hlead) by reflexivity.
  change ("$" +:+ ?x) with (String "$" x). cbn [Ascii.eqb Bool.eqb].
  rewrite append_cons. rewrite Hstart.
  assert (Hname : Str.forall_ Chars.isWord (String c1 more) = true).
  { cbn [Str.forall_]. now rewrite (identStart_word _ Hstart), Hmore. }
  assert (Hstop : stopsAt Chars.isWord (gap +:+ "=" +:+ pad +:+ expression)).
  { apply stopsAt_blank_then; [apply space_not_word|exact Hgap|reflexivity]. }
  rewrite <- append_cons.
  rewrite (takeWhile_app _ _ _ Hname Hstop), (dropWhile_app _ _ _ Hname Hstop).
  rewrite (dropWhile_app _ gap _ Hgap) by reflexivity.
  change ("=" +:+ ?x) with (String "=" x). cbn [Ascii.eqb Bool.eqb].
  unfold matchSet_expression. cbv zeta.
  rewrite (dropWhile_app _ pad _ Hpad Hdark).
  destruct expression as [|e expression]; [congruence|].
  cbn [Str.isEmpty]. now rewrite Hline.
Qed.

(** ** Interpolation *)

Lemma append_empty_r (s : string) : s +:+ "" = s.
Proof. induction s as [|c s IH]; [reflexivity|]. now rewrite append_cons, IH. Qed.

Lemma length_append (a b : string) :
  String.length (a +:+ b) = String.length a + String.length b.
Proof.
  induction a as [|c a IH]; [reflexivity|].
  rewrite append_cons. cbn [String.length]. now rewrite IH.
Qed.

Lemma replaceVariables_skip (f : string -> string) (skipped rest : string) :
  Str.replaceVariables_from f (skipped +:+ rest) (String.length skipped)
  = Str.replaceVariables_from f rest 0.
Proof.
  induction skipped as [|c skipped IH]; [now rewrite append_empty|].
  rewrite append_cons. cbn [String.length Str.replaceVariables_from].
  exact IH.
Qed.

Lemma replaceVariables_prefix (f : string -> string) (plain rest : string) :
  Str.forall_ (fun a => negb (Ascii.eqb a "$")) plain = true ->
  Str.replaceVariables f (plain +:+ rest)
  = plain +:+ Str.replaceVariables f rest.
Proof.
  unfold Str.replaceVariables. intros Hplain.
  induction plain as [|c plain IH]; [now rewrite !append_empty|].
  cbn [Str.forall_] in Hplain. apply andb_true_iff in Hplain as [Hc Hplain].
  apply negb_true_iff in Hc.
  rewrite !append_cons. cbn [Str.replaceVariables_from]. rewrite Hc.
  now rewrite IH.
Qed.

Lemma replaceVariables_reference (f : string -> string) (name rest : string) :
  identifier name -> stopsAt Chars.isWord rest ->
  Str.replaceVariables f ("$" +:+ name +:+ rest)
  = f name +:+ Str.replaceVariables f rest.
Proof.
  intros (c1 & more & -> & Hstart & Hmore) Hstop.
  unfold Str.replaceVariables.
  change ("$" +:+ ?x) with (String "$" x).
  cbn [Str.replaceVariables_from Ascii.eqb Bool.eqb].
  rewrite append_cons, Hstart. rewrite <- append_cons.
  assert (Hname : Str.forall_ Chars.isWord (String c1 more) = true).
  { cbn [Str.forall_]. now rewrite (identStart_word _ Hstart), Hmore. }
  rewrite (takeWhile_app _ _ _ Hname Hstop).
  now rewrite replaceVariables_skip.
Qed.

Lemma replaceVariables_dollar (f : string -> string) (rest : string) :
  stopsAt Chars.isIdentStart rest ->
  Str.replaceVariables f ("$" +:+ rest)
  = "$" +:+ Str.replaceVariables f rest.
Proof.
  intros Hstop. unfold Str.replaceVariables.
  change ("$" +:+ ?x) with (String "$" x).
  cbn [Str.replaceVariables_from Ascii.eqb Bool.eqb].
  destruct rest as [|c rest]; [reflexivity|].
  cbn [stopsAt] in Hstop. now rewrite Hstop.
Qed.

Lemma interpolate_text (context : object) (rest : string) :
  (forall plain : string,
      Str.forall_ (fun a => negb (Ascii.eqb a "$")) plain = true ->
      interpolate (plain +:+ rest) context
      = plain +:+ interpolate rest context)
  /\ (forall name : string,
        identifier name -> stopsAt Chars.isWord rest ->
        interpolate ("$" +:+ name +:+ rest) context
        = shown (getProperty context name) +:+ interpolate rest context)
  /\ (forall name : string,
        identifier name -> stopsAt Chars.isWord rest ->
        context !! name = None ->
        interpolate ("$" +:+ name +:+ rest) context
        = interpolate rest context)
  /\ (stopsAt Chars.isIdentStart rest ->
      interpolate ("$" +:+ rest) context
      = "$" +:+ interpolate rest context).
Proof.
  assert (Href : forall name : string,
             identifier name -> stopsAt Chars.isWord rest ->
             interpolate ("$" +:+ name +:+ rest) context
             = shown (getProperty context name) +:+ interpolate rest context).
  { intros name Hid Hstop. unfold interpolate.
    rewrite (replaceVariables_reference _ _ _ Hid Hstop).
    unfold shown. now destruct (getProperty context name). }
  split; [|split; [exact Href|split]].
  - intros plain Hplain. unfold interpolate.
    now apply replaceVariables_prefix.
  - intros name Hid Hstop Habsent. rewrite (Href name Hid Hstop).
    unfold getProperty. rewrite Habsent. reflexivity.
  - intros Hstop. unfold interpolate. now apply replaceVariables_dollar.
Qed.


(** ** Substrings *)

Lemma substring_zero (n : nat) (s : string) : substring n 0 s = "".
Proof.
  revert n. induction s as [|c s IH]; intros [|n]; cbn; auto.
Qed.

Lemma substring_beyond (n : nat) (s : string) :
  String.length s <= n -> substring 0 n s = s.
Proof.
  revert n. induction s as [|c s IH]; intros [|n] Hn; cbn in *;
    try reflexivity; try lia.
  rewrite IH by lia. reflexivity.
Qed.

Lemma substring_app (n m k : nat) (s : string) :
  substring n (m + k) s = substring n m s +:+ substring (n + m) k s.
Proof.
  revert n m. induction s as [|c s IH]; intros n m.
  - destruct n, m, k; reflexivity.
  - destruct n as [|n].
    + destruct m as [|m]; [reflexivity|].
      cbn [Nat.add substring]. rewrite append_cons. f_equal.
      apply (IH 0 m).
    + cbn [Nat.add substring]. apply IH.
Qed.

Lemma substring_drop (pos n : nat) (s : string) :
  substring 0 n (Str.drop pos s) = substring pos n s.
Proof.
  revert pos. induction s as [|c s IH]; intros [|pos]; try reflexivity.
  - destruct n; reflexivity.
  - cbn [Str.drop]. rewrite IH. reflexivity.
Qed.

Lemma drop_get (pos : nat) (s : string) (c : ascii) (rest : string) :
  Str.drop pos s = String c rest ->
  String.get pos s = Some c /\ Str.drop (S pos) s = rest.
Proof.
  revert pos. induction s as [|a s IH]; intros [|pos] Hdrop;
    cbn in Hdrop |- *; try discriminate.
  - injection Hdrop as <- <-. split; [reflexivity|]. now destruct s.
  - apply IH in Hdrop. exact Hdrop.
Qed.

Lemma get_substring (pos : nat) (s : string) (c : ascii) :
  String.get pos s = Some c -> substring pos 1 s = String c "".
Proof.
  revert pos. induction s as [|a s IH]; intros [|pos] Hget;
    cbn in Hget |- *; try discriminate.
  - injection Hget as <-. now rewrite substring_zero.
  - now apply IH.
Qed.

Lemma get_length (pos : nat) (s : string) (c : ascii) :
  String.get pos s = Some c -> pos < String.length s.
Proof.
  revert pos. induction s as [|a s IH]; intros [|pos] Hget;
    cbn in Hget |- *; try discriminate; [lia|].
  apply IH in Hget. lia.
Qed.

Lemma startsWith_substring (s p : string) (pos : nat) :
  Str.startsWith s p pos = true ->
  substring pos (String.length p) s = p.
Proof.
  unfold Str.startsWith. intros Hp.
  apply prefix_correct in Hp. now rewrite substring_drop in Hp.
Qed.

Lemma substring_nonempty (start len : nat) (s : string) :
  0 < len -> start < String.length s -> substring start len s <> "".
Proof.
  revert start. induction s as [|a s IH]; intros [|start] Hlen Hstart;
    cbn in Hstart |- *; try lia.
  - destruct len; [lia|discriminate].
  - apply IH; lia.
Qed.

Lemma indexOf_scan_found (c : ascii) (s : string) (i j : nat) :
  Str.indexOf_scan c s i = Some j ->
  i <= j /\ String.get (j - i) s = Some c.
Proof.
  revert i. induction s as [|a s IH]; intros i Hscan; [discriminate|].
  cbn [Str.indexOf_scan] in Hscan.
  destruct (Ascii.eqb a c) eqn:Hac.
  - injection Hscan as <-. apply Ascii.eqb_eq in Hac as ->.
    rewrite Nat.sub_diag. split; [lia|reflexivity].
  - apply IH in Hscan as [Hle Hget]. split; [lia|].
    replace (j - i) with (S (j - S i)) by lia. exact Hget.
Qed.

Lemma get_drop (pos k : nat) (s : string) :
  String.get k (Str.drop pos s) = String.get (pos + k) s.
Proof.
  revert pos. induction s as [|a s IH]; intros pos.
  - destruct pos; cbn [Str.drop]; now destruct k.
  - destruct pos as [|pos]; [reflexivity|].
    cbn [Str.drop Nat.add String.get]. apply IH.
Qed.

Lemma indexOf_found (s : string) (c : ascii) (from j : nat) :
  Str.indexOf s c from = Some j ->
  from <= j /\ j < String.length s /\ String.get j s = Some c.
Proof.
  unfold Str.indexOf. intros Hidx.
  apply indexOf_scan_found in Hidx as [Hle Hget].
  rewrite get_drop in Hget. replace (from + (j - from)) with j in Hget by lia.
  split; [exact Hle|]. split; [|exact Hget]. now apply get_length in Hget.
Qed.

(** ** The tokenizer loses nothing *)

Lemma readParenthesized_from_found (template : string) (startIndex : nat)
    (suffix : string) :
  forall (i : nat) (depth : Z) (content : string) (endIndex : nat),
    suffix = Str.drop i template ->
    readParenthesized_from template startIndex suffix i depth
    = Ok (content, endIndex) ->
    exists j : nat,
      endIndex = j + 1 /\ i <= j
      /\ String.get j template = Some ")"%char
      /\ content = Str.slice template (startIndex + 1) j.
Proof.
  induction suffix as [|ch suffix IH]; intros i depth content endIndex Hdrop Hread;
    [discriminate|].
  symmetry in Hdrop. apply drop_get in Hdrop as [Hget Hdrop].
  cbn [readParenthesized_from] in Hread.
  assert (Hnext : forall d,
             readParenthesized_from template startIndex suffix (S i) d
             = Ok (content, endIndex) ->
             exists j : nat,
               endIndex = j + 1 /\ i <= j
               /\ String.get j template = Some ")"%char
               /\ content = Str.slice template (startIndex + 1) j).
  { intros d Hd. apply IH in Hd; [|now symmetry].
    destruct Hd as (j & ? & ? & ? & ?). exists j. repeat split; auto; lia. }
  destruct (Ascii.eqb ch "("); [now apply Hnext in Hread|].
  destruct (Ascii.eqb ch ")") eqn:Hclose; [|now apply Hnext in Hread].
  destruct (depth - 1 =? 0)%Z; [|now apply Hnext in Hread].
  injection Hread as <- <-. apply Ascii.eqb_eq in Hclose as ->.
  exists i. repeat split; auto.
Qed.

(** A directive with its parenthesised body, as a slice of the
    template: [keyword] ends with the opening parenthesis. *)
Lemma directive_slice (template keyword : string) (hashIndex k : nat)
    (content : string) (endIndex : nat) :
  String.length keyword = k + 1 ->
  String.get k keyword = Some "("%char ->
  Str.startsWith template keyword hashIndex = true ->
  readParenthesized template (hashIndex + k) = Ok (content, endIndex) ->
  hashIndex < endIndex
  /\ substring hashIndex (endIndex - hashIndex) template
     = keyword +:+ content +:+ ")".
Proof.
  intros Hlen Hopen Hstarts Hread.
  apply startsWith_substring in Hstarts.
  assert (Hparen : String.get (hashIndex + k) template = Some "("%char).
  { rewrite <- Hopen, <- Hstarts at 1.
    rewrite substring_correct1 by lia. f_equal. lia. }
  unfold readParenthesized in Hread.
  apply readParenthesized_from_found in Hread; [|reflexivity].
  destruct Hread as (j & -> & Hle & Hclose & ->).
  assert (Hlt : hashIndex + k < j).
  { destruct (decide (j = hashIndex + k)) as [->|]; [congruence|lia]. }
  split; [lia|].
  replace (j + 1 - hashIndex)
    with (String.length keyword + ((j - (hashIndex + k + 1)) + 1)) by lia.
  rewrite substring_app, Hstarts. f_equal.
  rewrite substring_app. unfold Str.slice.
  replace (hashIndex + String.length keyword) with (hashIndex + k + 1) by lia.
  f_equal.
  replace (hashIndex + k + 1 + (j - (hashIndex + k + 1))) with j by lia.
  now apply get_substring.
Qed.

Lemma sourceOf_snoc (tokens : list token) (t : token) :
  sourceOf (tokens ++ [t]) = sourceOf tokens +:+ tokenText t.
Proof.
  induction tokens as [|x tokens IH]; cbn [app sourceOf].
  - now rewrite append_empty, append_empty_r.
  - now rewrite IH, append_assoc.
Qed.

Lemma pushText_source (template : string) (tokens : list token)
    (start end_ : nat) :
  start <= end_ -> end_ <= String.length template ->
  Forall fullText tokens ->
  sourceOf (pushText template tokens start end_)
  = sourceOf tokens +:+ substring start (end_ - start) template
  /\ Forall fullText (pushText template tokens start end_).
Proof.
  intros Hle Hend Hfull. unfold pushText.
  destruct (start <? end_) eqn:Hlt.
  - apply Nat.ltb_lt in Hlt. rewrite sourceOf_snoc. split; [reflexivity|].
    apply Forall_app. split; [exact Hfull|].
    constructor; [|constructor]. cbn [fullText]. unfold Str.slice.
    apply substring_nonempty; lia.
  - apply Nat.ltb_ge in Hlt. replace (end_ - start) with 0 by lia.
    now rewrite substring_zero, append_empty_r.
Qed.

Lemma source_extend (template : string) (tokens : list token)
    (cursor hashIndex next : nat) (text : string) :
  sourceOf tokens = substring 0 cursor template ->
  cursor <= hashIndex -> hashIndex <= next ->
  text = substring hashIndex (next - hashIndex) template ->
  (sourceOf tokens +:+ substring cursor (hashIndex - cursor) template) +:+ text
  = substring 0 next template.
Proof.
  intros Hsource Hle Hnext ->. rewrite Hsource.
  replace next with (cursor + (hashIndex - cursor) + (next - hashIndex)) at 2
    by lia.
  rewrite !substring_app. cbn [Nat.add].
  replace (cursor + (hashIndex - cursor)) with hashIndex by lia.
  reflexivity.
Qed.

Lemma tokenize_loop_source (template : string) (fuel : nat) :
  forall (tokens : list token) (cursor : nat) (r : list token),
    sourceOf tokens = substring 0 cursor template ->
    Forall fullText tokens ->
    tokenize_loop fuel template tokens cursor = Some (Ok r) ->
    sourceOf r = template /\ Forall fullText r.
Proof.
  induction fuel as [|fuel IH]; intros tokens cursor r Hsource Hfull Hloop;
    [discriminate|].
  cbn [tokenize_loop] in Hloop.
  destruct (cursor <? String.length template) eqn:Hlt.
  2:{ injection Hloop as <-. apply Nat.ltb_ge in Hlt.
      split; [|exact Hfull]. rewrite Hsource. now apply substring_beyond. }
  apply Nat.ltb_lt in Hlt.
  destruct (Str.indexOf template "#" cursor) as [hashIndex|] eqn:Hidx.
  2:{ injection Hloop as <-.
      destruct (pushText_source template tokens cursor (String.length template))
        as [Hsrc Hall]; [lia|lia|exact Hfull|].
      split; [|exact Hall]. rewrite Hsrc, Hsource.
      rewrite <- (substring_app 0).
      apply substring_beyond. lia. }
  apply indexOf_found in Hidx as (Hle & Hhash & Hget).
  destruct (pushText_source template tokens cursor hashIndex)
    as [Hsrc Hall]; [lia|lia|exact Hfull|].
  cbv zeta in Hloop.
  set (tokens1 := pushText template tokens cursor hashIndex) in *.
  assert (Hadvance : forall (t : token) (next : nat),
             hashIndex <= next ->
             tokenText t = substring hashIndex (next - hashIndex) template ->
             fullText t ->
             tokenize_loop fuel template (tokens1 ++ [t]) next = Some (Ok r) ->
             sourceOf r = template /\ Forall fullText r).
  { intros t next Hnext Htext Ht Hrest.
    apply (IH (tokens1 ++ [t]) next r); [| |exact Hrest].
    - rewrite sourceOf_snoc, Hsrc. now apply source_extend.
    - apply Forall_app. split; [exact Hall|]. now repeat constructor. }
  destruct (Str.startsWith template "#set(" hashIndex) eqn:Hset.
  { destruct (readParenthesized template (hashIndex + 4))
      as [[content endIndex]|e] eqn:Hread; [|discriminate].
    destruct (directive_slice template "#set(" hashIndex 4 content endIndex
                eq_refl eq_refl Hset Hread) as [Hend Hslice].
    apply (Hadvance (TSet content) endIndex); [lia| |exact I|exact Hloop].
    now rewrite Hslice. }
  destruct (Str.startsWith template "#if(" hashIndex) eqn:Hif.
  { destruct (readParenthesized template (hashIndex + 3))
      as [[content endIndex]|e] eqn:Hread; [|discriminate].
    destruct (directive_slice template "#if(" hashIndex 3 content endIndex
                eq_refl eq_refl Hif Hread) as [Hend Hslice].
    apply (Hadvance (TIf content) endIndex); [lia| |exact I|exact Hloop].
    now rewrite Hslice. }
  destruct (Str.startsWith template "#elseif(" hashIndex) eqn:Helseif.
  { destruct (readParenthesized template (hashIndex + 7))
      as [[content endIndex]|e] eqn:Hread; [|discriminate].
    destruct (directive_slice template "#elseif(" hashIndex 7 content endIndex
                eq_refl eq_refl Helseif Hread) as [Hend Hslice].
    apply (Hadvance (TElseif content) endIndex); [lia| |exact I|exact Hloop].
    now rewrite Hslice. }
  destruct (Str.startsWith template "#else" hashIndex) eqn:Helse.
  { apply (Hadvance TElse (hashIndex + 5)); [lia| |exact I|exact Hloop].
    apply startsWith_substring in Helse.
    replace (hashIndex + 5 - hashIndex) with 5 by lia.
    now rewrite <- Helse at 1. }
  destruct (Str.startsWith template "#end" hashIndex) eqn:Hend.
  { apply (Hadvance TEnd (hashIndex + 4)); [lia| |exact I|exact Hloop].
    apply startsWith_substring in Hend.
    replace (hashIndex + 4 - hashIndex) with 4 by lia.
    now rewrite <- Hend at 1. }
  apply (Hadvance (TText "#") (hashIndex + 1)); [lia| |discriminate|exact Hloop].
  replace (hashIndex + 1 - hashIndex) with 1 by lia.
  symmetry. now apply get_substring.
Qed.

(** X11.  The tokenizer loses nothing: the texts of the tokens, put one
    after the other, are the template.  A text token is the copied
    text, a directive is its keyword and its body in parentheses, and
    no text token is empty. *)
Theorem tokenize_lossless (template : string) (tokens : list token) :
  tokenize template = Ok tokens ->
  sourceOf tokens = template /\ Forall fullText tokens.
Proof.
  intros Htok. pose proof (tokenize_run_total template) as Hrun.
  rewrite Htok in Hrun.
  apply (tokenize_loop_source template (S (String.length template)) [] 0 tokens);
    [now destruct template|constructor|exact Hrun].
Qed.

(** ** Fuel and errors of the tokenizer *)

Lemma tokenize_loop_mono (template : string) (fuel : nat) :
  forall (tokens : list token) (cursor : nat) (r : result (list token))
         (fuel' : nat),
    tokenize_loop fuel template tokens cursor = Some r ->
    fuel <= fuel' ->
    tokenize_loop fuel' template tokens cursor = Some r.
Proof.
  induction fuel as [|fuel IH]; intros tokens cursor r fuel' Hloop Hle;
    [discriminate|].
  destruct fuel' as [|fuel']; [lia|].
  cbn [tokenize_loop] in Hloop |- *.
  destruct (cursor <? String.length template); [|exact Hloop].
  destruct (Str.indexOf template "#" cursor) as [hashIndex|]; [|exact Hloop].
  cbv zeta in Hloop |- *.
  repeat match goal with
  | |- (if ?b then _ else _) = _ => destruct b
  | |- match readParenthesized ?t ?i with _ => _ end = _ =>
      destruct (readParenthesized t i) as [[? ?]|]; [|exact Hloop]
  end; (apply (IH _ _ _ _ Hloop); lia).
Qed.

(** X12.  The loop of [tokenize] ends: one round more than the template
    has characters is enough, and with more rounds allowed the result
    is the same. *)
Theorem tokenize_fuel_independent (template : string) (fuel : nat) :
  String.length template < fuel ->
  tokenize_loop fuel template [] 0 = Some (tokenize template).
Proof.
  intros Hfuel.
  apply (tokenize_loop_mono template (S (String.length template)));
    [apply tokenize_run_total|lia].
Qed.

Lemma tokenize_loop_unterminated (template : string) (fuel : nat) (e : error) :
  forall (tokens : list token) (cursor : nat),
    tokenize_loop fuel template tokens cursor = Some (Throw e) ->
    exists (hashIndex : nat) (keyword : string),
      (keyword = "#set(" \/ keyword = "#if(" \/ keyword = "#elseif(")
      /\ Str.startsWith template keyword hashIndex = true
      /\ e = UnterminatedDirective (hashIndex + String.length keyword - 1).
Proof.
  induction fuel as [|fuel IH]; intros tokens cursor Hloop; [discriminate|].
  cbn [tokenize_loop] in Hloop.
  destruct (cursor <? String.length template); [|discriminate].
  destruct (Str.indexOf template "#" cursor) as [hashIndex|]; [|discriminate].
  cbv zeta in Hloop.
  destruct (Str.startsWith template "#set(" hashIndex) eqn:Hset.
  { destruct (readParenthesized template (hashIndex + 4))
      as [[content endIndex]|e'] eqn:Hread; [now apply IH in Hloop|].
    injection Hloop as ->. apply readParenthesized_from_error in Hread as ->.
    exists hashIndex, "#set(". split; [auto|]. split; [exact Hset|].
    f_equal. cbn [String.length]. lia. }
  destruct (Str.startsWith template "#if(" hashIndex) eqn:Hif.
  { destruct (readParenthesized template (hashIndex + 3))
      as [[content endIndex]|e'] eqn:Hread; [now apply IH in Hloop|].
    injection Hloop as ->. apply readParenthesized_from_error in Hread as ->.
    exists hashIndex, "#if(". split; [auto|]. split; [exact Hif|].
    f_equal. cbn [String.length]. lia. }
  destruct (Str.startsWith template "#elseif(" hashIndex) eqn:Helseif.
  { destruct (readParenthesized template (hashIndex + 7))
      as [[content endIndex]|e'] eqn:Hread; [now apply IH in Hloop|].
    injection Hloop as ->. apply readParenthesized_from_error in Hread as ->.
    exists hashIndex, "#elseif(". split; [auto|]. split; [exact Helseif|].
    f_equal. cbn [String.length]. lia. }
  destruct (Str.startsWith template "#else" hashIndex);
    [now apply IH in Hloop|].
  destruct (Str.startsWith template "#end" hashIndex);
    now apply IH in Hloop.
Qed.

(** X13.  [tokenize] fails in one way only: with the error of an
    unterminated directive, whose index is that of the opening
    parenthesis of a [#set(], [#if(] or [#elseif(] in the template. *)
Theorem tokenize_fails_unterminated (template : string) (e : error) :
  tokenize template = Throw e ->
  exists (hashIndex : nat) (keyword : string),
    (keyword = "#set(" \/ keyword = "#if(" \/ keyword = "#elseif(")
    /\ Str.startsWith template keyword hashIndex = true
    /\ e = UnterminatedDirective (hashIndex + String.length keyword - 1).
Proof.
  intros Htok. pose proof (tokenize_run_total template) as Hrun.
  rewrite Htok in Hrun. now apply tokenize_loop_unterminated in Hrun.
Qed.

(** ** Reading a parenthesised body *)

Lemma readParenthesized_from_body (template : string) (startIndex : nat)
    (post : string) (body : string) :
  forall (d i : nat) (depth : Z),
    depth = (Z.of_nat d + 1)%Z ->
    balancedFrom d body = true ->
    readParenthesized_from template startIndex (body +:+ ")" +:+ post) i depth
    = Ok (Str.slice template (startIndex + 1) (i + String.length body),
          i + String.length body + 1).
Proof.
  induction body as [|c body IH]; intros d i depth Hdepth Hbal.
  - cbn [balancedFrom] in Hbal. apply Nat.eqb_eq in Hbal as ->.
    rewrite append_empty. change (")" +:+ post) with (String ")" post).
    cbn [readParenthesized_from Ascii.eqb Bool.eqb String.length].
    replace (depth - 1 =? 0)%Z with true by (symmetry; lia).
    now rewrite Nat.add_0_r.
  - rewrite append_cons. cbn [readParenthesized_from].
    cbn [balancedFrom] in Hbal. cbn [String.length].
    replace (i + S (String.length body)) with (S i + String.length body)
      by lia.
    destruct (Ascii.eqb c "(").
    + apply (IH (S d)); [lia|exact Hbal].
    + destruct (Ascii.eqb c ")"); [|now apply (IH d)].
      destruct d as [|d]; [discriminate|].
      replace (depth - 1 =? 0)%Z with false by (symmetry; lia).
      apply (IH d); [lia|exact Hbal].
Qed.

Lemma drop_append (a b : string) : Str.drop (String.length a) (a +:+ b) = b.
Proof.
  induction a as [|c a IH]; [rewrite append_empty; now destruct b|].
  rewrite append_cons. exact IH.
Qed.

Lemma substring_prefix (b c : string) :
  substring 0 (String.length b) (b +:+ c) = b.
Proof.
  induction b as [|x b IH]; [rewrite append_empty; apply substring_zero|].
  rewrite append_cons. cbn [String.length substring]. now rewrite IH.
Qed.

Lemma substring_middle (a b c : string) :
  substring (String.length a) (String.length b) (a +:+ b +:+ c) = b.
Proof.
  induction a as [|x a IH]; [rewrite append_empty; apply substring_prefix|].
  rewrite append_cons. exact IH.
Qed.

Lemma readParenthesized_from_open (template : string) (startIndex : nat)
    (body : string) :
  forall (i : nat) (depth : Z),
    (0 < depth)%Z ->
    Str.forall_ (fun c => negb (Ascii.eqb c ")")) body = true ->
    readParenthesized_from template startIndex body i depth
    = Throw (UnterminatedDirective startIndex).
Proof.
  induction body as [|c body IH]; intros i depth Hdepth Hopen; [reflexivity|].
  cbn [Str.forall_] in Hopen. apply andb_true_iff in Hopen as [Hc Hopen].
  apply negb_true_iff in Hc. cbn [readParenthesized_from]. rewrite Hc.
  destruct (Ascii.eqb c "("); apply IH; auto; lia.
Qed.

Lemma readParenthesized_body (pre body post : string) :
  (wellNested body ->
   readParenthesized (pre +:+ "(" +:+ body +:+ ")" +:+ post)
     (String.length pre)
   = Ok (body, String.length pre + String.length body + 2))
  /\ (Str.forall_ (fun c => negb (Ascii.eqb c ")")) body = true ->
      readParenthesized (pre +:+ "(" +:+ body) (String.length pre)
      = Throw (UnterminatedDirective (String.length pre))).
Proof.
  split.
  - intros Hbody. unfold readParenthesized. rewrite drop_append.
    change ("(" +:+ ?x) with (String "(" x).
    cbn [readParenthesized_from Ascii.eqb Bool.eqb].
    rewrite (readParenthesized_from_body _ _ post body 0 _ _ eq_refl Hbody).
    f_equal. f_equal; [|lia].
    unfold Str.slice.
    replace (S (String.length pre) + String.length body
             - (String.length pre + 1)) with (String.length body) by lia.
    change (String "(" (body +:+ ")" +:+ post))
      with ("(" +:+ (body +:+ (")" +:+ post))).
    rewrite <- (append_assoc pre "(").
    replace (String.length pre + 1) with (String.length (pre +:+ "("))
      by (rewrite length_append; reflexivity).
    apply substring_middle.
  - intros Hopen. unfold readParenthesized. rewrite drop_append.
    change ("(" +:+ ?x) with (String "(" x).
    cbn [readParenthesized_from Ascii.eqb Bool.eqb].
    apply readParenthesized_from_open; [lia|exact Hopen].
Qed.

(** X14.  [readParenthesized] finds the parenthesis that closes the one
    it starts at.  On a template that holds, after [pre], a body with
    well-nested parentheses between a pair of parentheses, it returns
    that body and the index just after the closing parenthesis; when
    nothing after the opening parenthesis is a closing one, it fails
    and reports the index it started at. *)
Theorem readParenthesized_roundtrip (pre body post : string) :
  (wellNested body ->
   readParenthesized (pre +:+ "(" +:+ body +:+ ")" +:+ post)
     (String.length pre)
   = Ok (body, String.length pre + String.length body + 2))
  /\ (Str.forall_ (fun c => negb (Ascii.eqb c ")")) body = true ->
      readParenthesized (pre +:+ "(" +:+ body) (String.length pre)
      = Throw (UnterminatedDirective (String.length pre))).
Proof. apply readParenthesized_body. Qed.

Lemma tokenize_loop_done (fuel : nat) (template : string)
    (tokens : list token) (cursor : nat) :
  0 < fuel ->
  String.length template <= cursor ->
  tokenize_loop fuel template tokens cursor = Some (Ok tokens).
Proof.
  intros Hfuel Hend. destruct fuel as [|fuel]; [lia|]. cbn [tokenize_loop].
  now replace (cursor <? String.length template) with false
    by (symmetry; apply Nat.ltb_ge; lia).
Qed.

(** One round of the loop on a directive with a body. *)
Lemma tokenize_loop_set (fuel : nat) (template : string)
    (tokens : list token) (cursor hashIndex : nat)
    (content : string) (endIndex : nat) :
  cursor < String.length template ->
  Str.indexOf template "#" cursor = Some hashIndex ->
  Str.startsWith template "#set(" hashIndex = true ->
  readParenthesized template (hashIndex + 4) = Ok (content, endIndex) ->
  tokenize_loop (S fuel) template tokens cursor
  = tokenize_loop fuel template
      (pushText template tokens cursor hashIndex ++ [TSet content]) endIndex.
Proof.
  intros Hlt Hidx Hset Hread. cbn [tokenize_loop].
  apply Nat.ltb_lt in Hlt. now rewrite Hlt, Hidx, Hset, Hread.
Qed.

Lemma tokenize_loop_if (fuel : nat) (template : string)
    (tokens : list token) (cursor hashIndex : nat)
    (content : string) (endIndex : nat) :
  cursor < String.length template ->
  Str.indexOf template "#" cursor = Some hashIndex ->
  Str.startsWith template "#set(" hashIndex = false ->
  Str.startsWith template "#if(" hashIndex = true ->
  readParenthesized template (hashIndex + 3) = Ok (content, endIndex) ->
  tokenize_loop (S fuel) template tokens cursor
  = tokenize_loop fuel template
      (pushText template tokens cursor hashIndex ++ [TIf content]) endIndex.
Proof.
  intros Hlt Hidx Hset Hif Hread. cbn [tokenize_loop].
  apply Nat.ltb_lt in Hlt. now rewrite Hlt, Hidx, Hset, Hif, Hread.
Qed.

Lemma tokenize_loop_elseif (fuel : nat) (template : string)
    (tokens : list token) (cursor hashIndex : nat)
    (content : string) (endIndex : nat) :
  cursor < String.length template ->
  Str.indexOf template "#" cursor = Some hashIndex ->
  Str.startsWith template "#set(" hashIndex = false ->
  Str.startsWith template "#if(" hashIndex = false ->
  Str.startsWith template "#elseif(" hashIndex = true ->
  readParenthesized template (hashIndex + 7) = Ok (content, endIndex) ->
  tokenize_loop (S fuel) template tokens cursor
  = tokenize_loop fuel template
      (pushText template tokens cursor hashIndex ++ [TElseif content])
      endIndex.
Proof.
  intros Hlt Hidx Hset Hif Helseif Hread. cbn [tokenize_loop].
  apply Nat.ltb_lt in Hlt. now rewrite Hlt, Hidx, Hset, Hif, Helseif, Hread.
Qed.

Lemma startsWith_append (keyword rest : string) :
  Str.startsWith (keyword +:+ rest) keyword 0 = true.
Proof.
  unfold Str.startsWith. cbn [Str.drop].
  apply prefix_correct, substring_prefix.
Qed.

Lemma startsWith_differs (s keyword : string) :
  substring 0 (String.length keyword) s <> keyword ->
  Str.startsWith s keyword 0 = false.
Proof.
  intros Hne. unfold Str.startsWith. cbn [Str.drop].
  destruct (String.prefix keyword s) eqn:Hp; [|reflexivity].
  now apply prefix_correct in Hp.
Qed.

Lemma directive_length (keyword content : string) :
  String.length (keyword +:+ content +:+ ")")
  = String.length keyword + String.length content + 1.
Proof. rewrite !length_append. cbn [String.length]. lia. Qed.

(** X15.  A directive on its own is read back as one token: for a body
    with well-nested parentheses, the keyword, the body in parentheses
    and nothing else tokenizes to the token of that keyword with that
    body. *)
Theorem tokenize_directive (content : string) :
  wellNested content ->
  tokenize ("#set(" +:+ content +:+ ")") = Ok [TSet content]
  /\ tokenize ("#if(" +:+ content +:+ ")") = Ok [TIf content]
  /\ tokenize ("#elseif(" +:+ content +:+ ")") = Ok [TElseif content].
Proof.
  intros Hbody.
  pose proof (readParenthesized_body "#set" content "") as [Hset _].
  pose proof (readParenthesized_body "#if" content "") as [Hif _].
  pose proof (readParenthesized_body "#elseif" content "") as [Helseif _].
  specialize (Hset Hbody). specialize (Hif Hbody). specialize (Helseif Hbody).
  assert (Hshape : forall keyword : string,
             keyword +:+ "(" +:+ content +:+ ")" +:+ ""
             = (keyword +:+ "(") +:+ content +:+ ")").
  { intros keyword. now rewrite append_empty_r, append_assoc. }
  rewrite Hshape in Hset, Hif, Helseif.
  change ("#set" +:+ "(") with "#set(" in Hset.
  change ("#if" +:+ "(") with "#if(" in Hif.
  change ("#elseif" +:+ "(") with "#elseif(" in Helseif.
  split; [|split]; unfold tokenize, tokenize_run.
  - pose proof (directive_length "#set(" content) as Hlen.
    remember ("#set(" +:+ content +:+ ")") as template eqn:Htemplate.
    cbn [String.length] in Hlen, Hset.
    rewrite (tokenize_loop_set _ template [] 0 0 content
               (4 + String.length content + 2)).
    + rewrite tokenize_loop_done by lia. reflexivity.
    + lia.
    + subst template. reflexivity.
    + subst template. apply startsWith_append.
    + exact Hset.
  - pose proof (directive_length "#if(" content) as Hlen.
    remember ("#if(" +:+ content +:+ ")") as template eqn:Htemplate.
    cbn [String.length] in Hlen, Hif.
    rewrite (tokenize_loop_if _ template [] 0 0 content
               (3 + String.length content + 2)).
    + rewrite tokenize_loop_done by lia. reflexivity.
    + lia.
    + subst template. reflexivity.
    + subst template. apply startsWith_differs.
      rewrite !append_cons. discriminate.
    + subst template. apply startsWith_append.
    + exact Hif.
  - pose proof (directive_length "#elseif(" content) as Hlen.
    remember ("#elseif(" +:+ content +:+ ")") as template eqn:Htemplate.
    cbn [String.length] in Hlen, Helseif.
    rewrite (tokenize_loop_elseif _ template [] 0 0 content
               (7 + String.length content + 2)).
    + rewrite tokenize_loop_done by lia. reflexivity.
    + lia.
    + subst template. reflexivity.
    + subst template. apply startsWith_differs.
      rewrite !append_cons. discriminate.
    + subst template. apply startsWith_differs.
      rewrite !append_cons. discriminate.
    + subst template. apply startsWith_append.
    + exact Helseif.
Qed.

(** ** Contexts built from the same mapping *)

Lemma renderToken_sim (c c' : loc) (t : token) (frameStack : list frame)
    (output : list string) (h h' : heap) :
  h !! c = h' !! c' ->
  (renderToken c t frameStack output h).1
  = (renderToken c' t frameStack output h').1
  /\ (renderToken c t frameStack output h).2 !! c
     = (renderToken c' t frameStack output h').2 !! c'.
Proof.
  intros Hsame.
  assert (Hload : default ∅ (h' !! c') = default ∅ (h !! c))
    by now rewrite Hsame.
  destruct t; cbn [renderToken]; run_M.
  - destruct (isFrameActive frameStack); cbn [fst snd];
      rewrite ?Hload; now split.
  - destruct (negb (isFrameActive frameStack)); [now split|].
    destruct (matchSet content) as [[variableName expression]|]; [|now split].
    destruct (negb (hasOwnProperty BUILT_INS variableName)); [|now split].
    cbv beta. rewrite Hload.
    destruct (evaluateExpression expression (default ∅ (h !! c)));
      [|now split].
    cbn [fst snd]. split; [reflexivity|].
    now rewrite !lookup_alter_eq, Hsame.
  - destruct (isFrameActive frameStack); [|now split].
    cbv beta. rewrite Hload.
    now destruct (evaluateExpression content (default ∅ (h !! c))).
  - destruct (last frameStack) as [top|]; [|now split].
    destruct (negb (parentActive top)); [now split|].
    destruct (branchSatisfied top); [now split|].
    cbv beta. rewrite Hload.
    now destruct (evaluateExpression content (default ∅ (h !! c))).
  - now destruct (last frameStack).
  - now destruct (last frameStack).
Qed.

Lemma renderTokens_sim (c c' : loc) (tokens : list token) :
  forall (frameStack : list frame) (output : list string) (h h' : heap),
    h !! c = h' !! c' ->
    (renderTokens c tokens frameStack output h).1
    = (renderTokens c' tokens frameStack output h').1.
Proof.
  induction tokens as [|t tokens IH]; intros frameStack output h h' Hsame;
    [reflexivity|].
  cbn [renderTokens]. unfold mbind, M_bind.
  destruct (renderToken_sim c c' t frameStack output h h' Hsame)
    as [Hres Hheap].
  destruct (renderToken c t frameStack output h) as [r1 h1].
  destruct (renderToken c' t frameStack output h') as [r1' h1'].
  cbn [fst snd] in Hres, Hheap. subst r1'.
  destruct r1 as [[fs out]|e]; [|reflexivity].
  now apply IH.
Qed.

Lemma createContext_mapping (userContext : option loc) (h : heap)
    (user : object) :
  mappingOf userContext h = Some user ->
  exists (context : loc) (h1 : heap),
    createContext userContext h = (Ok context, h1)
    /\ h1 !! context = Some (contextOf user)
    /\ h !! context = None
    /\ (forall l : loc, is_Some (h !! l) -> h1 !! l = h !! l).
Proof.
  intros Hmap.
  destruct (createContext_spec userContext h)
    as (context & h1 & user0 & Hcreate & Hfresh & Hctx & Hkeep & Hsome & Hnone).
  exists context, h1. split; [exact Hcreate|].
  split; [|split; [exact Hfresh|exact Hkeep]].
  destruct userContext as [l|]; cbn [mappingOf] in Hmap.
  - now rewrite <- (Hsome l user eq_refl Hmap).
  - injection Hmap as <-. now rewrite <- (Hnone eq_refl).
Qed.

Lemma render_result_of_mapping (template : string)
    (userContext userContext' : option loc) (h h' : heap) (user : object) :
  mappingOf userContext h = Some user ->
  mappingOf userContext' h' = Some user ->
  (render template userContext h).1 = (render template userContext' h').1.
Proof.
  intros Hmap Hmap'.
  destruct (createContext_mapping _ _ _ Hmap) as (c & h1 & Hcreate & Hctx & _).
  destruct (createContext_mapping _ _ _ Hmap')
    as (c' & h1' & Hcreate' & Hctx' & _).
  unfold render.
  rewrite (bind_Ok _ _ h h1 c Hcreate), (bind_Ok _ _ h' h1' c' Hcreate').
  unfold mbind at 1 3, M_bind at 1 3, lift.
  destruct (tokenize template) as [tokens|e]; [|reflexivity].
  unfold mbind, M_bind.
  assert (Hsim : (renderTokens c tokens [] [] h1).1
                 = (renderTokens c' tokens [] [] h1').1)
    by (apply renderTokens_sim; congruence).
  destruct (renderTokens c tokens [] [] h1) as [r h2].
  destruct (renderTokens c' tokens [] [] h1') as [r' h2'].
  cbn [fst] in Hsim. subst r'.
  destruct r as [[fs out]|e]; [|reflexivity].
  now destruct (0 <? length fs).
Qed.

(** ** The external renderer *)

Lemma builtin_asValue (template : string) (userContext : option loc)
    (h : heap) :
  ((s ← render template userContext; mret (VString s)) h).1
  = asValue (render template userContext h).1.
Proof.
  unfold mbind, M_bind.
  now destruct (render template userContext h) as [[s|e] h1].
Qed.

(** X18.  What [renderTemplate] returns when the external renderer is
    installed.  With [preferVelocity] set, the renderer is called on the
    template and on a context built from the caller's mapping: a value
    other than [null] and [undefined] is returned as it is, [null] and
    [undefined] give way to the result of the builtin [render] on the
    same template and mapping.  With [preferVelocity] unset the result
    is that of the builtin [render]. *)
Theorem renderTemplate_with_velocity
    (velocityRender : string -> object -> completion)
    (template : string) (userContext : option loc) (h : heap)
    (user : object) :
  velocityEngine = Some velocityRender ->
  mappingOf userContext h = Some user ->
  (forall v : value,
      velocityRender template (contextOf user) = Returns v ->
      (renderTemplate template userContext true h).1
      = match v with
        | VNull | VUndefined => asValue (render template userContext h).1
        | _ => Ok v
        end)
  /\ (renderTemplate template userContext false h).1
     = asValue (render template userContext h).1.
Proof.
  intros Hengine Hmap. split; [|apply builtin_asValue].
  intros v Hreturns.
  destruct (createContext_mapping _ _ _ Hmap)
    as (context & h1 & Hcreate & Hctx & _ & Hkeep).
  assert (Hvelocity : renderWithVelocity template userContext h = (Ok v, h1)).
  { unfold renderWithVelocity. rewrite Hengine.
    rewrite (bind_Ok _ _ h h1 context Hcreate).
    unfold mbind, M_bind, load. rewrite Hctx.
    change (default ∅ (Some ?o)) with o. now rewrite Hreturns. }
  assert (Hfallback : ((s ← render template userContext; mret (VString s)) h1).1
                      = asValue (render template userContext h).1).
  { rewrite builtin_asValue. f_equal.
    apply render_result_of_mapping with (user := user); [|exact Hmap].
    destruct userContext as [l|]; [|exact Hmap].
    cbn [mappingOf] in Hmap |- *. rewrite Hkeep; [exact Hmap|eauto]. }
  unfold renderTemplate. rewrite (bind_Ok _ _ h h1 v Hvelocity).
  destruct v; try reflexivity; exact Hfallback.
Qed.

(** ** Blocks inside active blocks *)

Lemma isFrameActive_under (under stack : list frame) :
  isFrameActive under = true ->
  isFrameActive (under ++ stack) = isFrameActive stack.
Proof.
  intros Hunder. unfold isFrameActive in *. now rewrite forallb_app, Hunder.
Qed.

Lemma renderToken_under (context : loc) (t : token)
    (under stack : list frame) (output : list string) (h : heap) :
  isFrameActive under = true ->
  staysInside (length stack) [t] = true ->
  renderToken context t (under ++ stack) output h
  = onTopOf under (renderToken context t stack output h).
Proof.
  intros Hunder Hin.
  assert (Htop : isLaterBranch t = true \/ t = TEnd ->
                 exists below top, stack = below ++ [top]).
  { intros Ht. destruct stack as [|f stack _] using rev_ind; [|eauto].
    destruct Ht as [Ht| ->]; [destruct t|]; discriminate. }
  destruct t; cbn [renderToken]; rewrite ?(isFrameActive_under _ _ Hunder).
  - destruct (isFrameActive stack); reflexivity.
  - destruct (negb (isFrameActive stack)); [reflexivity|].
    destruct (matchSet content) as [[variableName expression]|]; [|reflexivity].
    destruct (negb (hasOwnProperty BUILT_INS variableName)); [|reflexivity].
    run_M. now destruct (evaluateExpression _ _).
  - run_M. destruct (isFrameActive stack).
    + destruct (evaluateExpression _ _); [|reflexivity].
      cbn [onTopOf]. now rewrite List.app_assoc.
    + cbn [onTopOf]. now rewrite List.app_assoc.
  - destruct Htop as (below & top & ->); [now left|].
    rewrite List.app_assoc, !last_snoc. run_M.
    destruct (negb (parentActive top));
      [now rewrite !setTop_snoc, <- List.app_assoc|].
    destruct (branchSatisfied top);
      [now rewrite !setTop_snoc, <- List.app_assoc|].
    destruct (evaluateExpression _ _); [|reflexivity].
    now rewrite !setTop_snoc, <- List.app_assoc.
  - destruct Htop as (below & top & ->); [now left|].
    rewrite List.app_assoc, !last_snoc. run_M.
    now rewrite !setTop_snoc, <- List.app_assoc.
  - destruct Htop as (below & top & ->); [now right|].
    rewrite List.app_assoc, !last_snoc. run_M.
    now rewrite !removelast_last.
Qed.

Lemma staysInside_step (t : token) (rest : list token)
    (stack stack' : list frame) :
  staysInside (length stack) (t :: rest) = true ->
  Z.of_nat (length stack') = (Z.of_nat (length stack) + depthChange [t])%Z ->
  staysInside (length stack) [t] = true
  /\ staysInside (length stack') rest = true.
Proof.
  intros Hin Hlen. destruct t; cbn [staysInside depthChange] in *.
  - split; [reflexivity|]. now replace (length stack') with (length stack) by lia.
  - split; [reflexivity|]. now replace (length stack') with (length stack) by lia.
  - split; [reflexivity|].
    now replace (length stack') with (S (length stack)) by lia.
  - destruct (length stack) as [|d] eqn:Hd; [discriminate|].
    split; [reflexivity|]. now replace (length stack') with (S d) by lia.
  - destruct (length stack) as [|d] eqn:Hd; [discriminate|].
    split; [reflexivity|]. now replace (length stack') with (S d) by lia.
  - destruct (length stack) as [|d] eqn:Hd; [discriminate|].
    split; [reflexivity|]. now replace (length stack') with d by lia.
Qed.

Lemma renderTokens_under (context : loc) (under : list frame)
    (tokens : list token) :
  isFrameActive under = true ->
  forall (stack : list frame) (output : list string) (h : heap),
    staysInside (length stack) tokens = true ->
    renderTokens context tokens (under ++ stack) output h
    = onTopOf under (renderTokens context tokens stack output h).
Proof.
  intros Hunder. induction tokens as [|t tokens IH];
    intros stack output h Hin; [reflexivity|].
  cbn [renderTokens]. unfold mbind, M_bind.
  destruct (renderToken context t stack output h)
    as [[[fs1 out1]|e] h1] eqn:Hstep.
  - pose proof (renderToken_depth _ _ _ _ _ _ _ _ Hstep) as Hdepth.
    destruct (staysInside_step _ _ _ _ Hin Hdepth) as [Ht Hrest].
    rewrite (renderToken_under _ _ _ _ _ _ Hunder Ht), Hstep.
    cbn [onTopOf]. now apply IH.
  - assert (Ht : staysInside (length stack) [t] = true).
    { destruct t; cbn [staysInside] in *; try reflexivity;
        now destruct (length stack). }
    now rewrite (renderToken_under _ _ _ _ _ _ Hunder Ht), Hstep.
Qed.

(** X19.  Frames that are all active do not matter to the tokens above
    them.  A run of tokens that stay inside the blocks they open, or
    that close no more than the frames of [stack], goes the same on
    [stack] alone and on [stack] put on top of active frames: the same
    output, the same heap, the same error, and the same frames left on
    top. *)
Theorem active_frames_are_transparent (context : loc)
    (under stack : list frame) (tokens : list token)
    (output : list string) (h : heap) :
  isFrameActive under = true ->
  staysInside (length stack) tokens = true ->
  renderTokens context tokens (under ++ stack) output h
  = onTopOf under (renderTokens context tokens stack output h).
Proof. intros Hunder Hin. now apply renderTokens_under. Qed.

(** ** Integer arithmetic in the context *)

Lemma normalizeValue_integral (v : value) : integral (normalizeValue v).
Proof.
  destruct v as [| |b|n|s|]; try exact I.
  unfold normalizeValue. destruct (Num.isInteger n) eqn:Hint.
  - cbn [integral]. now left.
  - cbn [integral]. destruct (Num.isFinite n) eqn:Hfin.
    + left. now apply trunc_isInteger.
    + right. now destruct n.
Qed.

Lemma preserves_store_integral (c : loc) (key : string) (v : value) :
  integral v -> preserves (holdsIntegral c) (store c key v).
Proof.
  intros Hv h (o & Ho & Hall). exists (<[key := v]> o). split.
  - cbn [store snd]. now rewrite lookup_alter_eq, Ho.
  - intros k w Hk. destruct (decide (key = k)) as [->|Hne].
    + rewrite lookup_insert_eq in Hk. now injection Hk as <-.
    + rewrite lookup_insert_ne in Hk by done. now apply (Hall k).
Qed.

Lemma renderToken_holdsIntegral (context : loc) (t : token)
    (frameStack : list frame) (output : list string) :
  preserves (holdsIntegral context)
    (renderToken context t frameStack output).
Proof.
  destruct t; cbn [renderToken];
    repeat first
      [ apply preserves_pure; reflexivity
      | apply preserves_store_integral; apply normalizeValue_integral
      | apply preserves_bind; [|intros ?]
      | match goal with
        | |- preserves _ (if ?b then _ else _) => destruct b
        | |- preserves _ (match ?x with _ => _ end) => destruct x
        end ].
Qed.

Lemma renderTokens_holdsIntegral (context : loc) (tokens : list token) :
  forall (frameStack : list frame) (output : list string),
    preserves (holdsIntegral context)
      (renderTokens context tokens frameStack output).
Proof.
  induction tokens as [|t tokens IH]; intros frameStack output;
    cbn [renderTokens].
  - now apply preserves_pure.
  - apply preserves_bind; [apply renderToken_holdsIntegral|].
    intros [fs out]. apply IH.
Qed.

Lemma contextOf_integral (user : object) :
  integralObject user -> integralObject (contextOf user).
Proof.
  intros Huser key v Hkey. destruct (decide (key = "Integer")) as [->|Hne].
  - rewrite contextOf_Integer in Hkey. now injection Hkey as <-.
  - rewrite contextOf_other in Hkey by done. now apply (Huser key).
Qed.


(** ** The script of an expression, and fresh contexts *)

(** X23.  How [evaluateExpression] writes the script that it hands to
    the engine, piece by piece.  Text without a dollar sign is copied.
    A reference [$name] that is followed by the end of the expression
    or by a character that cannot continue a name becomes a call of the
    resolver on the quoted name.  A dollar sign that no name follows is
    copied. *)
Theorem evaluateExpression_script (rest : string) :
  (forall plain : string,
      Str.forall_ (fun a => negb (Ascii.eqb a "$")) plain = true ->
      replaced (plain +:+ rest) = plain +:+ replaced rest)
  /\ (forall name : string,
        identifier name -> stopsAt Chars.isWord rest ->
        replaced ("$" +:+ name +:+ rest)
        = ("__resolve(" +:+ dquote +:+ name +:+ dquote +:+ ")")
          +:+ replaced rest)
  /\ (stopsAt Chars.isIdentStart rest ->
      replaced ("$" +:+ rest) = "$" +:+ replaced rest).
Proof.
  split; [|split].
  - intros plain Hplain. unfold replaced. now apply replaceVariables_prefix.
  - intros name Hid Hstop. unfold replaced.
    now rewrite (replaceVariables_reference _ _ _ Hid Hstop).
  - intros Hstop. unfold replaced. now apply replaceVariables_dollar.
Qed.

Lemma contextOf_empty : contextOf ∅ = BUILT_INS.
Proof. unfold contextOf. now rewrite map_to_list_empty. Qed.

(** X24.  Every call of [createContext] returns an object of its own.
    The object is new in the heap; a second call returns another object,
    with the same properties, and leaves the first as it is; and a call
    without a mapping builds a context that holds the builtins and
    nothing else. *)
Theorem createContext_fresh_each_time (userContext : option loc) (h : heap)
    (user : object) :
  mappingOf userContext h = Some user ->
  exists (context context' : loc) (h1 h2 : heap),
    createContext userContext h = (Ok context, h1)
    /\ createContext userContext h1 = (Ok context', h2)
    /\ h !! context = None
    /\ context' <> context
    /\ h2 !! context = h1 !! context
    /\ h2 !! context' = h1 !! context
    /\ (userContext = None -> h1 !! context = Some BUILT_INS).
Proof.
  intros Hmap.
  destruct (createContext_mapping _ _ _ Hmap)
    as (context & h1 & Hcreate & Hctx & Hfresh & Hkeep).
  assert (Hmap1 : mappingOf userContext h1 = Some user).
  { destruct userContext as [l|]; [|exact Hmap].
    cbn [mappingOf] in Hmap |- *. rewrite Hkeep; [exact Hmap|eauto]. }
  destruct (createContext_mapping _ _ _ Hmap1)
    as (context' & h2 & Hcreate' & Hctx' & Hfresh' & Hkeep').
  exists context, context', h1, h2.
  split; [exact Hcreate|]. split; [exact Hcreate'|]. split; [exact Hfresh|].
  split; [congruence|]. split; [apply Hkeep'; eauto|].
  split; [congruence|].
  intros ->. cbn [mappingOf] in Hmap. injection Hmap as <-.
  now rewrite Hctx, contextOf_empty.
Qed.


(** ** References in text *)

Lemma forall_append (p : ascii -> bool) (a b : string) :
  Str.forall_ p (a +:+ b) = Str.forall_ p a && Str.forall_ p b.
Proof.
  induction a as [|c a IH]; [now rewrite append_empty|].
  rewrite append_cons. cbn [Str.forall_]. rewrite IH. apply andb_assoc.
Qed.

Lemma word_not_hash (c : ascii) :
  Chars.isWord c = true -> negb (Ascii.eqb c "#") = true.
Proof.
  intros Hword. destruct (Ascii.eqb c "#") eqn:Hc; [|reflexivity].
  apply Ascii.eqb_eq in Hc. subst c. discriminate.
Qed.

Lemma identifier_no_hash (name : string) :
  identifier name ->
  Str.forall_ (fun a => negb (Ascii.eqb a "#")) name = true.
Proof.
  intros (c & rest & -> & Hstart & Hrest). cbn [Str.forall_].
  rewrite (word_not_hash c (identStart_word c Hstart)). cbn [andb].
  induction rest as [|a rest IH]; [reflexivity|].
  cbn [Str.forall_] in Hrest |- *.
  apply andb_true_iff in Hrest as [Ha Hrest].
  now rewrite (word_not_hash a Ha), IH.
Qed.

Lemma render_plain_mapping (template : string) (userContext : option loc)
    (h : heap) (user : object) :
  mappingOf userContext h = Some user ->
  Str.forall_ (fun a => negb (Ascii.eqb a "#")) template = true ->
  (render template userContext h).1
  = Ok (interpolate template (contextOf user)).
Proof.
  intros Hmap Hplain.
  destruct (createContext_mapping _ _ _ Hmap) as (c & h1 & Hcreate & Hctx & _).
  unfold render. rewrite (bind_Ok _ _ h h1 c Hcreate).
  rewrite (tokenize_plain _ Hplain).
  erewrite bind_Ok by reflexivity.
  destruct template as [|a template]; [reflexivity|].
  cbn [Str.isEmpty renderTokens renderToken isFrameActive forallb].
  run_M. rewrite Hctx. reflexivity.
Qed.


End Compiler.

(** ** Concrete inputs *)

Abbreviation sampleToken :=
  (renderToken Sample.runInNewContext Sample.Number_ofString
     Sample.Number_toString).

Abbreviation sampleTokens :=
  (renderTokens Sample.runInNewContext Sample.Number_ofString
     Sample.Number_toString).

Abbreviation sampleRender :=
  (render Sample.runInNewContext Sample.Number_ofString
     Sample.Number_toString).

(** C1.  The code does not tolerate white space between a keyword and
    its parenthesis.  [#if(1)x#end] is an [#if], a text and an [#end], and
    renders [x]; [#if (1)x#end] is two texts and an [#end], and its
    rendering fails, whatever the runtime and the context.  In the same
    way [#set (...)] is copied as text, and [#elseif (...)] is read as
    an [#else] followed by text. *)
Theorem directive_space_not_tolerated :
  tokenize "#if(1)x#end" = Ok [TIf "1"; TText "x"; TEnd]
  /\ tokenize "#if (1)x#end" = Ok [TText "#"; TText "if (1)x"; TEnd]
  /\ tokenize "#set ($v = 1)" = Ok [TText "#"; TText "set ($v = 1)"]
  /\ tokenize "#if(0)a#elseif (1)b#end"
     = Ok [TIf "0"; TText "a"; TElse; TText "if (1)b"; TEnd]
  /\ (sampleRender "#if(1)x#end" None ∅).1 = Ok "x"
  /\ (forall (runInNewContext : string -> (string -> value) -> completion)
             (Number_ofString : string -> number)
             (Number_toString : number -> string)
             (userContext : option loc) (h : heap),
        (render runInNewContext Number_ofString Number_toString
           "#if (1)x#end" userContext h).1
        = Throw EndWithoutIf).
Proof.
  split; [vm_compute; reflexivity|].
  split; [vm_compute; reflexivity|].
  split; [vm_compute; reflexivity|].
  split; [vm_compute; reflexivity|].
  split; [vm_compute; reflexivity|].
  intros. apply render_spaced_if_throws.
Qed.

(** C2.  The code does not fall back when the external renderer throws.
    With [preferVelocity] set and an external renderer that throws [e],
    [renderTemplate] throws [e] on every template, also on one that the
    builtin [render] renders. *)
Theorem renderTemplate_velocity_failure_propagates :
  forall (runInNewContext : string -> (string -> value) -> completion)
         (Number_ofString : string -> number)
         (Number_toString : number -> string)
         (e : exn) (template : string) (userContext : option loc) (h : heap),
    (renderTemplate runInNewContext Number_ofString Number_toString
       (Some (fun _ _ => Raises e)) template userContext true h).1
    = Throw (VelocityError e)
    /\ (sampleRender "plain text" None ∅).1 = Ok "plain text".
Proof.
  intros. split.
  - now apply renderTemplate_velocity_raises with (velocityRender := fun _ _ => Raises e).
  - vm_compute. reflexivity.
Qed.


(** *** Instances of the statements with hypotheses *)

Lemma inactive_set_is_noop_witness :
  isFrameActive [Frame true false false] = false
  /\ sampleToken 1%positive (TSet "no assignment here")
       [Frame true false false] [] ∅
     = (Ok ([Frame true false false], []), ∅)
  /\ sampleToken 1%positive (TSet "no assignment here") [] [] ∅
     = (Throw (UnableToParseSet "no assignment here"), ∅).
Proof.
  split; [reflexivity|].
  destruct (inactive_set_is_noop Sample.runInNewContext Sample.Number_ofString
              Sample.Number_toString 1%positive "no assignment here"
              [Frame true false false] [] ∅ eq_refl) as [Hnoop Hparse].
  split; [exact Hnoop|].
  apply (Hparse eq_refl [] eq_refl).
Defined.



Lemma render_structural_error_iff_witness :
  (sampleRender "#if(1)open" None ∅).1 = Throw UnclosedIf
  /\ exists (context : loc) (h1 : heap) (tokens : list token),
       createContext None ∅ = (Ok context, h1)
       /\ tokenize "#if(1)open" = Ok tokens
       /\ exists (top : frame) (below : list frame)
                 (output : list string) (h2 : heap),
            sampleTokens context tokens [] [] h1
            = (Ok (below ++ [top], output), h2).
Proof.
  assert (Hthrows : (sampleRender "#if(1)open" None ∅).1 = Throw UnclosedIf)
    by (vm_compute; reflexivity).
  split; [exact Hthrows|].
  destruct (render_structural_error_iff Sample.runInNewContext
              Sample.Number_ofString Sample.Number_toString
              "#if(1)open" None ∅ UnclosedIf eq_refl) as [Hwhy _].
  destruct (Hwhy Hthrows)
    as (context & h1 & tokens & Hcreate & Htok & [Hunder|[_ Hopen]]).
  - destruct Hunder as (pre & t & post & output & h2 & _ & _ & Ht).
    destruct t; discriminate.
  - exists context, h1, tokens.
    split; [exact Hcreate|]. split; [exact Htok|exact Hopen].
Defined.

Lemma chain_exclusive_witness :
  exists f2 : frame,
    [Frame true false true] = [] ++ [f2]
    /\ active f2 = false /\ branchSatisfied f2 = true.
Proof.
  assert (Hfirst : sampleToken Sample.caller (TIf "1") [] [] Sample.callerHeap
                   = (Ok ([] ++ [Frame true true true], []), Sample.callerHeap))
    by (vm_compute; reflexivity).
  assert (Hrest : sampleTokens Sample.caller
                    ([TText "a"; TIf "0"; TElse; TEnd] ++ [TElseif "1"])
                    ([] ++ [Frame true true true]) [] Sample.callerHeap
                  = (Ok ([Frame true false true], ["a"]), Sample.callerHeap))
    by (vm_compute; reflexivity).
  destruct (chain_exclusive Sample.runInNewContext Sample.Number_ofString
              Sample.Number_toString Sample.caller
              (TIf "1") (TElseif "1") [TText "a"; TIf "0"; TElse; TEnd]
              [] [] [Frame true false true] (Frame true true true)
              [] [] ["a"] Sample.callerHeap Sample.callerHeap Sample.callerHeap
              eq_refl Hfirst eq_refl eq_refl Hrest)
    as [_ Hlater].
  apply Hlater. reflexivity.
Defined.


(** *** Instances of the further properties *)

Abbreviation sampleRun := (Sample.runInNewContext).
Abbreviation sampleOfString := (Sample.Number_ofString).
Abbreviation sampleToString := (Sample.Number_toString).


Lemma interpreter_output_and_depth_witness :
  Z.of_nat (length [Frame true true true])
  = (Z.of_nat (length (@nil frame)) + depthChange [TText "a"; TIf "1"])%Z
  /\ exists extra : list string, ["z"; "a"] = ["z"] ++ extra.
Proof.
  assert (Hrun : sampleTokens Sample.caller [TText "a"; TIf "1"] [] ["z"]
                   Sample.callerHeap
                 = (Ok ([Frame true true true], ["z"; "a"]), Sample.callerHeap))
    by (vm_compute; reflexivity).
  apply (interpreter_output_and_depth sampleRun sampleOfString sampleToString
           Sample.caller [TText "a"; TIf "1"] [] [Frame true true true]
           ["z"] ["z"; "a"] Sample.callerHeap Sample.callerHeap Hrun).
Defined.

Lemma render_success_balanced_witness :
  exists tokens : list token,
    tokenize "#if(1)x#end" = Ok tokens /\ depthChange tokens = 0%Z.
Proof.
  destruct (sampleRender "#if(1)x#end" None ∅) as [r h'] eqn:Hrun.
  assert (Hr : r = Ok "x").
  { change r with (r, h').1. rewrite <- Hrun. vm_compute. reflexivity. }
  rewrite Hr in Hrun.
  apply (render_success_balanced sampleRun sampleOfString sampleToString
           "#if(1)x#end" None ∅ h' "x" Hrun).
Defined.

Lemma normalizeValue_idempotent_witness :
  normalizeValue (normalizeValue (VNumber (Num.div (Num.ofZ 10) (Num.ofZ 3))))
  = normalizeValue (VNumber (Num.div (Num.ofZ 10) (Num.ofZ 3)))
  /\ (Num.isInteger (Num.ofZ 3) = true \/ Num.isFinite (Num.ofZ 3) = false).
Proof.
  destruct (normalizeValue_idempotent
              (VNumber (Num.div (Num.ofZ 10) (Num.ofZ 3)))) as [Hidem Hint].
  split; [exact Hidem|].
  apply (Hint (Num.ofZ 3)). vm_compute. reflexivity.
Defined.

Lemma coerceNumericLike_decimal_only_witness :
  coerceNumericLike sampleOfString (VString " 42 ") = VNumber (Num.ofZ 42)
  /\ coerceNumericLike sampleOfString (VString "4x2") = VString "4x2".
Proof.
  assert (Hdec : decimalText (Str.trim " 42 ")).
  { exists "", "42", "". split; [reflexivity|]. split; [left; reflexivity|].
    split; [split; [discriminate|reflexivity]|left; reflexivity]. }
  destruct (coerceNumericLike_decimal_only sampleOfString (VString " 42 "))
    as (Hyes & _).
  destruct (coerceNumericLike_decimal_only sampleOfString (VString "4x2"))
    as (_ & Hno & _).
  split.
  - rewrite (Hyes " 42 " eq_refl Hdec eq_refl). reflexivity.
  - apply (Hno "4x2" eq_refl). right. reflexivity.
Defined.

Lemma matchSet_shape_witness :
  exists lead gap pad : string,
    " $v = 10 / 3" = lead +:+ "$" +:+ "v" +:+ gap +:+ "=" +:+ pad +:+ "10 / 3"
    /\ blank lead /\ blank gap /\ blank pad
    /\ identifier "v"
    /\ singleLine "10 / 3".
Proof.
  apply (matchSet_shape " $v = 10 / 3" "v" "10 / 3"). vm_compute. reflexivity.
Defined.

Lemma matchSet_roundtrip_witness :
  matchSet (" " +:+ "$" +:+ "total_1" +:+ " " +:+ "=" +:+ "  " +:+ "10 / 3")
  = Some ("total_1", "10 / 3").
Proof.
  apply (matchSet_roundtrip " " " " "  " "total_1" "10 / 3");
    try reflexivity.
  - exists "t"%char, "otal_1". split; [reflexivity|]. split; reflexivity.
  - split; [discriminate|reflexivity].
Defined.


Lemma tokenize_lossless_witness :
  sourceOf [TText "a"; TIf "1"; TText "b"; TEnd] = "a#if(1)b#end"
  /\ Forall fullText [TText "a"; TIf "1"; TText "b"; TEnd].
Proof.
  apply (tokenize_lossless "a#if(1)b#end"). vm_compute. reflexivity.
Defined.

Lemma tokenize_fuel_independent_witness :
  tokenize_loop 100 "a#end" [] 0 = Some (tokenize "a#end").
Proof.
  apply (tokenize_fuel_independent "a#end" 100). simpl. lia.
Defined.

Lemma tokenize_fails_unterminated_witness :
  exists (hashIndex : nat) (keyword : string),
    (keyword = "#set(" \/ keyword = "#if(" \/ keyword = "#elseif(")
    /\ Str.startsWith "ab#if(1" keyword hashIndex = true
    /\ UnterminatedDirective 5
       = UnterminatedDirective (hashIndex + String.length keyword - 1).
Proof.
  apply (tokenize_fails_unterminated "ab#if(1" (UnterminatedDirective 5)).
  vm_compute. reflexivity.
Defined.

Lemma readParenthesized_roundtrip_witness :
  readParenthesized ("#if" +:+ "(" +:+ "f(1) > (2)" +:+ ")" +:+ "rest") 3
  = Ok ("f(1) > (2)", 15)
  /\ readParenthesized ("#if" +:+ "(" +:+ "f(1") 3
     = Throw (UnterminatedDirective 3).
Proof.
  destruct (readParenthesized_roundtrip "#if" "f(1) > (2)" "rest") as [Hok _].
  destruct (readParenthesized_roundtrip "#if" "f(1" "") as [_ Hopen].
  split.
  - apply Hok. reflexivity.
  - apply Hopen. reflexivity.
Defined.

Lemma tokenize_directive_witness :
  tokenize ("#set(" +:+ "$a = (1)" +:+ ")") = Ok [TSet "$a = (1)"]
  /\ tokenize ("#if(" +:+ "$a = (1)" +:+ ")") = Ok [TIf "$a = (1)"]
  /\ tokenize ("#elseif(" +:+ "$a = (1)" +:+ ")") = Ok [TElseif "$a = (1)"].
Proof.
  apply (tokenize_directive "$a = (1)"). reflexivity.
Defined.

Lemma renderTemplate_with_velocity_witness :
  (renderTemplate sampleRun sampleOfString sampleToString
     (Some (fun _ _ => Returns (VString "external"))) "plain" None true ∅).1
  = Ok (VString "external")
  /\ (renderTemplate sampleRun sampleOfString sampleToString
        (Some (fun _ _ => Returns VNull)) "plain" None true ∅).1
     = asValue (sampleRender "plain" None ∅).1.
Proof.
  destruct (renderTemplate_with_velocity sampleRun sampleOfString sampleToString
              (Some (fun _ _ => Returns (VString "external")))
              (fun _ _ => Returns (VString "external"))
              "plain" None ∅ ∅ eq_refl eq_refl) as [Hvalue _].
  destruct (renderTemplate_with_velocity sampleRun sampleOfString sampleToString
              (Some (fun _ _ => Returns VNull))
              (fun _ _ => Returns VNull)
              "plain" None ∅ ∅ eq_refl eq_refl) as [Hnull _].
  split.
  - apply (Hvalue (VString "external")). reflexivity.
  - apply (Hnull VNull). reflexivity.
Defined.

Lemma active_frames_are_transparent_witness :
  sampleTokens Sample.caller [TIf "1"; TText "a"; TEnd]
    ([Frame true true true] ++ []) [] Sample.callerHeap
  = onTopOf [Frame true true true]
      (sampleTokens Sample.caller [TIf "1"; TText "a"; TEnd] [] []
         Sample.callerHeap).
Proof.
  apply (active_frames_are_transparent sampleRun sampleOfString sampleToString
           Sample.caller [Frame true true true] []
           [TIf "1"; TText "a"; TEnd] [] Sample.callerHeap);
    reflexivity.
Defined.


Lemma createContext_fresh_each_time_witness :
  exists (context context' : loc) (h1 h2 : heap),
    createContext (Some Sample.caller) Sample.callerHeap = (Ok context, h1)
    /\ createContext (Some Sample.caller) h1 = (Ok context', h2)
    /\ Sample.callerHeap !! context = None
    /\ context' <> context
    /\ h2 !! context = h1 !! context
    /\ h2 !! context' = h1 !! context.
Proof.
  assert (Hctx : Sample.callerHeap !! Sample.caller = Some Sample.callerMapping)
    by apply lookup_singleton_eq.
  destruct (createContext_fresh_each_time (Some Sample.caller) Sample.callerHeap
              Sample.callerMapping Hctx)
    as (context & context' & h1 & h2 & Hfirst & Hsecond & Hnew & Hother
        & Hkept & Hsame & _).
  exists context, context', h1, h2.
  split; [exact Hfirst|]. split; [exact Hsecond|]. split; [exact Hnew|].
  split; [exact Hother|]. split; [exact Hkept|exact Hsame].
Defined.


Lemma skipped_region_is_silent_witness :
  (0 <= depthChange
          [TIf "$x +"; TText "a"; TElse; TSet "no assignment"; TEnd; TIf "1"])%Z
  /\ sampleTokens Sample.caller
       [TIf "$x +"; TText "a"; TElse; TSet "no assignment"; TEnd; TIf "1"]
       [Frame true false false] ["kept"] Sample.callerHeap
     = (Ok ([Frame true false false]
            ++ replicate
                 (Z.to_nat
                    (depthChange
                       [TIf "$x +"; TText "a"; TElse; TSet "no assignment";
                        TEnd; TIf "1"]))
                 skippedFrame,
            ["kept"]),
        Sample.callerHeap).
Proof.
  apply (skipped_region_is_silent sampleRun sampleOfString sampleToString
           Sample.caller [Frame true false false] ["kept"] Sample.callerHeap);
    reflexivity.
Defined.


Lemma evaluateExpression_script_witness :
  replaced ("$" +:+ "x" +:+ " + 1")
  = ("__resolve(" +:+ dquote +:+ "x" +:+ dquote +:+ ")") +:+ replaced " + 1"
  /\ replaced ("$" +:+ " 5") = "$" +:+ replaced " 5".
Proof.
  destruct (evaluateExpression_script " + 1") as (_ & Href & _).
  destruct (evaluateExpression_script " 5") as (_ & _ & Hdollar).
  split.
  - apply (Href "x"); [|reflexivity].
    exists "x"%char, "". split; [reflexivity|]. split; reflexivity.
  - apply Hdollar. reflexivity.
Defined.

(** * The reading with references and effects *)

Import Effects.

Section WithEffects.

Variable runInNewContext :
  string -> (heap -> string -> value) -> heap -> completion value * heap.
Variable Object_toString : loc -> heap -> completion string * heap.
Variable Number_ofString : string -> number.
Variable Number_toString : number -> string.

(** The functions of the module at this runtime. *)
Abbreviation evaluateExpression' :=
  (evaluateExpression runInNewContext Number_ofString).
Abbreviation interpolate' := (interpolate Object_toString Number_toString).
Abbreviation renderToken' :=
  (renderToken runInNewContext Object_toString Number_ofString Number_toString).
Abbreviation renderTokens' :=
  (renderTokens runInNewContext Object_toString Number_ofString Number_toString).
Abbreviation render' :=
  (render runInNewContext Object_toString Number_ofString Number_toString).

Ltac run_E :=
  unfold mbind, M_bind, mret, M_ret, throw, lift, load, store;
  cbn beta iota.

(** ** The interpreter and the frame stack *)

Lemma effects_bind_Ok {A B : Type} (m : M A) (f : A -> M B) (h h' : heap)
    (a : A) :
  m h = (Ok a, h') -> (m ≫= f) h = f a h'.
Proof. intros Hm. unfold mbind, M_bind. now rewrite Hm. Qed.

Lemma effects_renderTokens_app (context : loc) (pre post : list token) :
  forall (frameStack : list frame) (output : list string) (h : heap),
    renderTokens' context (pre ++ post) frameStack output h
    = match renderTokens' context pre frameStack output h with
      | (Ok (frameStack', output'), h') =>
          renderTokens' context post frameStack' output' h'
      | (Throw e, h') => (Throw e, h')
      end.
Proof.
  induction pre as [|t pre IH]; intros frameStack output h; [reflexivity|].
  cbn [app renderTokens]. unfold mbind, M_bind.
  destruct (renderToken' context t frameStack output h) as [[[fs out]|e] h1];
    [apply IH|reflexivity].
Qed.

Lemma effects_renderToken_depth (context : loc) (t : token)
    (frameStack frameStack' : list frame) (output output' : list string)
    (h h' : heap) :
  renderToken' context t frameStack output h
  = (Ok (frameStack', output'), h') ->
  Z.of_nat (length frameStack')
  = (Z.of_nat (length frameStack) + depthChange [t])%Z.
Proof.
  intros Hstep.
  assert (Htop : forall top : frame,
             last frameStack = Some top ->
             forall f : frame,
               length (setTop frameStack f) = length frameStack
               /\ S (length (removelast frameStack)) = length frameStack).
  { intros top Hlast f. apply last_Some in Hlast as [below ->].
    rewrite setTop_snoc, removelast_last, !length_app. cbn [length].
    split; lia. }
  destruct t; cbn [renderToken depthChange] in *; revert Hstep; run_E.
  - destruct (isFrameActive frameStack).
    + destruct (interpolate' value0 context h) as [[text|e] h1];
        [|intros [=]].
      intros [= <- _ _]. lia.
    + intros [= <- _ _]. lia.
  - destruct (negb (isFrameActive frameStack)); [intros [= <- _ _]; lia|].
    destruct (matchSet content) as [[variableName expression]|]; [|intros [=]].
    destruct (negb (hasOwnProperty BUILT_INS variableName));
      [|intros [= <- _ _]; lia].
    destruct (evaluateExpression' expression context h) as [[v|e] h1];
      [|intros [=]].
    intros [= <- _ _]. lia.
  - destruct (isFrameActive frameStack).
    + destruct (evaluateExpression' content context h) as [[v|e] h1];
        [|intros [=]].
      intros [= <- _ _]. rewrite length_app. cbn [length]. lia.
    + intros [= <- _ _]. rewrite length_app. cbn [length]. lia.
  - destruct (last frameStack) as [top|] eqn:Hlast; [|intros [=]].
    destruct (negb (parentActive top));
      [intros [= <- _ _]; destruct (Htop top eq_refl (Frame (parentActive top) false (branchSatisfied top))); lia|].
    destruct (branchSatisfied top);
      [intros [= <- _ _]; destruct (Htop top eq_refl (Frame (parentActive top) false true)); lia|].
    destruct (evaluateExpression' content context h) as [[v|e] h1];
      [|intros [=]].
    intros [= <- _ _].
    destruct (Htop top eq_refl
                (Frame (parentActive top) (Boolean_ v) (Boolean_ v))); lia.
  - destruct (last frameStack) as [top|] eqn:Hlast; [|intros [=]].
    intros [= <- _ _].
    match goal with
    | |- context [setTop frameStack ?f] => destruct (Htop top eq_refl f)
    end. lia.
  - destruct (last frameStack) as [top|] eqn:Hlast; [|intros [=]].
    intros [= <- _ _]. destruct (Htop top eq_refl top). lia.
Qed.

Lemma effects_renderTokens_depth (context : loc) (tokens : list token) :
  forall (frameStack frameStack' : list frame) (output output' : list string)
         (h h' : heap),
    renderTokens' context tokens frameStack output h
    = (Ok (frameStack', output'), h') ->
    Z.of_nat (length frameStack')
    = (Z.of_nat (length frameStack) + depthChange tokens)%Z.
Proof.
  induction tokens as [|t tokens IH];
    intros frameStack frameStack' output output' h h' Hrun.
  - injection Hrun as <- _ _. cbn [depthChange]. lia.
  - cbn [renderTokens] in Hrun. unfold mbind, M_bind in Hrun.
    destruct (renderToken' context t frameStack output h)
      as [[[fs1 out1]|e1] h1] eqn:Hstep; [|discriminate].
    apply IH in Hrun. apply effects_renderToken_depth in Hstep.
    rewrite depthChange_cons. lia.
Qed.

Lemma effects_skipped_region (context : loc) (below : list frame)
    (output : list string) (h : heap) (mid : list token) :
  isFrameActive below = false ->
  forall depth : nat,
    staysInside depth mid = true ->
    exists n : nat,
      renderTokens' context mid (below ++ replicate depth skippedFrame)
        output h
      = (Ok (below ++ replicate n skippedFrame, output), h).
Proof.
  intros Hbelow.
  assert (Hinactive : forall d,
             isFrameActive (below ++ replicate d skippedFrame) = false).
  { intros d. unfold isFrameActive in *. now rewrite forallb_app, Hbelow. }
  induction mid as [|t mid IH]; intros depth Hin.
  - now exists depth.
  - cbn [renderTokens]. destruct t; cbn [staysInside] in Hin.
    + destruct (IH depth Hin) as [n Hn]. exists n.
      rewrite (effects_bind_Ok _ _ h h
                 (below ++ replicate depth skippedFrame, output));
        [exact Hn|].
      cbn [renderToken]. now rewrite Hinactive.
    + destruct (IH depth Hin) as [n Hn]. exists n.
      rewrite (effects_bind_Ok _ _ h h
                 (below ++ replicate depth skippedFrame, output));
        [exact Hn|].
      cbn [renderToken]. now rewrite Hinactive.
    + destruct (IH (S depth) Hin) as [n Hn]. exists n.
      rewrite (effects_bind_Ok _ _ h h
                 (below ++ replicate (S depth) skippedFrame, output));
        [exact Hn|].
      cbn [renderToken]. rewrite Hinactive. run_E.
      now rewrite <- List.app_assoc, <- replicate_S_end.
    + destruct depth as [|depth]; [discriminate|].
      destruct (IH (S depth) Hin) as [n Hn]. exists n.
      rewrite (effects_bind_Ok _ _ h h
                 (below ++ replicate (S depth) skippedFrame, output));
        [exact Hn|].
      cbn [renderToken]. rewrite replicate_S_end, List.app_assoc, last_snoc.
      cbn [skippedFrame parentActive negb]. run_E.
      now rewrite setTop_snoc.
    + destruct depth as [|depth]; [discriminate|].
      destruct (IH (S depth) Hin) as [n Hn]. exists n.
      rewrite (effects_bind_Ok _ _ h h
                 (below ++ replicate (S depth) skippedFrame, output));
        [exact Hn|].
      cbn [renderToken]. rewrite replicate_S_end, List.app_assoc, last_snoc.
      cbn [skippedFrame parentActive branchSatisfied negb andb orb]. run_E.
      now rewrite setTop_snoc.
    + destruct depth as [|depth]; [discriminate|].
      destruct (IH depth Hin) as [n Hn]. exists n.
      rewrite (effects_bind_Ok _ _ h h
                 (below ++ replicate depth skippedFrame, output));
        [exact Hn|].
      cbn [renderToken]. rewrite replicate_S_end, List.app_assoc, last_snoc.
      run_E. now rewrite removelast_last.
Qed.

Lemma effects_renderToken_under (context : loc) (t : token)
    (under stack : list frame) (output : list string) (h : heap) :
  isFrameActive under = true ->
  staysInside (length stack) [t] = true ->
  renderToken' context t (under ++ stack) output h
  = onTopOf under (renderToken' context t stack output h).
Proof.
  intros Hunder Hin.
  assert (Htop : isLaterBranch t = true \/ t = TEnd ->
                 exists below top, stack = below ++ [top]).
  { intros Ht. destruct stack as [|f stack _] using rev_ind; [|eauto].
    destruct Ht as [Ht| ->]; [destruct t|]; discriminate. }
  destruct t; cbn [renderToken]; rewrite ?(isFrameActive_under _ _ Hunder).
  - destruct (isFrameActive stack); [|reflexivity]. run_E.
    now destruct (interpolate' value0 context h) as [[text|e] h1].
  - destruct (negb (isFrameActive stack)); [reflexivity|].
    destruct (matchSet content) as [[variableName expression]|]; [|reflexivity].
    destruct (negb (hasOwnProperty BUILT_INS variableName)); [|reflexivity].
    run_E.
    now destruct (evaluateExpression' expression context h) as [[v|e] h1].
  - run_E. destruct (isFrameActive stack).
    + destruct (evaluateExpression' content context h) as [[v|e] h1];
        [|reflexivity].
      cbn [onTopOf]. now rewrite List.app_assoc.
    + cbn [onTopOf]. now rewrite List.app_assoc.
  - destruct Htop as (below & top & ->); [now left|].
    rewrite List.app_assoc, !last_snoc. run_E.
    destruct (negb (parentActive top));
      [now rewrite !setTop_snoc, <- List.app_assoc|].
    destruct (branchSatisfied top);
      [now rewrite !setTop_snoc, <- List.app_assoc|].
    destruct (evaluateExpression' content context h) as [[v|e] h1];
      [|reflexivity].
    now rewrite !setTop_snoc, <- List.app_assoc.
  - destruct Htop as (below & top & ->); [now left|].
    rewrite List.app_assoc, !last_snoc. run_E.
    now rewrite !setTop_snoc, <- List.app_assoc.
  - destruct Htop as (below & top & ->); [now right|].
    rewrite List.app_assoc, !last_snoc. run_E.
    now rewrite !removelast_last.
Qed.

Lemma effects_renderTokens_under (context : loc) (under : list frame)
    (tokens : list token) :
  isFrameActive under = true ->
  forall (stack : list frame) (output : list string) (h : heap),
    staysInside (length stack) tokens = true ->
    renderTokens' context tokens (under ++ stack) output h
    = onTopOf under (renderTokens' context tokens stack output h).
Proof.
  intros Hunder. induction tokens as [|t tokens IH];
    intros stack output h Hin; [reflexivity|].
  cbn [renderTokens]. unfold mbind, M_bind.
  destruct (renderToken' context t stack output h)
    as [[[fs1 out1]|e] h1] eqn:Hstep.
  - pose proof (effects_renderToken_depth _ _ _ _ _ _ _ _ Hstep) as Hdepth.
    destruct (staysInside_step _ _ _ _ Hin Hdepth) as [Ht Hrest].
    rewrite (effects_renderToken_under _ _ _ _ _ _ Hunder Ht), Hstep.
    cbn [onTopOf]. now apply IH.
  - assert (Ht : staysInside (length stack) [t] = true).
    { destruct t; cbn [staysInside] in *; try reflexivity;
        now destruct (length stack). }
    now rewrite (effects_renderToken_under _ _ _ _ _ _ Hunder Ht), Hstep.
Qed.

Lemma effects_block_active (context : loc) (under : list frame)
    (body rest : list token) (output : list string) (h : heap) :
  isFrameActive under = true ->
  staysInside 0 body = true -> depthChange body = 0%Z ->
  renderTokens' context (body ++ rest) under output h
  = match renderTokens' context body [] output h with
    | (Ok (_, output'), h') => renderTokens' context rest under output' h'
    | (Throw e, h') => (Throw e, h')
    end.
Proof.
  intros Hunder Hin Hzero. rewrite effects_renderTokens_app.
  rewrite <- (app_nil_r under) at 1.
  rewrite (effects_renderTokens_under context under body Hunder [] output h Hin).
  destruct (renderTokens' context body [] output h)
    as [[[fs out]|e] h'] eqn:Hrun; [|reflexivity].
  apply effects_renderTokens_depth in Hrun. cbn [length] in Hrun.
  destruct fs; [|cbn [length] in Hrun; lia].
  cbn [onTopOf]. now rewrite app_nil_r.
Qed.

Lemma effects_block_skipped (context : loc) (stack : list frame)
    (body rest : list token) (output : list string) (h : heap) :
  isFrameActive stack = false ->
  staysInside 0 body = true -> depthChange body = 0%Z ->
  renderTokens' context (body ++ rest) stack output h
  = renderTokens' context rest stack output h.
Proof.
  intros Hstack Hin Hzero. rewrite effects_renderTokens_app.
  destruct (effects_skipped_region context stack output h body Hstack 0 Hin)
    as [n Hrun].
  cbn [replicate] in Hrun. rewrite app_nil_r in Hrun. rewrite Hrun.
  apply effects_renderTokens_depth in Hrun.
  rewrite length_app, length_replicate in Hrun.
  assert (n = 0) by lia. subst n. cbn [replicate]. now rewrite app_nil_r.
Qed.

Lemma effects_block_alone (context : loc) (frameStack : list frame)
    (part : list token) (output : list string) (h : heap) :
  isFrameActive frameStack = true ->
  staysInside 0 part = true -> depthChange part = 0%Z ->
  renderTokens' context part frameStack output h
  = match renderTokens' context part [] output h with
    | (Ok (_, output'), h') => (Ok (frameStack, output'), h')
    | (Throw e, h') => (Throw e, h')
    end.
Proof.
  intros Hactive Hin Hz. rewrite <- (app_nil_r part) at 1.
  now rewrite (effects_block_active context frameStack part [] output h
                 Hactive Hin Hz).
Qed.

Lemma effects_if_active (context : loc) (condition : string)
    (frameStack : list frame) (output : list string) (h h1 : heap)
    (v : value) :
  isFrameActive frameStack = true ->
  evaluateExpression' condition context h = (Ok v, h1) ->
  renderToken' context (TIf condition) frameStack output h
  = (Ok (frameStack ++ [Frame true (Boolean_ v) (Boolean_ v)], output), h1).
Proof.
  intros Hactive Heval. cbn [renderToken]. rewrite Hactive. run_E.
  rewrite Heval. now rewrite andb_true_r.
Qed.

Lemma isFrameActive_snoc (frameStack : list frame) (f : frame) :
  isFrameActive (frameStack ++ [f]) = isFrameActive frameStack && active f.
Proof.
  unfold isFrameActive. rewrite forallb_app. cbn [forallb].
  now rewrite andb_true_r.
Qed.

Lemma effects_end (context : loc) (frameStack : list frame) (f : frame)
    (output : list string) (h : heap) :
  renderTokens' context [TEnd] (frameStack ++ [f]) output h
  = (Ok (frameStack, output), h).
Proof.
  cbn [renderTokens renderToken]. rewrite last_snoc. run_E.
  now rewrite removelast_last.
Qed.

Lemma effects_else (context : loc) (rest : list token)
    (frameStack : list frame) (f : frame) (output : list string) (h : heap) :
  renderTokens' context (TElse :: rest) (frameStack ++ [f]) output h
  = renderTokens' context rest
      (frameStack ++ [Frame (parentActive f)
                        (parentActive f && negb (branchSatisfied f))
                        (branchSatisfied f
                         || parentActive f && negb (branchSatisfied f))])
      output h.
Proof.
  cbn [renderTokens renderToken]. rewrite last_snoc.
  unfold mbind at 1, M_bind at 1, mret, M_ret. now rewrite setTop_snoc.
Qed.

Lemma effects_elseif_satisfied (context : loc) (condition : string)
    (rest : list token) (frameStack : list frame) (a : bool)
    (output : list string) (h : heap) :
  renderTokens' context (TElseif condition :: rest)
    (frameStack ++ [Frame true a true]) output h
  = renderTokens' context rest (frameStack ++ [Frame true false true])
      output h.
Proof.
  cbn [renderTokens renderToken]. rewrite last_snoc.
  cbn [parentActive branchSatisfied negb].
  unfold mbind at 1, M_bind at 1, mret, M_ret. now rewrite setTop_snoc.
Qed.

Lemma effects_elseif_open (context : loc) (condition : string)
    (rest : list token) (frameStack : list frame) (a : bool)
    (output : list string) (h h1 : heap) (v : value) :
  evaluateExpression' condition context h = (Ok v, h1) ->
  renderTokens' context (TElseif condition :: rest)
    (frameStack ++ [Frame true a false]) output h
  = renderTokens' context rest
      (frameStack ++ [Frame true (Boolean_ v) (Boolean_ v)]) output h1.
Proof.
  intros Heval. cbn [renderTokens renderToken]. rewrite last_snoc.
  cbn [parentActive branchSatisfied negb]. run_E.
  rewrite Heval. now rewrite setTop_snoc.
Qed.

(** ** Skipped regions *)

(** X26.  In an inactive scope no foreign code runs.  If some frame of
    the stack is inactive and the tokens stay inside the blocks they
    open, then for every script engine, also one whose scripts write to
    the heap or throw, the interpreter runs through the tokens without
    an error and leaves the heap and the output as they are; it leaves
    on the old stack one frame, with its three flags false, for each
    block that the tokens open and do not close. *)
Theorem skipped_region_runs_no_foreign_code (context : loc)
    (below : list frame) (output : list string) (h : heap)
    (mid : list token) :
  isFrameActive below = false ->
  staysInside 0 mid = true ->
  (0 <= depthChange mid)%Z
  /\ renderTokens' context mid below output h
     = (Ok (below ++ replicate (Z.to_nat (depthChange mid)) skippedFrame,
            output), h).
Proof.
  intros Hbelow Hin.
  destruct (effects_skipped_region context below output h mid Hbelow 0 Hin)
    as [n Hn].
  cbn [replicate] in Hn. rewrite app_nil_r in Hn.
  pose proof (effects_renderTokens_depth _ _ _ _ _ _ _ _ Hn) as Hdepth.
  rewrite length_app, length_replicate in Hdepth.
  assert (Hcount : depthChange mid = Z.of_nat n) by lia.
  rewrite Hcount, Nat2Z.id. split; [lia|exact Hn].
Qed.

(** ** The meaning of the blocks *)

(** X20.  The meaning of [#if ... #end].  In an active scope, with a
    condition whose evaluation returns [v] and leaves the heap [h1], and
    a body that stays inside the blocks it opens and closes them all,
    the block does what its body does on its own in [h1] when [v] is
    truthy, and nothing more than the evaluation of the condition when
    [v] is falsy. *)
Theorem if_block (context : loc) (condition : string) (body : list token)
    (frameStack : list frame) (output : list string) (h h1 : heap)
    (v : value) :
  isFrameActive frameStack = true ->
  evaluateExpression' condition context h = (Ok v, h1) ->
  staysInside 0 body = true -> depthChange body = 0%Z ->
  renderTokens' context (TIf condition :: body ++ [TEnd]) frameStack output h
  = if Boolean_ v then renderTokens' context body frameStack output h1
    else (Ok (frameStack, output), h1).
Proof.
  intros Hactive Heval Hin Hzero.
  cbn [renderTokens].
  rewrite (effects_bind_Ok _ _ _ _ _
             (effects_if_active _ _ _ _ _ _ _ Hactive Heval)).
  cbv beta iota. destruct (Boolean_ v).
  - rewrite effects_block_active;
      [|now rewrite isFrameActive_snoc, Hactive|auto..].
    rewrite (effects_block_alone context frameStack body output h1
               Hactive Hin Hzero).
    destruct (renderTokens' context body [] output h1) as [[[fs out]|e] h'];
      [|reflexivity].
    apply effects_end.
  - rewrite effects_block_skipped;
      [|rewrite isFrameActive_snoc; apply andb_false_r|auto..].
    apply effects_end.
Qed.

(** X21.  The meaning of [#if ... #else ... #end].  In an active scope,
    with a condition whose evaluation returns [v] and leaves the heap
    [h1], and two parts that stay inside the blocks they open and close
    them all, the block does in [h1] what its first part does on its own
    when [v] is truthy and what its second part does on its own when
    [v] is falsy; the other part is neither evaluated nor rendered. *)
Theorem if_else_block (context : loc) (condition : string)
    (thenPart elsePart : list token)
    (frameStack : list frame) (output : list string) (h h1 : heap)
    (v : value) :
  isFrameActive frameStack = true ->
  evaluateExpression' condition context h = (Ok v, h1) ->
  staysInside 0 thenPart = true -> depthChange thenPart = 0%Z ->
  staysInside 0 elsePart = true -> depthChange elsePart = 0%Z ->
  renderTokens' context
    (TIf condition :: thenPart ++ TElse :: elsePart ++ [TEnd])
    frameStack output h
  = renderTokens' context (if Boolean_ v then thenPart else elsePart)
      frameStack output h1.
Proof.
  intros Hactive Heval Hthen Hthen0 Helse Helse0.
  assert (Hon : forall a s, isFrameActive (frameStack ++ [Frame true a s]) = a)
    by (intros a s; now rewrite isFrameActive_snoc, Hactive).
  cbn [renderTokens].
  rewrite (effects_bind_Ok _ _ _ _ _
             (effects_if_active _ _ _ _ _ _ _ Hactive Heval)).
  cbv beta iota. destruct (Boolean_ v).
  - rewrite effects_block_active by (rewrite ?Hon; auto).
    rewrite (effects_block_alone context frameStack thenPart output h1
               Hactive Hthen Hthen0).
    destruct (renderTokens' context thenPart [] output h1)
      as [[[fs out]|e] h']; [|reflexivity].
    rewrite effects_else. cbn [parentActive branchSatisfied negb andb orb].
    rewrite effects_block_skipped by (rewrite ?Hon; auto).
    apply effects_end.
  - rewrite effects_block_skipped by (rewrite ?Hon; auto).
    rewrite effects_else. cbn [parentActive branchSatisfied negb andb orb].
    rewrite effects_block_active by (rewrite ?Hon; auto).
    rewrite (effects_block_alone context frameStack elsePart output h1
               Hactive Helse Helse0).
    destruct (renderTokens' context elsePart [] output h1)
      as [[[fs out]|e] h']; [|reflexivity].
    apply effects_end.
Qed.

(** X25.  The meaning of a chain [#if ... #elseif ... #else ... #end].
    In an active scope, with three parts that stay inside the blocks
    they open and close them all, the first condition is evaluated and
    leaves the heap [h1].  When it is truthy the chain does what its
    first part does on its own in [h1], and the second condition is not
    evaluated.  When it is falsy the second condition is evaluated in
    [h1] and leaves the heap [h2], and the chain does in [h2] what its
    second part does on its own when that condition is truthy, and what
    its third part does when it is falsy. *)
Theorem if_elseif_else_block (context : loc) (first second : string)
    (part1 part2 part3 : list token)
    (frameStack : list frame) (output : list string) (h h1 h2 : heap)
    (v1 v2 : value) :
  isFrameActive frameStack = true ->
  evaluateExpression' first context h = (Ok v1, h1) ->
  (Boolean_ v1 = false ->
   evaluateExpression' second context h1 = (Ok v2, h2)) ->
  staysInside 0 part1 = true -> depthChange part1 = 0%Z ->
  staysInside 0 part2 = true -> depthChange part2 = 0%Z ->
  staysInside 0 part3 = true -> depthChange part3 = 0%Z ->
  renderTokens' context
    (TIf first :: part1 ++ TElseif second :: part2 ++ TElse :: part3 ++ [TEnd])
    frameStack output h
  = if Boolean_ v1 then renderTokens' context part1 frameStack output h1
    else renderTokens' context (if Boolean_ v2 then part2 else part3)
           frameStack output h2.
Proof.
  intros Hactive Hfirst Hsecond Hin1 Hz1 Hin2 Hz2 Hin3 Hz3.
  assert (Hon : forall a s, isFrameActive (frameStack ++ [Frame true a s]) = a)
    by (intros a s; now rewrite isFrameActive_snoc, Hactive).
  cbn [renderTokens].
  rewrite (effects_bind_Ok _ _ _ _ _
             (effects_if_active _ _ _ _ _ _ _ Hactive Hfirst)).
  cbv beta iota. destruct (Boolean_ v1) eqn:Hv1.
  - rewrite effects_block_active by (rewrite ?Hon; auto).
    rewrite (effects_block_alone context frameStack part1 output h1
               Hactive Hin1 Hz1).
    destruct (renderTokens' context part1 [] output h1)
      as [[[fs out]|e] h']; [|reflexivity].
    rewrite effects_elseif_satisfied.
    rewrite effects_block_skipped by (rewrite ?Hon; auto).
    rewrite effects_else. cbn [parentActive branchSatisfied negb andb orb].
    rewrite effects_block_skipped by (rewrite ?Hon; auto).
    apply effects_end.
  - rewrite effects_block_skipped by (rewrite ?Hon; auto).
    rewrite (effects_elseif_open _ _ _ _ _ _ _ _ _ (Hsecond eq_refl)).
    destruct (Boolean_ v2).
    + rewrite effects_block_active by (rewrite ?Hon; auto).
      rewrite (effects_block_alone context frameStack part2 output h2
                 Hactive Hin2 Hz2).
      destruct (renderTokens' context part2 [] output h2)
        as [[[fs out]|e] h']; [|reflexivity].
      rewrite effects_else. cbn [parentActive branchSatisfied negb andb orb].
      rewrite effects_block_skipped by (rewrite ?Hon; auto).
      apply effects_end.
    + rewrite effects_block_skipped by (rewrite ?Hon; auto).
      rewrite effects_else. cbn [parentActive branchSatisfied negb andb orb].
      rewrite effects_block_active by (rewrite ?Hon; auto).
      rewrite (effects_block_alone context frameStack part3 output h2
                 Hactive Hin3 Hz3).
      destruct (renderTokens' context part3 [] output h2)
        as [[[fs out]|e] h']; [|reflexivity].
      apply effects_end.
Qed.

(** ** Invariants of the heap *)

Lemma keeps_ret {A : Type} (I : heap -> Prop) (Q : A -> Prop) (a : A) :
  Q a -> keeps I (mret a) Q.
Proof. intros Ha h Hh. split; [exact Hh|]. now intros a' [= <-]. Qed.

Lemma keeps_throw {A : Type} (I : heap -> Prop) (Q : A -> Prop) (e : error) :
  keeps I (throw e) Q.
Proof. intros h Hh. split; [exact Hh|]. intros a [=]. Qed.

Lemma keeps_lift {A : Type} (I : heap -> Prop) (r : result A) :
  keeps I (lift r) (fun _ => True).
Proof. intros h Hh. now split. Qed.

Lemma keeps_bind {A B : Type} (I : heap -> Prop) (m : M A) (f : A -> M B)
    (Q : A -> Prop) (R : B -> Prop) :
  keeps I m Q -> (forall a : A, Q a -> keeps I (f a) R) ->
  keeps I (m ≫= f) R.
Proof.
  intros Hm Hf h Hh. unfold mbind, M_bind.
  destruct (Hm h Hh) as [Hkept Hreturned].
  destruct (m h) as [[a|e] h1]; cbn [fst snd] in *.
  - apply (Hf a); auto.
  - split; [exact Hkept|]. intros b [=].
Qed.

Lemma keeps_weaken {A : Type} (I : heap -> Prop) (m : M A)
    (Q R : A -> Prop) :
  keeps I m Q -> (forall a : A, Q a -> R a) -> keeps I m R.
Proof.
  intros Hm HQR h Hh. destruct (Hm h Hh) as [Hkept Hreturned].
  split; [exact Hkept|]. intros a Ha. auto.
Qed.

Lemma keeps_forEach {A : Type} (I : heap -> Prop) (items : list A)
    (body : A -> M unit) :
  (forall x : A, x ∈ items -> keeps I (body x) (fun _ => True)) ->
  keeps I (forEach items body) (fun _ => True).
Proof.
  induction items as [|x items IH]; intros Hbody; cbn [forEach].
  - now apply keeps_ret.
  - apply keeps_bind with (Q := fun _ => True).
    + apply Hbody. left.
    + intros _ _. apply IH. intros y Hy. apply Hbody. now right.
Qed.

Lemma keeps_replaceVariables (I : heap -> Prop) (f : string -> M string) :
  (forall name : string, keeps I (f name) (fun _ => True)) ->
  forall (s : string) (skip : nat),
    keeps I (replaceVariables_from f s skip) (fun _ => True).
Proof.
  intros Hf. induction s as [|c rest IH]; intros skip;
    cbn [replaceVariables_from]; [now apply keeps_ret|].
  destruct skip as [|k]; [|apply IH].
  assert (Hcopy : keeps I
                    (tail ← replaceVariables_from f rest 0;
                     mret (String c tail))
                    (fun _ => True)).
  { apply keeps_bind with (Q := fun _ => True); [apply IH|].
    intros tail _. now apply keeps_ret. }
  destruct (Ascii.eqb c "$"); [|exact Hcopy].
  destruct rest as [|c1 rest']; [now apply keeps_ret|].
  destruct (Chars.isIdentStart c1); [|exact Hcopy].
  cbv zeta.
  apply keeps_bind with (Q := fun _ => True); [apply Hf|].
  intros replacement _.
  apply keeps_bind with (Q := fun _ => True); [apply IH|].
  intros tail _. now apply keeps_ret.
Qed.

Lemma effects_newLoc_fresh (h : heap) : h !! newLoc h = None.
Proof. apply not_elem_of_dom. unfold newLoc. apply is_fresh. Qed.

(** The steps of [render] keep a property [I] of the heap when its
    parts do: the contexts are the locations with the property [C], the
    values that the renderer meets have the property [ok]. *)
Section Invariant.

Variable I : heap -> Prop.
Variable ok : value -> Prop.
Variable C : loc -> Prop.

Hypothesis Hinteger : ok VInteger.
Hypothesis Hnormalize : forall v : value, ok v -> ok (normalizeValue v).
Hypothesis Halloc : keeps I (alloc ∅) C.
Hypothesis Hload :
  forall c : loc,
    C c ->
    keeps I (load c) (fun o => forall key v, o !! key = Some v -> ok v).
Hypothesis Hstore :
  forall (c : loc) (key : string) (v : value),
    C c -> ok v -> keeps I (store c key v) (fun _ => True).
Hypothesis Hevaluate :
  forall (rawExpression : string) (c : loc),
    C c -> keeps I (evaluateExpression' rawExpression c) ok.
Hypothesis Hstring :
  forall l : loc,
    ok (VObject l) ->
    keeps I (String_ Object_toString Number_toString (VObject l))
      (fun _ => True).

Lemma keeps_interpolate (text : string) (c : loc) :
  C c -> keeps I (interpolate' text c) (fun _ => True).
Proof.
  intros Hc. unfold interpolate, replaceVariables.
  apply keeps_replaceVariables. intros name.
  apply keeps_bind
    with (Q := fun o : object => forall key v, o !! key = Some v -> ok v);
    [now apply Hload|].
  intros ctx Hctx. unfold getProperty.
  destruct (ctx !! name) as [v|] eqn:Hname; simpl;
    [|now apply keeps_ret].
  specialize (Hctx name v Hname).
  destruct v as [| |[|]|n|s| |l]; cbn [String_];
    try (now apply keeps_ret).
  now apply Hstring.
Qed.

Lemma keeps_renderToken (c : loc) (t : token) (frameStack : list frame)
    (output : list string) :
  C c -> keeps I (renderToken' c t frameStack output) (fun _ => True).
Proof.
  intros Hc.
  assert (Hret : forall r : list frame * list string,
             keeps I (mret r) (fun _ => True))
    by (intros r; now apply keeps_ret).
  destruct t; cbn [renderToken].
  - destruct (isFrameActive frameStack); [|apply Hret].
    apply keeps_bind with (Q := fun _ => True);
      [now apply keeps_interpolate|]. intros text _. apply Hret.
  - destruct (negb (isFrameActive frameStack)); [apply Hret|].
    destruct (matchSet content) as [[variableName expression]|];
      [|apply keeps_throw].
    destruct (negb (hasOwnProperty BUILT_INS variableName)); [|apply Hret].
    apply keeps_bind with (Q := ok); [now apply Hevaluate|].
    intros v Hv.
    apply keeps_bind with (Q := fun _ => True); [|intros _ _; apply Hret].
    apply Hstore; [exact Hc|]. now apply Hnormalize.
  - apply keeps_bind with (Q := fun _ => True); [|intros b _; apply Hret].
    destruct (isFrameActive frameStack); [|now apply keeps_ret].
    apply keeps_bind with (Q := ok); [now apply Hevaluate|].
    intros v _. now apply keeps_ret.
  - destruct (last frameStack) as [top|]; [|apply keeps_throw].
    destruct (negb (parentActive top)); [apply Hret|].
    destruct (branchSatisfied top); [apply Hret|].
    apply keeps_bind with (Q := ok); [now apply Hevaluate|].
    intros v _. apply Hret.
  - destruct (last frameStack) as [top|]; [apply Hret|apply keeps_throw].
  - destruct (last frameStack) as [top|]; [apply Hret|apply keeps_throw].
Qed.

Lemma keeps_renderTokens (c : loc) (tokens : list token) :
  C c ->
  forall (frameStack : list frame) (output : list string),
    keeps I (renderTokens' c tokens frameStack output) (fun _ => True).
Proof.
  intros Hc. induction tokens as [|t tokens IH]; intros frameStack output;
    cbn [renderTokens]; [now apply keeps_ret|].
  apply keeps_bind with (Q := fun _ => True);
    [now apply keeps_renderToken|].
  intros [fs out] _. apply IH.
Qed.

Lemma keeps_createContext (userContext : option loc) :
  (forall m : loc,
      userContext = Some m ->
      keeps I (load m) (fun o => forall key v, o !! key = Some v -> ok v)) ->
  keeps I (createContext userContext) C.
Proof.
  intros Huser. unfold createContext.
  apply keeps_bind with (Q := fun u => userContext = Some u \/ C u).
  { destruct userContext as [m|].
    - apply keeps_ret. now left.
    - apply keeps_weaken with (Q := C); [exact Halloc|].
      intros c Hc. now right. }
  intros u Hu.
  apply keeps_bind with (Q := C); [exact Halloc|].
  intros c Hc.
  apply keeps_bind with (Q := fun _ => True).
  { apply keeps_forEach. intros [key helper] Hin.
    apply Hstore; [exact Hc|].
    unfold BUILT_INS in Hin. rewrite map_to_list_singleton in Hin.
    apply list_elem_of_singleton in Hin. now injection Hin as _ ->. }
  intros _ _.
  apply keeps_bind
    with (Q := fun entries : list (string * value) =>
                 forall key v, (key, v) ∈ entries -> ok v).
  { unfold Object_entries.
    apply keeps_bind
      with (Q := fun o : object => forall key v, o !! key = Some v -> ok v).
    - destruct Hu as [Hu|Hu]; [now apply Huser|now apply Hload].
    - intros o Ho. apply keeps_ret. intros key v Hin.
      apply elem_of_map_to_list in Hin. exact (Ho key v Hin). }
  intros entries Hentries.
  apply keeps_bind with (Q := fun _ => True);
    [|intros _ _; now apply keeps_ret].
  apply keeps_forEach. intros [key v] Hin.
  destruct (hasOwnProperty BUILT_INS key); [now apply keeps_ret|].
  apply Hstore; [exact Hc|]. exact (Hentries key v Hin).
Qed.

Lemma keeps_render (template : string) (userContext : option loc) :
  (forall m : loc,
      userContext = Some m ->
      keeps I (load m) (fun o => forall key v, o !! key = Some v -> ok v)) ->
  keeps I (render' template userContext) (fun _ => True).
Proof.
  intros Huser. unfold render.
  apply keeps_bind with (Q := C); [now apply keeps_createContext|].
  intros c Hc.
  apply keeps_bind with (Q := fun _ => True); [apply keeps_lift|].
  intros tokens _.
  apply keeps_bind with (Q := fun _ => True);
    [now apply keeps_renderTokens|].
  intros [frameStack output] _.
  destruct (0 <? length frameStack);
    [apply keeps_throw|now apply keeps_ret].
Qed.

End Invariant.

(** ** The writes of the renderer *)

Lemma createContext_keeps_existing (userContext : option loc) (h : heap)
    (l : loc) :
  is_Some (h !! l) -> (createContext userContext h).2 !! l = h !! l.
Proof.
  intros Hl.
  set (same := fun h' : heap => h' !! l = h !! l).
  assert (Halloc : keeps same (alloc ∅) (fun c => c <> l)).
  { intros h' Hh'. unfold alloc. cbn [fst snd].
    assert (Hnew : newLoc h' <> l).
    { intros Heq. pose proof (effects_newLoc_fresh h') as Hfresh.
      rewrite Heq, Hh' in Hfresh. destruct Hl as [o Ho]. congruence. }
    split; [|now intros c [= <-]].
    unfold same. now rewrite lookup_insert_ne. }
  assert (Hload : forall c : loc,
             keeps same (load c)
               (fun o : object => forall key v, o !! key = Some v -> True)).
  { intros c h' Hh'. now split. }
  assert (Hstore : forall (c : loc) (key : string) (v : value),
             c <> l -> True -> keeps same (store c key v) (fun _ => True)).
  { intros c key v Hc _ h' Hh'. split; [|done].
    unfold store, same. cbn [snd]. now rewrite lookup_alter_ne. }
  apply (keeps_createContext same (fun _ => True) (fun c => c <> l) I
           Halloc (fun c _ => Hload c) Hstore userContext
           (fun m _ => Hload m) h eq_refl).
Qed.

(** The renderer itself writes to the context only: an object that
    exists before the call and that foreign code leaves as it is, is
    after the call what it was before. *)
Lemma render_writes_context_only (template : string)
    (userContext : option loc) (h : heap) (l : loc) :
  is_Some (h !! l) ->
  (forall (code : string) (resolver : heap -> string -> value) (h1 : heap),
      (runInNewContext code resolver h1).2 !! l = h1 !! l) ->
  (forall (l' : loc) (h1 : heap), (Object_toString l' h1).2 !! l = h1 !! l) ->
  (render' template userContext h).2 !! l = h !! l.
Proof.
  intros Hl Hscript Hconversion.
  set (same := fun h' : heap => h' !! l = h !! l).
  assert (Halloc : keeps same (alloc ∅) (fun c => c <> l)).
  { intros h' Hh'. unfold alloc. cbn [fst snd].
    assert (Hnew : newLoc h' <> l).
    { intros Heq. pose proof (effects_newLoc_fresh h') as Hfresh.
      rewrite Heq, Hh' in Hfresh. destruct Hl as [o Ho]. congruence. }
    split; [|now intros c [= <-]].
    unfold same. now rewrite lookup_insert_ne. }
  assert (Hload : forall c : loc,
             keeps same (load c)
               (fun o : object => forall key v, o !! key = Some v -> True)).
  { intros c h' Hh'. now split. }
  assert (Hstore : forall (c : loc) (key : string) (v : value),
             c <> l -> True -> keeps same (store c key v) (fun _ => True)).
  { intros c key v Hc _ h' Hh'. split; [|done].
    unfold store, same. cbn [snd]. now rewrite lookup_alter_ne. }
  assert (Hevaluate : forall (rawExpression : string) (c : loc),
             c <> l ->
             keeps same (evaluateExpression' rawExpression c) (fun _ => True)).
  { intros rawExpression c _ h' Hh'. split; [|done].
    unfold evaluateExpression, foreign, same.
    specialize (Hscript (replaced rawExpression)
                  (resolve Number_ofString c) h').
    destruct (runInNewContext _ _ h') as [[v|e] h2]; cbn [snd] in *;
      now rewrite Hscript. }
  assert (Hstring : forall l' : loc,
             True ->
             keeps same (String_ Object_toString Number_toString (VObject l'))
               (fun _ => True)).
  { intros l' _ h' Hh'. split; [|done].
    unfold String_, foreign, same. specialize (Hconversion l' h').
    destruct (Object_toString l' h') as [[s|e] h2]; cbn [snd] in *;
      now rewrite Hconversion. }
  apply (keeps_render same (fun _ => True) (fun c => c <> l) I
           (fun _ _ => I) Halloc (fun c _ => Hload c) Hstore Hevaluate
           Hstring template userContext (fun m _ => Hload m) h eq_refl).
Qed.

(** ** What foreign code cannot reach *)

Lemma coerceNumericLike_refers (P : gset loc) (v : value) :
  refersInto P (coerceNumericLike Number_ofString v) -> refersInto P v.
Proof.
  destruct v; cbn [coerceNumericLike]; try (exact (fun H => H)).
  destruct (negb (Str.isEmpty (Str.trim s)) && isNumericLike (Str.trim s));
    [|exact (fun H => H)].
  destruct (Num.isNaN (Number_ofString (Str.trim s)));
    exact (fun H => H).
Qed.

Lemma normalizeValue_refers (P : gset loc) (v : value) :
  refersInto P (normalizeValue v) -> refersInto P v.
Proof.
  destruct v; cbn [normalizeValue]; try (exact (fun H => H)).
  destruct (Num.isInteger n); exact (fun H => H).
Qed.

Lemma intact_store (P : gset loc) (h0 : heap) (c : loc) (key : string)
    (v : value) (h : heap) :
  c ∉ P -> ~ refersInto P v ->
  intact P h0 h -> intact P h0 (alter (insert key v) c h).
Proof.
  intros Hc Hv [[Hexist Hreach] Hsame]. split; [split|].
  - intros l Hl. destruct (decide (l = c)) as [->|Hne]; [contradiction|].
    rewrite lookup_alter_ne by congruence. auto.
  - intros l o k w Hlo Hl Hk.
    destruct (decide (l = c)) as [->|Hne].
    + rewrite lookup_alter_eq in Hlo.
      destruct (h !! c) as [oc|] eqn:Hoc; [|discriminate].
      cbn in Hlo. injection Hlo as <-.
      destruct (decide (k = key)) as [->|Hk'].
      * rewrite lookup_insert_eq in Hk. now injection Hk as <-.
      * rewrite lookup_insert_ne in Hk by congruence.
        exact (Hreach c oc k w Hoc Hl Hk).
    + rewrite lookup_alter_ne in Hlo by congruence.
      exact (Hreach l o k w Hlo Hl Hk).
  - intros l Hl. destruct (decide (l = c)) as [->|Hne]; [contradiction|].
    rewrite lookup_alter_ne by congruence. auto.
Qed.

Lemma intact_holds (P : gset loc) (h0 : heap) (c : loc) (h : heap) :
  c ∉ P -> intact P h0 h -> holdsNoneOf P (default ∅ (h !! c)).
Proof.
  intros Hc [[_ Hreach] _] key v Hkey.
  destruct (h !! c) as [o|] eqn:Ho; simpl in Hkey.
  - exact (Hreach c o key v Ho Hc Hkey).
  - now rewrite lookup_empty in Hkey.
Qed.

Section Confinement.

Variable hostRoots : gset loc.
Variable P : gset loc.
Variable h0 : heap.
Hypothesis Hconfined : confined runInNewContext Object_toString hostRoots.
Hypothesis Hhost : P ## hostRoots.

Lemma confined_store (c : loc) (key : string) (v : value) :
  c ∉ P -> ~ refersInto P v ->
  keeps (intact P h0) (store c key v) (fun _ => True).
Proof.
  intros Hc Hv h Hh. split; [|done]. now apply intact_store.
Qed.

Lemma confined_load (c : loc) :
  c ∉ P -> keeps (intact P h0) (load c) (holdsNoneOf P).
Proof.
  intros Hc h Hh. split; [exact Hh|]. intros o [= <-].
  now apply (intact_holds P h0).
Qed.

Lemma confined_alloc :
  keeps (intact P h0) (alloc ∅) (fun c => c ∉ P).
Proof.
  intros h [[Hexist Hreach] Hsame].
  assert (Hnew : newLoc h ∉ P).
  { intros Hin. destruct (Hexist _ Hin) as [o Ho].
    rewrite effects_newLoc_fresh in Ho. discriminate. }
  unfold alloc. cbn [fst snd].
  split; [|now intros c [= <-]].
  split; [split|].
  - intros l Hl. rewrite lookup_insert_ne by congruence. auto.
  - intros l o k w Hlo Hl Hk.
    destruct (decide (l = newLoc h)) as [->|Hne].
    + rewrite lookup_insert_eq in Hlo. injection Hlo as <-.
      now rewrite lookup_empty in Hk.
    + rewrite lookup_insert_ne in Hlo by congruence.
      exact (Hreach l o k w Hlo Hl Hk).
  - intros l Hl. rewrite lookup_insert_ne by congruence. auto.
Qed.

Lemma resolve_outside (c : loc) (h1 : heap) (name : string) :
  c ∉ P -> sealed P h1 ->
  ~ refersInto P (resolve Number_ofString c h1 name).
Proof.
  intros Hc [_ Hreach] Hrefers. unfold resolve in Hrefers.
  apply coerceNumericLike_refers in Hrefers.
  assert (Hnone : holdsNoneOf P (default ∅ (h1 !! c))).
  { intros key v Hkey. destruct (h1 !! c) as [o|] eqn:Ho; simpl in Hkey.
    - exact (Hreach c o key v Ho Hc Hkey).
    - now rewrite lookup_empty in Hkey. }
  unfold getProperty in Hrefers.
  destruct (default ∅ (h1 !! c) !! name) as [v|] eqn:Hv; simpl in Hrefers.
  - exact (Hnone name v Hv Hrefers).
  - exact Hrefers.
Qed.

Lemma confined_evaluateExpression (rawExpression : string) (c : loc) :
  c ∉ P ->
  keeps (intact P h0) (evaluateExpression' rawExpression c)
    (fun v => ~ refersInto P v).
Proof.
  intros Hc h [Hsealed Hsame].
  destruct (Hconfined P h Hhost Hsealed) as [Hscript _].
  destruct (Hscript (replaced rawExpression) (resolve Number_ofString c))
    as (Hsealed' & Hkept & Hvalue).
  { intros h1 name Hh1. now apply resolve_outside. }
  unfold evaluateExpression, foreign.
  destruct (runInNewContext (replaced rawExpression)
              (resolve Number_ofString c) h) as [[v|e] h'];
    cbn [fst snd] in *.
  - split; [split; [exact Hsealed'|]|].
    + intros l Hl. rewrite (Hkept l Hl). auto.
    + intros a [= <-]. now apply Hvalue.
  - split; [split; [exact Hsealed'|]|intros a [=]].
    intros l Hl. rewrite (Hkept l Hl). auto.
Qed.

Lemma confined_String_ (l : loc) :
  ~ refersInto P (VObject l) ->
  keeps (intact P h0) (String_ Object_toString Number_toString (VObject l))
    (fun _ => True).
Proof.
  intros Hv h [Hsealed Hsame].
  destruct (Hconfined P h Hhost Hsealed) as [_ Hstring].
  destruct (Hstring l Hv) as [Hsealed' Hkept].
  unfold String_, foreign.
  destruct (Object_toString l h) as [[s|e] h']; cbn [fst snd] in *.
  - split; [split; [exact Hsealed'|]|done].
    intros l' Hl. rewrite (Hkept l' Hl). auto.
  - split; [split; [exact Hsealed'|]|intros a [=]].
    intros l' Hl. rewrite (Hkept l' Hl). auto.
Qed.

Lemma confined_render (template : string) (m : loc) (user : object) :
  m ∈ P -> h0 !! m = Some user -> holdsNoneOf P user ->
  keeps (intact P h0) (render' template (Some m)) (fun _ => True).
Proof.
  intros Hm Huser Hnone.
  apply (keeps_render (intact P h0) (fun v => ~ refersInto P v)
           (fun c => c ∉ P)).
  - exact (fun H => H).
  - intros v Hv Hrefers. apply Hv. now apply normalizeValue_refers.
  - exact confined_alloc.
  - exact confined_load.
  - exact confined_store.
  - exact confined_evaluateExpression.
  - exact confined_String_.
  - intros m' [= <-] h [Hsealed Hsame]. split; [now split|].
    intros o [= <-]. rewrite (Hsame m Hm), Huser. exact Hnone.
Qed.

End Confinement.

(** ** The mapping of the caller *)


End WithEffects.

(** ** Instances with the runtime of the examples *)

Abbreviation effectsTokens :=
  (renderTokens Sample.runInNewContext Sample.Object_toString
     Sample.Number_ofString Sample.Number_toString).

Abbreviation effectsRender :=
  (render Sample.runInNewContext Sample.Object_toString
     Sample.Number_ofString Sample.Number_toString).

Lemma sample_runtime_confined :
  confined Sample.runInNewContext Sample.Object_toString Sample.hostRoots.
Proof.
  intros P h Hhost Hsealed.
  assert (HMath : Sample.Math ∉ P).
  { intros Hin. apply (Hhost Sample.Math Hin). now apply elem_of_singleton. }
  assert (Hstart : intact P h h) by (split; [exact Hsealed|now intros l _]).
  assert (Hwrite : forall (c : loc) (key : string) (z : Z),
             c ∉ P ->
             sealed P (alter (insert key (Sample.num z)) c h)
             /\ unchanged P h (alter (insert key (Sample.num z)) c h)
             /\ forall v : value,
                  Returns (Sample.num z) = Returns v -> ~ refersInto P v).
  { intros c key z Hc.
    destruct (intact_store P h c key (Sample.num z) h Hc) as [Hs Hu];
      [exact (fun H => H)|exact Hstart|].
    split; [exact Hs|]. split; [exact Hu|]. intros v [= <-]. exact (fun H => H). }
  assert (Hpure : forall z : Z,
             sealed P h /\ unchanged P h h
             /\ forall v : value,
                  Returns (Sample.num z) = Returns v -> ~ refersInto P v).
  { intros z. split; [exact Hsealed|]. split; [now intros l _|].
    intros v [= <-]. exact (fun H => H). }
  split.
  - intros code resolver Hresolver. unfold Sample.runInNewContext.
    destruct (Str.eqb code "0"); [apply Hpure|].
    destruct (Str.eqb code "1"); [apply Hpure|].
    destruct (Str.eqb code "Math.n").
    { cbn [fst snd]. split; [exact Hsealed|]. split; [now intros l _|].
      intros v [= <-]. unfold getProperty.
      destruct (default ∅ (h !! Sample.Math) !! "n") as [v|] eqn:Hn;
        simpl; [|exact (fun H => H)].
      exact (intact_holds P h Sample.Math h HMath Hstart "n" v Hn). }
    destruct (Str.eqb code "Math.n = 0"); [now apply Hwrite|].
    destruct (Str.eqb code "Math.n = 1"); [now apply Hwrite|].
    destruct (Str.eqb code _).
    + pose proof (Hresolver h "self" Hsealed) as Hself.
      destruct (resolver h "self") as [| |b|n|s| |l]; cbn [fst snd];
        try apply Hpure;
        try (split; [exact Hsealed|]; split; [now intros l _|]; intros v [=]).
      apply Hwrite. exact Hself.
    + cbn [fst snd]. split; [exact Hsealed|]. split; [now intros l _|].
      intros v [=].
  - intros l Hl. cbn [Sample.Object_toString snd]. split; [exact Hsealed|].
    now intros l' _.
Qed.


Lemma if_block_witness :
  effectsTokens Sample.caller
    (TIf "Math.n = 1" :: [TSet "$v = Math.n"; TText "$v"] ++ [TEnd]) [] []
    Sample.callerHeap
  = effectsTokens Sample.caller [TSet "$v = Math.n"; TText "$v"] [] []
      (alter (insert "n" (Sample.num 1)) Sample.Math Sample.callerHeap)
  /\ (effectsTokens Sample.caller
        (TIf "Math.n = 1" :: [TSet "$v = Math.n"; TText "$v"] ++ [TEnd]) [] []
        Sample.callerHeap).1
     = Ok ([], ["1"])
  /\ (effectsTokens Sample.caller [TSet "$v = Math.n"; TText "$v"] [] []
        Sample.callerHeap).1
     = Ok ([], [""]).
Proof.
  assert (Heval : evaluateExpression Sample.runInNewContext
                    Sample.Number_ofString "Math.n = 1" Sample.caller
                    Sample.callerHeap
                  = (Ok (Sample.num 1),
                     alter (insert "n" (Sample.num 1)) Sample.Math
                       Sample.callerHeap))
    by reflexivity.
  split; [|split; vm_compute; reflexivity].
  rewrite (if_block Sample.runInNewContext Sample.Object_toString
             Sample.Number_ofString Sample.Number_toString
             Sample.caller "Math.n = 1" [TSet "$v = Math.n"; TText "$v"]
             [] [] Sample.callerHeap _ (Sample.num 1)
             eq_refl Heval eq_refl eq_refl).
  reflexivity.
Defined.

Lemma if_else_block_witness :
  effectsTokens Sample.caller
    (TIf "Math.n = 0" :: [TText "a"]
       ++ TElse :: [TSet "$v = Math.n"; TText "$v"] ++ [TEnd]) [] []
    Sample.callerHeap
  = effectsTokens Sample.caller [TSet "$v = Math.n"; TText "$v"] [] []
      (alter (insert "n" (Sample.num 0)) Sample.Math Sample.callerHeap)
  /\ (effectsTokens Sample.caller
        (TIf "Math.n = 0" :: [TText "a"]
           ++ TElse :: [TSet "$v = Math.n"; TText "$v"] ++ [TEnd]) [] []
        Sample.callerHeap).1
     = Ok ([], ["0"]).
Proof.
  assert (Heval : evaluateExpression Sample.runInNewContext
                    Sample.Number_ofString "Math.n = 0" Sample.caller
                    Sample.callerHeap
                  = (Ok (Sample.num 0),
                     alter (insert "n" (Sample.num 0)) Sample.Math
                       Sample.callerHeap))
    by reflexivity.
  split; [|vm_compute; reflexivity].
  rewrite (if_else_block Sample.runInNewContext Sample.Object_toString
             Sample.Number_ofString Sample.Number_toString
             Sample.caller "Math.n = 0" [TText "a"]
             [TSet "$v = Math.n"; TText "$v"]
             [] [] Sample.callerHeap _ (Sample.num 0)
             eq_refl Heval eq_refl eq_refl eq_refl eq_refl).
  reflexivity.
Defined.

Lemma if_elseif_else_block_witness :
  effectsTokens Sample.caller
    (TIf "Math.n = 0" :: [TText "a"]
       ++ TElseif "Math.n = 1" :: [TSet "$v = Math.n"; TText "$v"]
       ++ TElse :: [TText "c"] ++ [TEnd]) [] []
    Sample.callerHeap
  = effectsTokens Sample.caller [TSet "$v = Math.n"; TText "$v"] [] []
      (alter (insert "n" (Sample.num 1)) Sample.Math
         (alter (insert "n" (Sample.num 0)) Sample.Math Sample.callerHeap))
  /\ (effectsTokens Sample.caller
        (TIf "Math.n = 0" :: [TText "a"]
           ++ TElseif "Math.n = 1" :: [TSet "$v = Math.n"; TText "$v"]
           ++ TElse :: [TText "c"] ++ [TEnd]) [] []
        Sample.callerHeap).1
     = Ok ([], ["1"]).
Proof.
  assert (Hfirst : evaluateExpression Sample.runInNewContext
                     Sample.Number_ofString "Math.n = 0" Sample.caller
                     Sample.callerHeap
                   = (Ok (Sample.num 0),
                      alter (insert "n" (Sample.num 0)) Sample.Math
                        Sample.callerHeap))
    by reflexivity.
  assert (Hsecond : evaluateExpression Sample.runInNewContext
                      Sample.Number_ofString "Math.n = 1" Sample.caller
                      (alter (insert "n" (Sample.num 0)) Sample.Math
                         Sample.callerHeap)
                    = (Ok (Sample.num 1),
                       alter (insert "n" (Sample.num 1)) Sample.Math
                         (alter (insert "n" (Sample.num 0)) Sample.Math
                            Sample.callerHeap)))
    by reflexivity.
  split; [|vm_compute; reflexivity].
  rewrite (if_elseif_else_block Sample.runInNewContext Sample.Object_toString
             Sample.Number_ofString Sample.Number_toString
             Sample.caller "Math.n = 0" "Math.n = 1" [TText "a"]
             [TSet "$v = Math.n"; TText "$v"] [TText "c"]
             [] [] Sample.callerHeap _ _ (Sample.num 0) (Sample.num 1)
             eq_refl Hfirst (fun _ => Hsecond)
             eq_refl eq_refl eq_refl eq_refl eq_refl eq_refl).
  reflexivity.
Defined.

Lemma skipped_region_runs_no_foreign_code_witness :
  (evaluateExpression Sample.runInNewContext Sample.Number_ofString
     "Math.n = 1" Sample.caller Sample.callerHeap).2 !! Sample.Math
  = Some {[ "n" := Sample.num 1 ]}
  /\ effectsTokens Sample.caller
       [TIf "Math.n = 1"; TSet "$v = Math.n = 1"; TElseif "Math.n = 1"; TEnd]
       [Frame true false false] [] Sample.callerHeap
     = (Ok ([Frame true false false], []), Sample.callerHeap).
Proof.
  split; [vm_compute; reflexivity|].
  destruct (skipped_region_runs_no_foreign_code Sample.runInNewContext
              Sample.Object_toString Sample.Number_ofString
              Sample.Number_toString Sample.caller [Frame true false false] []
              Sample.callerHeap
              [TIf "Math.n = 1"; TSet "$v = Math.n = 1"; TElseif "Math.n = 1";
               TEnd]
              eq_refl eq_refl) as [_ Hrun].
  exact Hrun.
Defined.
